(** * getmethere: route geometry, ETA tracking and route selection

    A shallow embedding of the navigation core of the application:

    - [decodePolyline] of [services/navigationService.ts], the decoder of
      the encoded-polyline wire format;
    - the [navigation] Redux slice of [store/navigationSlice.ts]: its state,
      its nineteen reducers and the helpers [calculateRouteStatus],
      [getTrafficDelay], [formatEta], [shouldAnnounceEta], [announceEta];
    - the requests of [services/navigationService.ts]: [getDirections] with
      its helpers [formatDistance] and [formatDuration], [getPlaceDetails]
      and [getPlaceSuggestions];
    - what the components dispatch to the store: [handleError] and
      [withErrorHandling] of [hooks/useErrorHandler.ts], the route fetches
      of the navigation screen, the route selector and the search bar.

    Conventions of the embedding.

    - A JavaScript string is the list of its UTF-16 code units ([list Z]);
      [charCodeAt] is the element of that list.
    - The 32-bit integer operators of JavaScript ([|], [&], [<<], [>>], [~])
      are written on [Z] with their wrap-around made explicit ([toInt32]).
    - Other numbers are exact: timestamps and indices are integers ([Z]), and
      distances, speeds and durations are rationals ([Q]).  Rounding of
      doubles is not modelled, except in [formatDistance], whose text
      depends on it.  The two special values the source itself
      manipulates, [NaN] and [Infinity], are constructors of [number].
    - [Date.now()], the local hour of a timestamp, the platform name and the
      great-circle distance (trigonometry on doubles) are read from an
      environment; logging is dropped; speech is an output of the reducer.
    - The API key, the text of a number in a URL and what [fetch] settles to
      are read from a [Network]; a promise is the value it settles to, and
      an asynchronous function is the bursts of actions it dispatches. *)

From Stdlib Require Import String Ascii DecimalString ZArith QArith Qround Qabs Qpower List Bool Lia Arith.
From Stdlib Require Import Sorted Permutation Lqa.
From Equations Require Import Equations.
Import ListNotations.

Local Open Scope Z_scope.

(** ** JavaScript values used by the source *)

(** A string as the list of its UTF-16 code units. *)
Definition JsString := list Z.

Definition codeUnits (s : string) : JsString :=
  map (fun a => Z.of_N (N_of_ascii a)) (list_ascii_of_string s).

(** [ToInt32]: the signed 32-bit integer congruent to [z] modulo 2^32. *)
Definition toInt32 (z : Z) : Z := (z + 2 ^ 31) mod 2 ^ 32 - 2 ^ 31.

(** [x << s] on 32-bit integers: only the low five bits of the count are
    used, and the result wraps. *)
Definition shl32 (x s : Z) : Z := toInt32 (Z.shiftl (toInt32 x) (s mod 32)).

(** [x >> s], the sign-propagating shift. *)
Definition sar32 (x s : Z) : Z := Z.shiftr (toInt32 x) (s mod 32).

Definition and32 (x y : Z) : Z := Z.land (toInt32 x) (toInt32 y).
Definition or32 (x y : Z) : Z := Z.lor (toInt32 x) (toInt32 y).
Definition not32 (x : Z) : Z := Z.lnot (toInt32 x).

(** ** services/navigationService.ts: decodePolyline *)

Record Coordinate : Type := mkCoordinate {
  latitude : Q;
  longitude : Q
}.

(** How a block of statements ends: normally, or by a [throw]. *)
Inductive Completion (A : Type) : Type :=
| Normal (a : A)
| Throw (message : string).
Arguments Normal {A} a.
Arguments Throw {A} message.

(** One [do { ... } while (byte >= 0x20)] loop.  [rest] is the part of
    [encoded] from [index] on; the loop returns the accumulated [result]
    and the input left after the last chunk it read. *)
Fixpoint readValue (rest : JsString) (shift result : Z)
  : Completion (Z * JsString) :=
  match rest with
  | [] => Throw "Unexpected end of polyline"
  | c :: rest' =>
      let byte := c - 63 in
      let result := or32 result (shl32 (and32 byte 31) shift) in
      let shift := shift + 5 in
      if byte >=? 32 then readValue rest' shift result
      else Normal (result, rest')
  end.

(** [(result & 1) ? ~(result >> 1) : (result >> 1)] *)
Definition unzigzag (result : Z) : Z :=
  if and32 result 1 =? 0 then sar32 result 1 else not32 (sar32 result 1).

(** [Number((n * 1e-5).toFixed(6))]: [n] is an integer, so the product has
    five decimals and rounding it to six changes nothing. *)
Definition scaled (n : Z) : Q := Qmake n 100000.

(** The range test before [coordinates.push]; its [!isNaN] conjuncts are
    true of every rational. *)
Definition validCoordinate (c : Coordinate) : bool :=
  Qle_bool (-90 # 1) (latitude c) && Qle_bool (latitude c) (90 # 1) &&
  Qle_bool (-180 # 1) (longitude c) && Qle_bool (longitude c) (180 # 1).

Definition pushIfValid (coordinates : list Coordinate) (lat lng : Z)
  : list Coordinate :=
  let c := mkCoordinate (scaled lat) (scaled lng) in
  if validCoordinate c then coordinates ++ [c] else coordinates.

Lemma readValue_shorter rest : forall shift result v rest',
  readValue rest shift result = Normal (v, rest') ->
  (length rest' < length rest)%nat.
Proof.
  induction rest as [|c rest IH]; intros shift result v rest' H; simpl in H.
  - discriminate.
  - destruct (c - 63 >=? 32).
    + apply IH in H. simpl. lia.
    + injection H as _ <-. simpl. lia.
Qed.

Definition inspect {A} (a : A) : {b : A | a = b} := exist _ a eq_refl.

(** The [while (index < encoded.length)] loop inside the [try] block.  The
    array [coordinates] outlives a [throw] (the [catch] clause reads it), so
    the loop returns it together with the way the block ended. *)
Equations? decodeLoop (rest : JsString) (lat lng : Z)
  (coordinates : list Coordinate)
  : list Coordinate * Completion unit by wf (length rest) lt :=
decodeLoop [] lat lng coordinates := (coordinates, Normal tt);
decodeLoop (c :: cs) lat lng coordinates
  with inspect (readValue (c :: cs) 0 0) := {
  | exist _ (Throw e) _ := (coordinates, Throw e)
  | exist _ (Normal (result1, rest1)) H1
      with inspect (readValue rest1 0 0) := {
      | exist _ (Throw e) _ := (coordinates, Throw e)
      | exist _ (Normal (result2, rest2)) H2 :=
          let lat := lat + unzigzag result1 in
          let lng := lng + unzigzag result2 in
          decodeLoop rest2 lat lng (pushIfValid coordinates lat lng) } }.
Proof.
  assert (H1' : readValue (c :: cs) 0 0 = Normal (result1, rest1)) by exact H1.
  apply readValue_shorter in H1', H2. simpl in H1'. lia.
Qed.

(** The argument of [decodePolyline]: [null] (or any other non-string) or a
    string. *)
Inductive Encoded : Type :=
| Null
| Str (s : JsString).

Definition decodePolyline (encoded : Encoded) : list Coordinate :=
  match encoded with
  | Null => []
  | Str [] => []
  | Str s =>
      match decodeLoop s 0 0 [] with
      | (coordinates, Normal _) => coordinates
      | (coordinates, Throw _) => coordinates   (* catch (error) *)
      end
  end.

Definition referencePolyline : JsString := codeUnits "_p~iF~ps|U_ulLnnqC_mqNvxq`@".

(** ** types/navigation.ts

    Each interface is a record in a module of its name.  Fields that the
    source tests for presence ([route.polyline], [route.steps],
    [route.distance?.text], ...) are optional here, whatever their declared
    type.  Of [Route], the fields the slice never reads ([legsCoordinates],
    [warnings], [alternativeRoutes], [eta]) are left out. *)

Module Location.
Record t : Type := mk {
  latitude : Q;
  longitude : Q;
  accuracy : Q;
  altitude : option Q;
  speed : option Q;
  heading : option Q;
  latitudeDelta : option Q;
  longitudeDelta : option Q
}.
End Location.

Module Measure.
(** [{ text: string; value: number }] *)
Record t : Type := mk {
  text : option string;
  value : Q
}.
End Measure.

Module RouteStep.
Record t : Type := mk {
  distance : Measure.t;
  duration : Measure.t;
  instruction : string;
  maneuver : option string;
  polyline : JsString
}.
End RouteStep.

Module Route.
Record t : Type := mk {
  distance : option Measure.t;
  duration : option Measure.t;
  steps : option (list RouteStep.t);
  polyline : option JsString
}.
End Route.

Module Waypoint.
(** [location] and [name] are missing from the object that
    [updateWaypointOrder] builds out of [undefined]. *)
Record t : Type := mk {
  location : option Location.t;
  name : option string;
  order : Z
}.
End Waypoint.

(** A JavaScript number where the source tells the special values apart. *)
Inductive number : Type :=
| Num (q : Q)
| Infinity
| NegInfinity
| NaN.

Definition Qlt_bool (x y : Q) : bool := negb (Qle_bool y x).

(** [x < y] on numbers. *)
Definition number_ltb (x y : number) : bool :=
  match x, y with
  | NaN, _ | _, NaN => false
  | Num a, Num b => Qlt_bool a b
  | Num _, Infinity => true
  | NegInfinity, Num _ => true
  | NegInfinity, Infinity => true
  | _, _ => false
  end.

(** [x >= y] on numbers. *)
Definition number_geb (x y : number) : bool :=
  match x, y with
  | NaN, _ | _, NaN => false
  | _, _ => negb (number_ltb x y)
  end.

Definition isNaN (x : number) : bool :=
  match x with NaN => true | _ => false end.

(** ** store/navigationSlice.ts *)

Module EtaState.
Record t : Type := mk {
  timestamp : Q;
  text : string;
  value : Q;
  trafficDelay : option Q;
  isOffRoute : bool;
  distanceToRoute : number;
  lastVoiceAnnouncement : option Z
}.
End EtaState.

Inductive UpdateFrequency : Type := normal | frequent.
Inductive CardState : Type := hidden | minimized | expanded.

Record NavigationState : Type := mkNavigationState {
  currentLocation : option Location.t;
  waypoints : list Waypoint.t;
  route : option Route.t;
  alternativeRoutes : option (list Route.t);
  selectedRouteIndex : Z;
  loading : bool;
  error : option string;
  heading : option Q;
  speed : option Q;
  currentEta : option EtaState.t;
  lastEtaUpdate : Z;
  voiceEnabled : bool;
  updateFrequency : UpdateFrequency;
  isNavigating : bool;
  isNavigationCardVisible : bool;
  cardState : CardState;
  lastRouteSwitch : Z
}.

Definition OFF_ROUTE_THRESHOLD : Q := 100.
Definition FREQUENT_UPDATE_DISTANCE : Q := 5000.
Definition VOICE_ANNOUNCEMENT_INTERVAL : Z := 60000.
Definition TRAFFIC_UPDATE_INTERVAL : Z := 300000.
Definition ROUTE_SWITCH_DEBOUNCE : Z := 500.

Definition initialState : NavigationState := {|
  currentLocation := None;
  waypoints := [];
  route := None;
  alternativeRoutes := None;
  selectedRouteIndex := 0;
  loading := false;
  error := None;
  heading := None;
  speed := None;
  currentEta := None;
  lastEtaUpdate := 0;
  voiceEnabled := true;
  updateFrequency := normal;
  isNavigating := false;
  isNavigationCardVisible := true;
  cardState := hidden;
  lastRouteSwitch := 0
|}.

(** What a reducer reads from outside the store.  The three clock fields are
    the successive readings of [Date.now()] that one run of [updateEta] can
    make: its own, the one of [formatEta] and the one of
    [shouldAnnounceEta]; the other reducers read [now] alone. *)
Record Env : Type := mkEnv {
  now : Z;
  nowFormat : Z;
  nowAnnounce : Z;
  (** [new Date(timestamp).getHours()], in the local time zone *)
  getHours : Z -> Z;
  (** [Platform.OS] *)
  platformOS : string;
  (** [getDistance(lat1, lon1, lat2, lon2)]: the haversine formula, in
      meters.  It is made of [sin], [cos], [sqrt] and [atan2] on doubles and
      has no exact counterpart on [Q]; the slice only compares and adds its
      results, so it is left as a parameter and every property below holds
      for any function in its place. *)
  getDistance : Q -> Q -> Q -> Q -> Q
}.

(** *** Assignments to the draft state *)

Section Assign.
Variable s : NavigationState.

Definition set_currentLocation v := mkNavigationState
  v (waypoints s) (route s) (alternativeRoutes s) (selectedRouteIndex s)
  (loading s) (error s) (heading s) (speed s) (currentEta s)
  (lastEtaUpdate s) (voiceEnabled s) (updateFrequency s) (isNavigating s)
  (isNavigationCardVisible s) (cardState s) (lastRouteSwitch s).
Definition set_waypoints v := mkNavigationState
  (currentLocation s) v (route s) (alternativeRoutes s) (selectedRouteIndex s)
  (loading s) (error s) (heading s) (speed s) (currentEta s)
  (lastEtaUpdate s) (voiceEnabled s) (updateFrequency s) (isNavigating s)
  (isNavigationCardVisible s) (cardState s) (lastRouteSwitch s).
Definition set_route v := mkNavigationState
  (currentLocation s) (waypoints s) v (alternativeRoutes s) (selectedRouteIndex s)
  (loading s) (error s) (heading s) (speed s) (currentEta s)
  (lastEtaUpdate s) (voiceEnabled s) (updateFrequency s) (isNavigating s)
  (isNavigationCardVisible s) (cardState s) (lastRouteSwitch s).
Definition set_alternativeRoutes v := mkNavigationState
  (currentLocation s) (waypoints s) (route s) v (selectedRouteIndex s)
  (loading s) (error s) (heading s) (speed s) (currentEta s)
  (lastEtaUpdate s) (voiceEnabled s) (updateFrequency s) (isNavigating s)
  (isNavigationCardVisible s) (cardState s) (lastRouteSwitch s).
Definition set_selectedRouteIndex v := mkNavigationState
  (currentLocation s) (waypoints s) (route s) (alternativeRoutes s) v
  (loading s) (error s) (heading s) (speed s) (currentEta s)
  (lastEtaUpdate s) (voiceEnabled s) (updateFrequency s) (isNavigating s)
  (isNavigationCardVisible s) (cardState s) (lastRouteSwitch s).
Definition set_loading v := mkNavigationState
  (currentLocation s) (waypoints s) (route s) (alternativeRoutes s) (selectedRouteIndex s)
  v (error s) (heading s) (speed s) (currentEta s)
  (lastEtaUpdate s) (voiceEnabled s) (updateFrequency s) (isNavigating s)
  (isNavigationCardVisible s) (cardState s) (lastRouteSwitch s).
Definition set_error v := mkNavigationState
  (currentLocation s) (waypoints s) (route s) (alternativeRoutes s) (selectedRouteIndex s)
  (loading s) v (heading s) (speed s) (currentEta s)
  (lastEtaUpdate s) (voiceEnabled s) (updateFrequency s) (isNavigating s)
  (isNavigationCardVisible s) (cardState s) (lastRouteSwitch s).
Definition set_heading v := mkNavigationState
  (currentLocation s) (waypoints s) (route s) (alternativeRoutes s) (selectedRouteIndex s)
  (loading s) (error s) v (speed s) (currentEta s)
  (lastEtaUpdate s) (voiceEnabled s) (updateFrequency s) (isNavigating s)
  (isNavigationCardVisible s) (cardState s) (lastRouteSwitch s).
Definition set_speed v := mkNavigationState
  (currentLocation s) (waypoints s) (route s) (alternativeRoutes s) (selectedRouteIndex s)
  (loading s) (error s) (heading s) v (currentEta s)
  (lastEtaUpdate s) (voiceEnabled s) (updateFrequency s) (isNavigating s)
  (isNavigationCardVisible s) (cardState s) (lastRouteSwitch s).
Definition set_currentEta v := mkNavigationState
  (currentLocation s) (waypoints s) (route s) (alternativeRoutes s) (selectedRouteIndex s)
  (loading s) (error s) (heading s) (speed s) v
  (lastEtaUpdate s) (voiceEnabled s) (updateFrequency s) (isNavigating s)
  (isNavigationCardVisible s) (cardState s) (lastRouteSwitch s).
Definition set_lastEtaUpdate v := mkNavigationState
  (currentLocation s) (waypoints s) (route s) (alternativeRoutes s) (selectedRouteIndex s)
  (loading s) (error s) (heading s) (speed s) (currentEta s)
  v (voiceEnabled s) (updateFrequency s) (isNavigating s)
  (isNavigationCardVisible s) (cardState s) (lastRouteSwitch s).
Definition set_voiceEnabled v := mkNavigationState
  (currentLocation s) (waypoints s) (route s) (alternativeRoutes s) (selectedRouteIndex s)
  (loading s) (error s) (heading s) (speed s) (currentEta s)
  (lastEtaUpdate s) v (updateFrequency s) (isNavigating s)
  (isNavigationCardVisible s) (cardState s) (lastRouteSwitch s).
Definition set_updateFrequency v := mkNavigationState
  (currentLocation s) (waypoints s) (route s) (alternativeRoutes s) (selectedRouteIndex s)
  (loading s) (error s) (heading s) (speed s) (currentEta s)
  (lastEtaUpdate s) (voiceEnabled s) v (isNavigating s)
  (isNavigationCardVisible s) (cardState s) (lastRouteSwitch s).
Definition set_isNavigationCardVisible v := mkNavigationState
  (currentLocation s) (waypoints s) (route s) (alternativeRoutes s) (selectedRouteIndex s)
  (loading s) (error s) (heading s) (speed s) (currentEta s)
  (lastEtaUpdate s) (voiceEnabled s) (updateFrequency s) (isNavigating s)
  v (cardState s) (lastRouteSwitch s).
Definition set_cardState v := mkNavigationState
  (currentLocation s) (waypoints s) (route s) (alternativeRoutes s) (selectedRouteIndex s)
  (loading s) (error s) (heading s) (speed s) (currentEta s)
  (lastEtaUpdate s) (voiceEnabled s) (updateFrequency s) (isNavigating s)
  (isNavigationCardVisible s) v (lastRouteSwitch s).
Definition set_lastRouteSwitch v := mkNavigationState
  (currentLocation s) (waypoints s) (route s) (alternativeRoutes s) (selectedRouteIndex s)
  (loading s) (error s) (heading s) (speed s) (currentEta s)
  (lastEtaUpdate s) (voiceEnabled s) (updateFrequency s) (isNavigating s)
  (isNavigationCardVisible s) (cardState s) v.
End Assign.

(** *** Helper functions of the slice *)

Module RouteStatus.
Record t : Type := mk {
  remainingDistance : Q;
  isOffRoute : bool;
  distanceToRoute : number
}.
End RouteStatus.

(** [Math.round]: the nearest integer, halves going up. *)
Definition Math_round (q : Q) : Z := Qfloor (q + (1 # 2)).

(** An integer inside a template literal. *)
Definition showZ (z : Z) : string := DecimalString.NilZero.string_of_int (Z.to_int z).

(** Truthiness of an optional number ([undefined], [null] and [0] are
    falsy) and of an optional string ([undefined] and [""] are falsy). *)
Definition truthyNumber (o : option Q) : bool :=
  match o with
  | Some q => negb (Qeq_bool q 0)
  | None => false
  end.

Definition truthyString {A} (o : option (list A)) : bool :=
  match o with
  | Some (_ :: _) => true
  | _ => false
  end.

Definition truthyText (o : option string) : bool :=
  match o with
  | Some (String _ _) => true
  | _ => false
  end.

Definition isSome {A} (o : option A) : bool :=
  match o with Some _ => true | None => false end.

Definition encodedOf (polyline : option JsString) : Encoded :=
  match polyline with
  | Some s => Str s
  | None => Null
  end.

Section Helpers.
Variable env : Env.

Definition distanceBetween (a b : Coordinate) : Q :=
  getDistance env (latitude a) (longitude a) (latitude b) (longitude b).

(** The first loop of [calculateRouteStatus]; [coordinates] is what is
    left to visit and [i] the index of its head. *)
Fixpoint closestScan (currentLocation : Location.t)
  (coordinates : list Coordinate) (i : nat)
  (minDistance : number) (closestIndex : nat) : number * nat :=
  match coordinates with
  | [] => (minDistance, closestIndex)
  | c :: rest =>
      let distance :=
        getDistance env (Location.latitude currentLocation)
          (Location.longitude currentLocation) (latitude c) (longitude c) in
      if number_ltb (Num distance) minDistance
      then closestScan currentLocation rest (S i) (Num distance) i
      else closestScan currentLocation rest (S i) minDistance closestIndex
  end.

(** The second loop; [coordinates] is the path from index [i] on. *)
Fixpoint remainingLoop (coordinates : list Coordinate) (remainingDistance : Q)
  : Q :=
  match coordinates with
  | a :: (b :: _) as rest =>
      remainingLoop rest (remainingDistance + distanceBetween a b)
  | _ => remainingDistance
  end.

(** Nothing in the [try] block throws ([decodePolyline] catches its own
    error), so the [catch] clause is never entered. *)
Definition calculateRouteStatus (currentLocation : Location.t)
  (polyline : option JsString) : option RouteStatus.t :=
  let coordinates := decodePolyline (encodedOf polyline) in
  if (length coordinates <? 2)%nat then None
  else
    let '(minDistance, closestIndex) :=
      closestScan currentLocation coordinates 0 Infinity 0 in
    let remainingDistance :=
      remainingLoop (skipn closestIndex coordinates) 0 in
    let isOffRoute := number_ltb (Num OFF_ROUTE_THRESHOLD) minDistance in
    Some (RouteStatus.mk remainingDistance isOffRoute minDistance).

Definition getTrafficDelay (distance : Q) (timestamp : Z) : Q :=
  let hour := getHours env timestamp in
  let isRushHour :=
    ((7 <=? hour) && (hour <=? 9)) || ((16 <=? hour) && (hour <=? 18)) in
  if isRushHour then (distance * (2 # 10)) / 50 else 0.

Definition formatEta (now : Z) (timestamp : Q) (trafficDelay : option Q)
  : string :=
  let diff := (timestamp - inject_Z now)%Q in
  let minutes := Math_round (diff / 60000) in
  let etaText :=
    if minutes <? 1 then "Arriving now"%string
    else if minutes <? 60
    then ("Arriving in " ++ showZ minutes ++ " min")%string
    else
      let hours := minutes / 60 in
      let remainingMinutes := Z.rem minutes 60 in
      ("Arriving in " ++ showZ hours ++ "h " ++ showZ remainingMinutes ++ "m")%string in
  match trafficDelay with
  | Some delay =>
      if truthyNumber trafficDelay && Qlt_bool 300 delay
      then
        let delayMinutes := Math_round (delay / 60) in
        (etaText ++ " (" ++ showZ delayMinutes ++ " min delay due to traffic)")%string
      else etaText
  | None => etaText
  end.

Definition shouldAnnounceEta (now : Z) (currentEta : option EtaState.t)
  (newEta : EtaState.t) : bool :=
  match currentEta with
  | None => true
  | Some currentEta =>
      let last :=
        match EtaState.lastVoiceAnnouncement currentEta with
        | Some t => if t =? 0 then 0 else t      (* [t || 0] *)
        | None => 0
        end in
      if now - last <? VOICE_ANNOUNCEMENT_INTERVAL then false
      else
        let etaChanged :=
          Qlt_bool 300 (Qabs (EtaState.value currentEta - EtaState.value newEta)) in
        let wentOffRoute :=
          negb (EtaState.isOffRoute currentEta) && EtaState.isOffRoute newEta in
        let trafficChanged :=
          match EtaState.trafficDelay currentEta, EtaState.trafficDelay newEta with
          | Some d1, Some d2 =>
              truthyNumber (Some d1) && truthyNumber (Some d2) &&
              Qlt_bool 300 (Qabs (d1 - d2))
          | _, _ => false
          end in
        etaChanged || wentOffRoute || trafficChanged
  end.

(** The sentence [announceEta] builds. *)
Definition announcement (eta : EtaState.t) (isOffRoute : bool) : string :=
  if isOffRoute
  then "You have gone off route. Please return to the suggested route."%string
  else
    let minutes := Math_round (EtaState.value eta / 60) in
    let announcement :=
      if minutes <? 1 then "You have arrived at your destination."%string
      else if minutes <? 60
      then ("You will arrive in " ++ showZ minutes ++ " minutes.")%string
      else
        let hours := minutes / 60 in
        let remainingMinutes := Z.rem minutes 60 in
        ("You will arrive in " ++ showZ hours ++ " hours and " ++
         showZ remainingMinutes ++ " minutes.")%string in
    match EtaState.trafficDelay eta with
    | Some delay =>
        if truthyNumber (Some delay) && Qlt_bool 300 delay
        then
          let delayMinutes := Math_round (delay / 60) in
          (announcement ++ " There is a " ++ showZ delayMinutes ++
           " minute delay due to traffic.")%string
        else announcement
    | None => announcement
    end.

(** [announceEta]: what is handed to [Speech.speak], if anything. *)
Definition announceEta (eta : EtaState.t) (isOffRoute : bool) : list string :=
  if String.eqb (platformOS env) "ios" || String.eqb (platformOS env) "android"
  then [announcement eta isOffRoute]
  else [].

End Helpers.

(** *** Array operations used by the waypoint reducers *)

(** [Array.prototype.sort] is stable; with the comparator
    [(a, b) => a.order - b.order] it is the stable sort by [order]. *)
Fixpoint insertByOrder (w : Waypoint.t) (sorted : list Waypoint.t)
  : list Waypoint.t :=
  match sorted with
  | [] => [w]
  | x :: rest =>
      if Waypoint.order w <=? Waypoint.order x then w :: sorted
      else x :: insertByOrder w rest
  end.

Definition sortByOrder (ws : list Waypoint.t) : list Waypoint.t :=
  fold_right insertByOrder [] ws.

(** The start position [splice] derives from its first argument. *)
Definition spliceStart (len : nat) (start : Z) : nat :=
  if start <? 0 then Z.to_nat (Z.max (Z.of_nat len + start) 0)
  else Nat.min (Z.to_nat start) len.

(** [const [moved] = array.splice(from, 1)]: the element taken out
    ([undefined] when there is none) and the array left. *)
Definition spliceOut {A} (array : list A) (from : Z) : option A * list A :=
  let start := spliceStart (length array) from in
  (nth_error array start, firstn start array ++ skipn (S start) array).

(** [array.splice(to, 0, item)] *)
Definition spliceIn {A} (array : list A) (to : Z) (item : A) : list A :=
  let start := spliceStart (length array) to in
  firstn start array ++ item :: skipn start array.

(** [array.map((wp, index) => ({ ...wp, order: index }))], from index [i]
    on; spreading [undefined] gives an object with no other field. *)
Fixpoint reorderFrom (i : Z) (array : list (option Waypoint.t))
  : list Waypoint.t :=
  match array with
  | [] => []
  | Some wp :: rest =>
      Waypoint.mk (Waypoint.location wp) (Waypoint.name wp) i
        :: reorderFrom (i + 1) rest
  | None :: rest => Waypoint.mk None None i :: reorderFrom (i + 1) rest
  end.

(** *** The reducers *)

Inductive Action : Type :=
| setCurrentLocation (payload : Location.t)
| addWaypoint (payload : Waypoint.t)
| removeWaypoint (payload : Z)
| updateWaypointOrder (from to : Z)
| clearWaypoints
| setRoute (payload : option Route.t)
| setAlternativeRoutes (payload : list Route.t)
| setSelectedRoute (payload : number)
| setLoading (payload : bool)
| setError (payload : option string)
| setHeading (payload : option Q)
| setSpeed (payload : option Q)
| clearNavigation
| setCurrentEta (payload : EtaState.t)
| setVoiceEnabled (payload : bool)
| setUpdateFrequency (payload : UpdateFrequency)
| updateEta
| setNavigationCardVisible (payload : bool)
| setCardState (payload : CardState).

(** [state.alternativeRoutes ? [state.route, ...state.alternativeRoutes]
    .filter(Boolean) : state.route ? [state.route] : []] *)
Definition availableRoutes (s : NavigationState) : list Route.t :=
  match alternativeRoutes s with
  | Some alternatives =>
      match route s with
      | Some r => r :: alternatives
      | None => alternatives
      end
  | None =>
      match route s with
      | Some r => [r]
      | None => []
      end
  end.

(** [routes[index]]: [undefined] unless [index] is an integer within the
    array. *)
Definition routeAt (routes : list Route.t) (index : Q) : option Route.t :=
  if Qeq_bool index (inject_Z (Qfloor index)) && (0 <=? Qfloor index)
  then nth_error routes (Z.to_nat (Qfloor index))
  else None.

Section Reducers.
Variable env : Env.

Definition reduce_removeWaypoint (s : NavigationState) (payload : Z)
  : NavigationState :=
  let s := set_waypoints s
    (filter (fun wp => negb (Waypoint.order wp =? payload)) (waypoints s)) in
  let s := set_waypoints s (reorderFrom 0 (map Some (waypoints s))) in
  match waypoints s with
  | [] =>
      let s := set_route s None in
      let s := set_alternativeRoutes s None in
      set_selectedRouteIndex s 0
  | _ => s
  end.

Definition reduce_updateWaypointOrder (s : NavigationState) (from to : Z)
  : NavigationState :=
  let '(movedWaypoint, waypoints) := spliceOut (map Some (waypoints s)) from in
  let waypoints :=
    spliceIn waypoints to
      match movedWaypoint with Some w => w | None => None end in
  set_waypoints s (reorderFrom 0 waypoints).

Definition reduce_setRoute (s : NavigationState) (payload : option Route.t)
  : NavigationState :=
  let s := set_route s payload in
  let s := set_selectedRouteIndex s 0 in
  match payload with
  | Some r =>
      if truthyString (Route.polyline r) && isSome (Route.steps r)
      then set_cardState (set_isNavigationCardVisible s true) expanded
      else s
  | None => s
  end.

Definition reduce_setSelectedRoute (s : NavigationState) (payload : number)
  : NavigationState :=
  let index := payload in
  if isNaN index || number_ltb index (Num 0) then s
  else
    let routes := availableRoutes s in
    match routes with
    | [] => s
    | _ =>
        if number_geb index (Num (inject_Z (Z.of_nat (length routes))))
        then s
        else
          match index with
          | Num index =>
              match routeAt routes index with
              | None => s
              | Some selectedRoute =>
                  if negb (truthyString (Route.polyline selectedRoute))
                     || negb (isSome (Route.steps selectedRoute))
                  then s
                  else if
                    negb (truthyText
                            match Route.distance selectedRoute with
                            | Some d => Measure.text d
                            | None => None
                            end)
                    || negb (truthyText
                               match Route.duration selectedRoute with
                               | Some d => Measure.text d
                               | None => None
                               end)
                  then s
                  else
                    let s := set_selectedRouteIndex s (Qfloor index) in
                    set_lastRouteSwitch s (now env)
              end
          | _ => s
          end
    end.

Definition reduce_updateEta (s : NavigationState)
  : NavigationState * list string :=
  match route s, currentLocation s, speed s with
  | Some route, Some currentLocation, Some speed =>
      if Qeq_bool speed 0 then (s, [])
      else
        let now := now env in
        let updateInterval :=
          match updateFrequency s with
          | frequent => 10000
          | normal => 30000
          end in
        if now - lastEtaUpdate s <? updateInterval then (s, [])
        else
          match calculateRouteStatus env currentLocation (Route.polyline route) with
          | None => (s, [])
          | Some routeStatus =>
              let remainingDistance := RouteStatus.remainingDistance routeStatus in
              let isOffRoute := RouteStatus.isOffRoute routeStatus in
              let distanceToRoute := RouteStatus.distanceToRoute routeStatus in
              let s :=
                if Qlt_bool remainingDistance FREQUENT_UPDATE_DISTANCE
                then set_updateFrequency s frequent
                else s in
              let speedMph := (speed * (2237 # 1000))%Q in
              let baseTimeSeconds := ((remainingDistance / speedMph) * 3600)%Q in
              let trafficDelay := getTrafficDelay env remainingDistance now in
              let totalTimeSeconds := (baseTimeSeconds + trafficDelay)%Q in
              let etaTimestamp := (inject_Z now + totalTimeSeconds * 1000)%Q in
              let newEta :=
                EtaState.mk etaTimestamp
                  (formatEta (nowFormat env) etaTimestamp (Some trafficDelay))
                  totalTimeSeconds (Some trafficDelay) isOffRoute distanceToRoute
                  match currentEta s with
                  | Some eta => EtaState.lastVoiceAnnouncement eta
                  | None => None
                  end in
              if voiceEnabled s && shouldAnnounceEta (nowAnnounce env) (currentEta s) newEta
              then
                let spoken := announceEta env newEta (EtaState.isOffRoute newEta) in
                let newEta :=
                  EtaState.mk (EtaState.timestamp newEta) (EtaState.text newEta)
                    (EtaState.value newEta) (EtaState.trafficDelay newEta)
                    (EtaState.isOffRoute newEta) (EtaState.distanceToRoute newEta)
                    (Some now) in
                (set_lastEtaUpdate (set_currentEta s (Some newEta)) now, spoken)
              else (set_lastEtaUpdate (set_currentEta s (Some newEta)) now, [])
          end
  | _, _, _ => (s, [])
  end.

(** One dispatch: the next state and what was handed to the speech
    engine. *)
Definition dispatch (s : NavigationState) (action : Action)
  : NavigationState * list string :=
  match action with
  | setCurrentLocation payload => (set_currentLocation s (Some payload), [])
  | addWaypoint payload =>
      (set_waypoints s (sortByOrder (waypoints s ++ [payload])), [])
  | removeWaypoint payload => (reduce_removeWaypoint s payload, [])
  | updateWaypointOrder from to => (reduce_updateWaypointOrder s from to, [])
  | clearWaypoints =>
      let s := set_waypoints s [] in
      let s := set_route s None in
      let s := set_alternativeRoutes s None in
      (set_selectedRouteIndex s 0, [])
  | setRoute payload => (reduce_setRoute s payload, [])
  | setAlternativeRoutes payload => (set_alternativeRoutes s (Some payload), [])
  | setSelectedRoute payload => (reduce_setSelectedRoute s payload, [])
  | setLoading payload => (set_loading s payload, [])
  | setError payload => (set_error s payload, [])
  | setHeading payload => (set_heading s payload, [])
  | setSpeed payload => (set_speed s payload, [])
  | clearNavigation =>
      let s := set_waypoints s [] in
      let s := set_route s None in
      let s := set_alternativeRoutes s None in
      let s := set_selectedRouteIndex s 0 in
      (set_error s None, [])
  | setCurrentEta payload =>
      (set_lastEtaUpdate (set_currentEta s (Some payload)) (now env), [])
  | setVoiceEnabled payload => (set_voiceEnabled s payload, [])
  | setUpdateFrequency payload => (set_updateFrequency s payload, [])
  | updateEta => reduce_updateEta s
  | setNavigationCardVisible payload =>
      let s := set_isNavigationCardVisible s payload in
      (if payload then set_cardState s expanded else set_cardState s hidden, [])
  | setCardState payload =>
      let s := set_cardState s payload in
      (set_isNavigationCardVisible s
         match payload with hidden => false | _ => true end, [])
  end.

Definition navigationReducer (s : NavigationState) (action : Action)
  : NavigationState :=
  fst (dispatch s action).

End Reducers.

(** *** Shape of the input *)

(** A chunk whose value [charCode - 63] is at least [0x20] announces another
    chunk of the same value. *)
Definition continues (c : Z) : Prop := 32 <= c - 63.

(** A complete value: chunks that all continue, then one that does not. *)
Definition completeValue (v : JsString) : Prop :=
  exists init last, v = init ++ [last] /\ Forall continues init /\ ~ continues last.

(** A string made of whole points: a latitude value then a longitude value,
    any number of times. *)
Inductive wholePoints : JsString -> Prop :=
| wholePoints_nil : wholePoints []
| wholePoints_cons v1 v2 p :
    completeValue v1 -> completeValue v2 -> wholePoints p ->
    wholePoints (v1 ++ v2 ++ p).

(** A non-empty string that ends before its first point is complete: inside
    the latitude value, or after it and before the end of the longitude
    value. *)
Definition truncatedPoint (t : JsString) : Prop :=
  t <> [] /\
  (Forall continues t \/
   exists v t', t = v ++ t' /\ completeValue v /\ Forall continues t').

(** *** The wire format in arithmetic

    The encoded-polyline format as its description reads, without bit
    operations: a chunk is [charCode - 63]; its low five bits are data, least
    significant group first; bit [0x20] says that another chunk follows; the
    value is the zigzag code of a signed delta; deltas add up, latitude
    first.  Used to cross-check [decodePolyline] on the reference string. *)

Fixpoint wireValue (rest : JsString) (weight acc : Z) : option (Z * JsString) :=
  match rest with
  | [] => None
  | c :: rest' =>
      let chunk := c - 63 in
      let acc := acc + (chunk mod 32) * weight in
      if Z.testbit chunk 5 then wireValue rest' (weight * 32) acc
      else Some (acc, rest')
  end.

Definition wireDelta (v : Z) : Z :=
  if Z.even v then v / 2 else - ((v + 1) / 2).

Fixpoint wirePoints (fuel : nat) (rest : JsString) (lat lng : Z)
  : list (Z * Z) :=
  match fuel with
  | O => []
  | S fuel =>
      match wireValue rest 1 0 with
      | None => []
      | Some (v1, rest1) =>
          match wireValue rest1 1 0 with
          | None => []
          | Some (v2, rest2) =>
              let lat := lat + wireDelta v1 in
              let lng := lng + wireDelta v2 in
              (lat, lng) :: wirePoints fuel rest2 lat lng
          end
      end
  end.

Definition wireDecode (s : JsString) : list Coordinate :=
  map (fun p => mkCoordinate (Qmake (fst p) 100000) (Qmake (snd p) 100000))
    (wirePoints (length s) s 0 0).

(** *** The route catalog and executions *)

(** The alternates of the catalog; none while [alternativeRoutes] is
    [null]. *)
Definition alternates (s : NavigationState) : list Route.t :=
  match alternativeRoutes s with
  | Some routes => routes
  | None => []
  end.

Definition catalogInvariant (s : NavigationState) : Prop :=
  0 <= selectedRouteIndex s < 1 + Z.of_nat (length (alternates s)).

(** What [setSelectedRoute] requires of the route it is asked to select: a
    non-empty polyline string, a step list (of any length), and non-empty
    display texts for distance and duration. *)
Definition Selectable (r : Route.t) : Prop :=
  (exists polyline, Route.polyline r = Some polyline /\ polyline <> []) /\
  (exists steps, Route.steps r = Some steps) /\
  (exists d text, Route.distance r = Some d /\ Measure.text d = Some text /\
     text <> EmptyString) /\
  (exists d text, Route.duration r = Some d /\ Measure.text d = Some text /\
     text <> EmptyString).

(** The payload is the integer [i], and the [i]-th available route is
    selectable. *)
Definition Accepted (s : NavigationState) (payload : number) (i : Z) : Prop :=
  exists q r,
    payload = Num q /\ q == inject_Z i /\ 0 <= i /\
    nth_error (availableRoutes s) (Z.to_nat i) = Some r /\ Selectable r.

(** A run of the store: each dispatch comes with the environment it reads. *)
Definition run (s : NavigationState) (trace : list (Env * Action))
  : NavigationState :=
  fold_left (fun s step => navigationReducer (fst step) s (snd step)) trace s.

(** *** Route tracking as the specification words it

    The distance from the current location to a vertex, the length of a
    path as the sum of the distances between consecutive vertices, and what
    it means for a result to be the status of a location against a path. *)

Definition distanceTo (env : Env) (currentLocation : Location.t)
  (c : Coordinate) : Q :=
  getDistance env (Location.latitude currentLocation)
    (Location.longitude currentLocation) (latitude c) (longitude c).

Fixpoint pathLength (env : Env) (path : list Coordinate) : Q :=
  match path with
  | a :: (b :: _) as rest => distanceBetween env a b + pathLength env rest
  | _ => 0
  end.

Definition IsRouteStatus (env : Env) (currentLocation : Location.t)
  (path : list Coordinate) (result : option RouteStatus.t) : Prop :=
  if (length path <? 2)%nat then result = None
  else
    exists closestIndex c status,
      result = Some status /\
      nth_error path closestIndex = Some c /\
      (* the closest vertex is at the minimum distance ... *)
      (forall j c', nth_error path j = Some c' ->
         (distanceTo env currentLocation c <= distanceTo env currentLocation c')%Q) /\
      (* ... and is the first one at that distance *)
      (forall j c', (j < closestIndex)%nat -> nth_error path j = Some c' ->
         (distanceTo env currentLocation c < distanceTo env currentLocation c')%Q) /\
      RouteStatus.distanceToRoute status = Num (distanceTo env currentLocation c) /\
      (RouteStatus.isOffRoute status = true <->
         (100 < distanceTo env currentLocation c)%Q) /\
      RouteStatus.remainingDistance status == pathLength env (skipn closestIndex path).

(** *** The change triggers of an announcement

    The three reasons [shouldAnnounceEta] accepts for speaking again: the
    ETA moved by more than 300 s, the traveller has just left the route, or
    the traffic delay (known and non-zero on both sides) moved by more than
    300 s. *)
Definition ChangeTrigger (currentEta newEta : EtaState.t) : Prop :=
  (300 < Qabs (EtaState.value currentEta - EtaState.value newEta))%Q \/
  (EtaState.isOffRoute currentEta = false /\ EtaState.isOffRoute newEta = true) \/
  (exists d1 d2,
     EtaState.trafficDelay currentEta = Some d1 /\
     EtaState.trafficDelay newEta = Some d2 /\
     ~ d1 == 0 /\ ~ d2 == 0 /\ (300 < Qabs (d1 - d2))%Q).

(** *** Fixtures: an environment, routes and states for concrete runs *)

Definition testEnv : Env := {|
  now := 100000;
  nowFormat := 100000;
  nowAnnounce := 100000;
  getHours := fun t => (t / 3600000) mod 24;
  platformOS := "ios";
  getDistance := fun lat1 lon1 lat2 lon2 =>
    (111000 * (Qabs (lat2 - lat1) + Qabs (lon2 - lon1)))%Q
|}.

Definition sampleLocation : Location.t :=
  Location.mk (385 # 10) (-1202 # 10) 10 None None None None None.

Definition sampleRoute : Route.t :=
  Route.mk (Some (Measure.mk (Some "10 mi"%string) 16093))
    (Some (Measure.mk (Some "20 min"%string) 1200))
    (Some []) (Some referencePolyline).

Definition sampleState : NavigationState :=
  run initialState
    [(testEnv, setCurrentLocation sampleLocation);
     (testEnv, setRoute (Some sampleRoute));
     (testEnv, setSpeed (Some 10%Q))].

(** [testEnv] with every clock reading at [t]. *)
Definition envAt (t : Z) : Env :=
  mkEnv t t t (getHours testEnv) (platformOS testEnv) (getDistance testEnv).

Definition sampleStep : RouteStep.t :=
  RouteStep.mk (Measure.mk (Some "1 mi"%string) 1609)
    (Measure.mk (Some "2 min"%string) 120) "Head north" None (codeUnits "??").

Definition alternateA : Route.t :=
  Route.mk (Some (Measure.mk (Some "11 mi"%string) 17703))
    (Some (Measure.mk (Some "25 min"%string) 1500))
    (Some [sampleStep]) (Some referencePolyline).

Definition alternateB : Route.t :=
  Route.mk (Some (Measure.mk (Some "12 mi"%string) 19312))
    (Some (Measure.mk (Some "22 min"%string) 1320))
    (Some [sampleStep]) (Some referencePolyline).

(** The store after a fetch that found a primary route and two alternates. *)
Definition catalogState : NavigationState :=
  run initialState
    [(testEnv, setRoute (Some sampleRoute));
     (testEnv, setAlternativeRoutes [alternateA; alternateB])].

(** A route of two points 0.01 degree apart, a location at its start, and
    the store once location, route and speed are known. *)
Definition shortRoute : Route.t :=
  Route.mk (Some (Measure.mk (Some "0.7 mi"%string) 1110))
    (Some (Measure.mk (Some "2 min"%string) 120))
    (Some [sampleStep]) (Some (codeUnits "??o}@?")).

Definition originLocation : Location.t :=
  Location.mk 0 0 10 None None None None None.

Definition nearState : NavigationState :=
  run initialState
    [(testEnv, setCurrentLocation originLocation);
     (testEnv, setRoute (Some shortRoute));
     (testEnv, setSpeed (Some 10%Q))].

(** Two snapshots: one taken on the route, never announced, and a later one
    off the route with the ETA 1000 s further away. *)
Definition quietEta : EtaState.t :=
  EtaState.mk 600000 "Arriving in 10 min" 600 (Some 0%Q) false (Num 20) None.

Definition strayedEta : EtaState.t :=
  EtaState.mk 1600000 "Arriving in 27 min" 1600 (Some 0%Q) true (Num 250) None.

(** *** Concrete runs of the definitions *)

Example shl32_count_modulo_32 : shl32 1 35 = 8 /\ shl32 1 31 = -2147483648.
Proof. split; reflexivity. Qed.

Example readValue_first_latitude :
  readValue (codeUnits "_p~iF~ps|U") 0 0 = Normal (7700000, codeUnits "~ps|U").
Proof. reflexivity. Qed.

Example unzigzag_signs :
  unzigzag 7700000 = 3850000 /\ unzigzag 24039999 = -12020000.
Proof. split; reflexivity. Qed.

Example decodePolyline_lone_latitude : decodePolyline (Str (codeUnits "?")) = [].
Proof. reflexivity. Qed.

Example formatEta_minutes :
  formatEta 0 600000 (Some 0%Q) = "Arriving in 10 min"%string /\
  formatEta 0 5400000 (Some 360%Q) =
  "Arriving in 1h 30m (6 min delay due to traffic)"%string.
Proof. split; reflexivity. Qed.

Example announcement_off_route :
  announcement strayedEta true =
  "You have gone off route. Please return to the suggested route."%string /\
  announcement quietEta false = "You will arrive in 10 minutes."%string.
Proof. split; reflexivity. Qed.

Example getTrafficDelay_rush_hour :
  getTrafficDelay (envAt 0) 10000 (8 * 3600000) == 40 /\
  getTrafficDelay (envAt 0) 10000 (12 * 3600000) == 0.
Proof. split; reflexivity. Qed.

Example updateWaypointOrder_moves :
  let w n := Waypoint.mk None (Some n) in
  waypoints
    (navigationReducer testEnv
       (set_waypoints initialState [w "a"%string 0; w "b"%string 1; w "c"%string 2])
       (updateWaypointOrder 0 2)) =
  [w "b"%string 0; w "c"%string 1; w "a"%string 2].
Proof. reflexivity. Qed.

Example calculateRouteStatus_short_route :
  calculateRouteStatus testEnv originLocation (Route.polyline shortRoute) =
  Some (RouteStatus.mk 1110.00000000000000000000 false (Num 0.0000000000)).
Proof. reflexivity. Qed.

(** *** The points a string holds in full

    A point is held in full when its latitude value and its longitude
    value are both complete.  The points held in full are listed in order,
    each at the running sum of the deltas read up to it, whether in range
    or not; the list ends where a value is cut short.  [fuel] bounds the
    number of points. *)
Fixpoint completePoints (fuel : nat) (rest : JsString) (lat lng : Z)
  : list Coordinate :=
  match fuel with
  | O => []
  | S fuel =>
      match readValue rest 0 0 with
      | Normal (v1, rest1) =>
          match readValue rest1 0 0 with
          | Normal (v2, rest2) =>
              let lat := lat + unzigzag v1 in
              let lng := lng + unzigzag v2 in
              mkCoordinate (scaled lat) (scaled lng)
              :: completePoints fuel rest2 lat lng
          | Throw _ => []
          end
      | Throw _ => []
      end
  end.

(** *** Standard input of the decoder

    Every character lies between [?] (63) and [~] (126), so that a chunk is
    a 6-bit value, and no value has more than six chunks, so that it fits
    in 30 bits.  [run] counts the chunks of the current value read so
    far. *)
Fixpoint standardChunks (run : nat) (s : JsString) : bool :=
  match s with
  | [] => true
  | c :: rest =>
      (63 <=? c) && (c <=? 126) &&
      if 32 <=? c - 63
      then (run <? 5)%nat && standardChunks (S run) rest
      else standardChunks 0 rest
  end.

(** *** Waypoint lists

    What a waypoint is apart from its [order]; a list whose orders are
    0, 1, 2, ... in sequence; a list in non-decreasing order. *)
Definition details (w : Waypoint.t) : option Location.t * option string :=
  (Waypoint.location w, Waypoint.name w).

Definition numbered (ws : list Waypoint.t) : Prop :=
  map Waypoint.order ws = map Z.of_nat (seq 0 (length ws)).

Definition sortedByOrder (ws : list Waypoint.t) : Prop :=
  Sorted (fun a b => Waypoint.order a <= Waypoint.order b) ws.

(** The details of an element of the array [updateWaypointOrder] renumbers:
    those of the waypoint, or none for [undefined]. *)
Definition detailsOrNone (o : option Waypoint.t)
  : option Location.t * option string :=
  match o with
  | Some w => details w
  | None => (None, None)
  end.

(** *** The navigation card

    The card is shown exactly when its state is not [hidden]. *)
Definition cardConsistent (s : NavigationState) : Prop :=
  isNavigationCardVisible s = true <-> cardState s <> hidden.

(** [hour] is one of the rush hours of [getTrafficDelay]. *)
Definition rushHour (hour : Z) : Prop :=
  7 <= hour <= 9 \/ 16 <= hour <= 18.

(** The distance function never gives a negative distance, as the
    haversine formula never does. *)
Definition nonnegativeDistance (env : Env) : Prop :=
  forall lat1 lon1 lat2 lon2, (0 <= getDistance env lat1 lon1 lat2 lon2)%Q.

(** *** The snapshot of an ETA update

    The object [newEta] as [updateEta] first builds it, from the speed and
    the route status, and the same object once [lastVoiceAnnouncement] has
    been assigned. *)
Definition etaSnapshot (env : Env) (s : NavigationState) (speed : Q)
  (routeStatus : RouteStatus.t) : EtaState.t :=
  let remainingDistance := RouteStatus.remainingDistance routeStatus in
  let speedMph := (speed * (2237 # 1000))%Q in
  let baseTimeSeconds := ((remainingDistance / speedMph) * 3600)%Q in
  let trafficDelay := getTrafficDelay env remainingDistance (now env) in
  let totalTimeSeconds := (baseTimeSeconds + trafficDelay)%Q in
  let etaTimestamp := (inject_Z (now env) + totalTimeSeconds * 1000)%Q in
  EtaState.mk etaTimestamp
    (formatEta (nowFormat env) etaTimestamp (Some trafficDelay))
    totalTimeSeconds (Some trafficDelay)
    (RouteStatus.isOffRoute routeStatus)
    (RouteStatus.distanceToRoute routeStatus)
    match currentEta s with
    | Some eta => EtaState.lastVoiceAnnouncement eta
    | None => None
    end.

Definition announcedAt (eta : EtaState.t) (now : Z) : EtaState.t :=
  EtaState.mk (EtaState.timestamp eta) (EtaState.text eta) (EtaState.value eta)
    (EtaState.trafficDelay eta) (EtaState.isOffRoute eta)
    (EtaState.distanceToRoute eta) (Some now).

(** The least time between two updates in each mode, in milliseconds. *)
Definition updateInterval (mode : UpdateFrequency) : Z :=
  match mode with
  | frequent => 10000
  | normal => 30000
  end.

(** ** services/navigationService.ts: the helpers of getDirections *)

(** [instruction.replace(/<[^>]*>/g, '')].  A match starts at a [<] that has
    a [>] somewhere after it and runs to the first such [>]; matches are
    taken from left to right.  [inTag] says that the scan is inside a
    match.  The text is a string of bytes (UTF-8); [<] and [>] are single
    bytes that occur in no other character. *)
Definition isGreaterThan (c : ascii) : bool := Ascii.eqb c ">".
Definition isLessThan (c : ascii) : bool := Ascii.eqb c "<".

Fixpoint hasGreaterThan (s : string) : bool :=
  match s with
  | EmptyString => false
  | String c rest => isGreaterThan c || hasGreaterThan rest
  end.

Fixpoint stripFrom (inTag : bool) (s : string) : string :=
  match s with
  | EmptyString => EmptyString
  | String c rest =>
      if inTag
      then if isGreaterThan c then stripFrom false rest else stripFrom true rest
      else if isLessThan c && hasGreaterThan rest then stripFrom true rest
           else String c (stripFrom false rest)
  end.

Definition stripTags (s : string) : string := stripFrom false s.

(** [x % y] on numbers: the remainder has the sign of the dividend. *)
Definition Qtruncate (q : Q) : Z :=
  if Qlt_bool q 0 then Qceiling q else Qfloor q.

Definition remainder (x y : Q) : Q := (x - y * inject_Z (Qtruncate (x / y)))%Q.

(** *** Doubles

    [formatDistance] computes on doubles, and its text depends on how its
    two products round: a number is rounded to the nearest double, ties
    going to the even significand; doubles have 53 bits, are subnormal
    below 2^-1022 (multiples of 2^-1074), and overflow to an infinity from
    2^1024 on. *)

(** The integer nearest to [x], ties going to the even one. *)
Definition roundHalfEven (x : Q) : Z :=
  let f := Qfloor x in
  match Qcompare (x - inject_Z f) (1 # 2) with
  | Lt => f
  | Gt => f + 1
  | Eq => if Z.even f then f else f + 1
  end.

(** [floor (log2 x)] of a positive [x]. *)
Definition binade (x : Q) : Z :=
  let l := Z.log2 (Qnum x) - Z.log2 (Z.pos (Qden x)) in
  if Qlt_bool x (2 ^ l) then l - 1 else l.

(** The exponent of the last bit of the doubles around a positive [a]. *)
Definition exponentOf (a : Q) : Z := Z.max (binade a - 52) (-1074).

(** The double nearest to [x], were there no largest double.  It is the
    value of a decimal literal, too. *)
Definition nearestDouble (x : Q) : Q :=
  if Qeq_bool x 0 then 0%Q
  else
    let a := Qabs x in
    let e := exponentOf a in
    let r := (inject_Z (roundHalfEven (a / 2 ^ e)) * 2 ^ e)%Q in
    if Qlt_bool x 0 then (- r)%Q else r.

(** The result of an operation on doubles whose exact result is [x]. *)
Definition toDouble (x : Q) : number :=
  let r := nearestDouble x in
  if Qle_bool (2 ^ 1024) r then Infinity
  else if Qle_bool r (- 2 ^ 1024) then NegInfinity
  else Num r.

(** An integer inside a template literal: its digits below 1e21, and the
    text of the number from there on. *)
Definition showInteger (numberText : Q -> string) (z : Z) : string :=
  if Z.abs z <? 10 ^ 21 then showZ z else numberText (inject_Z z).

(** [x.toFixed(1)]: below 1e21 the nearest number of tenths, halves going
    away from zero, written with one decimal; the text of the number from
    there on. *)
Definition toFixed1 (numberText : Q -> string) (x : Q) : string :=
  if Qle_bool (inject_Z (10 ^ 21)) (Qabs x) then numberText x
  else
    let tenths := Qfloor (Qabs x * 10 + (1 # 2)) in
    ((if Qlt_bool x 0 then "-" else "") ++
     showZ (tenths / 10) ++ "." ++ showZ (tenths mod 10))%string.

(** [numberText] is the text of a number inside a template literal.  The
    literals [0.000621371] and [0.1] are doubles; [5280] is exact. *)
Definition formatDistance (numberText : Q -> string) (meters : Q) : string :=
  match toDouble (meters * nearestDouble (621371 # 1000000000)) with
  | Num miles =>
      if Qlt_bool miles (nearestDouble (1 # 10))
      then
        match toDouble (miles * 5280) with
        | Num feet => (showInteger numberText (Math_round feet) ++ " ft")%string
        | Infinity => "Infinity ft"%string
        | NegInfinity => "-Infinity ft"%string
        | NaN => "NaN ft"%string
        end
      else (toFixed1 numberText miles ++ " mi")%string
  | Infinity => "Infinity mi"%string
  | NegInfinity => "-Infinity ft"%string
  | NaN => "NaN mi"%string
  end.

Definition formatDuration (seconds : Q) : string :=
  let hours := Qfloor (seconds / 3600) in
  let minutes := Qfloor (remainder seconds 3600 / 60) in
  if 0 <? hours
  then (showZ hours ++ " hr " ++ showZ minutes ++ " min")%string
  else (showZ minutes ++ " min")%string.

(** Two distances as the code prints them: at 50 000 000 m the exact product
    is 31068.55 and the double product lies just below it. *)
Example formatDistance_of_doubles numberText :
  formatDistance numberText 50000000 = "31068.5 mi"%string /\
  formatDistance numberText 100 = "328 ft"%string /\
  formatDistance numberText 0 = "0 ft"%string.
Proof. repeat split; vm_compute; reflexivity. Qed.

(** ** services/navigationService.ts: the requests

    What a request depends on outside the program is a parameter: the API
    key of the build, the text of a number inside a URL, the encoding of
    URL parameters, and what [fetch] settles to.  A response body is taken
    as its interface in the source types it. *)

Inductive Settled (E A : Type) : Type :=
| Resolved (value : A)
| Rejected (reason : E).

Arguments Resolved {E A} value.
Arguments Rejected {E A} reason.

(** What can be thrown besides a [NavigationError]: another [Error], a
    string, or some other value. *)
Inductive Foreign : Type :=
| ErrorObject (name message : string)
| ThrownString (text : string)
| ThrownValue.

Module NavigationError.
Inductive Details : Type :=
| httpStatus (status : Z)          (* [{ status: response.status }] *)
| apiStatus (status : string)      (* [{ status: data.status }] *)
| cause (error : Foreign)          (* [{ cause: error }] *)
| originalError (error : Foreign). (* [{ originalError: error }] *)

Record t : Type := mk {
  message : string;
  code : string;
  details : option Details
}.
End NavigationError.

Inductive Thrown : Type :=
| NavigationErrorOf (error : NavigationError.t)
| ForeignOf (error : Foreign).

Module Response.
Record t (Data : Type) : Type := mk {
  ok : bool;
  status : Z;
  json : Settled Foreign Data
}.
Arguments mk {Data} ok status json.
Arguments ok {Data} t.
Arguments status {Data} t.
Arguments json {Data} t.
End Response.

Module ApiStep.
Record t : Type := mk {
  distance : Measure.t;
  duration : Measure.t;
  html_instructions : string;
  maneuver : option string;
  points : JsString                (* [polyline.points] *)
}.
End ApiStep.

Module ApiLeg.
Record t : Type := mk {
  distance : Measure.t;
  duration : Measure.t;
  steps : list ApiStep.t
}.
End ApiLeg.

Module ApiRoute.
Record t : Type := mk {
  legs : list ApiLeg.t;
  overview_polyline : JsString     (* [overview_polyline.points] *);
  warnings : option (list string)
}.
End ApiRoute.

Module GoogleDirectionsResponse.
Record t : Type := mk {
  routes : option (list ApiRoute.t);
  status : string;
  error_message : option string
}.
End GoogleDirectionsResponse.

Module GooglePlaceDetailsResponse.
Record t : Type := mk {
  lat : Q;                         (* [result.geometry.location.lat] *)
  lng : Q;
  name : string;
  formatted_address : string;
  status : string;
  error_message : option string
}.
End GooglePlaceDetailsResponse.

Module Prediction.
Record t : Type := mk {
  place_id : string;
  main_text : string;              (* [structured_formatting.main_text] *)
  secondary_text : string;
  types : option (list string)
}.
End Prediction.

Module AutocompleteResponse.
Record t : Type := mk {
  predictions : option (list Prediction.t);
  status : string;
  error_message : option string
}.
End AutocompleteResponse.

Module SearchResult.
(** [location] is always [null] in what [getPlaceSuggestions] builds. *)
Record t : Type := mk {
  placeId : string;
  name : string;
  address : string;
  type : option string
}.
End SearchResult.

(** A route as [getDirections] builds it: the fields the store reads, and
    the two it does not. *)
Module FetchedRoute.
Record t : Type := mk {
  route : Route.t;
  legsCoordinates : list (list Coordinate);
  warnings : option (list string)
}.
End FetchedRoute.

Record Network : Type := mkNetwork {
  GOOGLE_MAPS_API_KEY : option string;
  (** a number inside a template string *)
  numberText : Q -> string;
  (** [new URLSearchParams(...).toString()] *)
  paramsText : list (string * string) -> string;
  (** what reading a property of [undefined] throws *)
  typeError : Foreign;
  (** [fetch] of a URL at each of the three endpoints; the autocomplete
      request is aborted after a time-out *)
  fetchDirections : string -> Settled Foreign (Response.t GoogleDirectionsResponse.t);
  fetchPlaceDetails : string -> Settled Foreign (Response.t GooglePlaceDetailsResponse.t);
  fetchAutocomplete : string -> Q -> Settled Foreign (Response.t AutocompleteResponse.t)
}.

Definition BASE_URL : string := "https://maps.googleapis.com/maps/api".

(** [a || b] on texts. *)
Definition orText (a : option string) (b : string) : string :=
  match a with
  | Some text => if String.eqb text "" then b else text
  | None => b
  end.

(** The elements of an array none of which is [undefined]. *)
Fixpoint allDefined {A} (l : list (option A)) : option (list A) :=
  match l with
  | [] => Some []
  | Some a :: rest =>
      match allDefined rest with
      | Some rest => Some (a :: rest)
      | None => None
      end
  | None :: _ => None
  end.

(** The handler of a [catch] that lets a [NavigationError] through and
    wraps anything else. *)
Definition catchForeign {A} (wrap : Foreign -> NavigationError.t)
    (attempt : Settled Thrown A) : Settled Thrown A :=
  match attempt with
  | Rejected (ForeignOf error) => Rejected (NavigationErrorOf (wrap error))
  | _ => attempt
  end.

Definition throw {A} (message code : string)
    (details : option NavigationError.Details) : Settled Thrown A :=
  Rejected (NavigationErrorOf (NavigationError.mk message code details)).

Section Service.
Variable net : Network.

Definition coordinatesText (l : Location.t) : string :=
  (numberText net (Location.latitude l) ++ "," ++
   numberText net (Location.longitude l))%string.

Definition directionsUrl (key : string) (origin destination : Location.t)
    (intermediateWaypoints : list Location.t) (alternatives : bool) : string :=
  let waypointsParam :=
    String.concat "|"
      (map (fun wp => ("via:" ++ coordinatesText wp)%string)
         intermediateWaypoints) in
  (BASE_URL ++ "/directions/json?" ++
   "origin=" ++ coordinatesText origin ++
   "&destination=" ++ coordinatesText destination ++
   (if String.eqb waypointsParam "" then ""
    else "&waypoints=" ++ waypointsParam) ++
   "&alternatives=" ++ (if alternatives then "true" else "false") ++
   "&mode=driving" ++
   "&departure_time=now" ++
   "&traffic_model=best_guess" ++
   "&optimize=true" ++
   "&key=" ++ key)%string.

(** The step objects of [allSteps.map(step => ...)]. *)
Definition toRouteStep (step : ApiStep.t) : RouteStep.t :=
  RouteStep.mk (ApiStep.distance step) (ApiStep.duration step)
    (stripTags (ApiStep.html_instructions step))
    (ApiStep.maneuver step) (ApiStep.points step).

(** The route objects of [data.routes.map(route => ...)]. *)
Definition toRoute (route : ApiRoute.t) : FetchedRoute.t :=
  let totalDistance :=
    fold_left (fun sum leg => (sum + Measure.value (ApiLeg.distance leg))%Q)
      (ApiRoute.legs route) 0%Q in
  let totalDuration :=
    fold_left (fun sum leg => (sum + Measure.value (ApiLeg.duration leg))%Q)
      (ApiRoute.legs route) 0%Q in
  let allSteps := flat_map ApiLeg.steps (ApiRoute.legs route) in
  let legsCoordinates :=
    map (fun leg =>
           let legPolyline := concat (map ApiStep.points (ApiLeg.steps leg)) in
           decodePolyline (Str legPolyline))
      (ApiRoute.legs route) in
  FetchedRoute.mk
    (Route.mk
       (Some (Measure.mk (Some (formatDistance (numberText net) totalDistance))
                totalDistance))
       (Some (Measure.mk (Some (formatDuration totalDuration)) totalDuration))
       (Some (map toRouteStep allSteps))
       (Some (ApiRoute.overview_polyline route)))
    legsCoordinates
    (ApiRoute.warnings route).

Definition getDirections (origin : Location.t)
    (waypoints : list (option Location.t)) (alternatives : bool)
  : Settled Thrown (list FetchedRoute.t) :=
  if negb (truthyText (GOOGLE_MAPS_API_KEY net))
  then throw "Google Maps API key is missing" "CONFIGURATION_ERROR" None
  else
    catchForeign
      (fun error =>
         NavigationError.mk "Failed to get directions" "UNKNOWN_ERROR"
           (Some (NavigationError.cause error)))
      match waypoints with
      | [] => Resolved []
      | first :: others =>
          let destination := last others first in
          let intermediateWaypoints := removelast waypoints in
          match allDefined intermediateWaypoints, destination with
          | Some intermediateWaypoints, Some destination =>
              match
                fetchDirections net
                  (directionsUrl (orText (GOOGLE_MAPS_API_KEY net) "")
                     origin destination intermediateWaypoints alternatives)
              with
              | Rejected error => Rejected (ForeignOf error)
              | Resolved response =>
                  if negb (Response.ok response)
                  then
                    throw "Failed to fetch directions" "NETWORK_ERROR"
                      (Some (NavigationError.httpStatus (Response.status response)))
                  else
                    match Response.json response with
                    | Rejected error => Rejected (ForeignOf error)
                    | Resolved data =>
                        let status := GoogleDirectionsResponse.status data in
                        if String.eqb status "ZERO_RESULTS"
                        then
                          throw "No routes found between the selected locations"
                            "NO_ROUTES" None
                        else if negb (String.eqb status "OK")
                        then
                          throw
                            (orText (GoogleDirectionsResponse.error_message data)
                               ("Directions API error: " ++ status)%string)
                            "API_ERROR"
                            (Some (NavigationError.apiStatus status))
                        else
                          match GoogleDirectionsResponse.routes data with
                          | None | Some [] => throw "No routes found" "NO_ROUTES" None
                          | Some routes => Resolved (map toRoute routes)
                          end
                    end
              end
          | _, _ => Rejected (ForeignOf (typeError net))
          end
      end.

Definition getPlaceDetails (placeId : string) : Settled Thrown Location.t :=
  if negb (truthyText (GOOGLE_MAPS_API_KEY net))
  then throw "Google Maps API key is missing" "CONFIGURATION_ERROR" None
  else
    catchForeign
      (fun error =>
         NavigationError.mk "Error fetching place details" "UNKNOWN_ERROR"
           (Some (NavigationError.originalError error)))
      match
        fetchPlaceDetails net
          (BASE_URL ++ "/place/details/json?" ++
           "place_id=" ++ placeId ++
           "&fields=geometry,name,formatted_address" ++
           "&key=" ++ orText (GOOGLE_MAPS_API_KEY net) "")%string
      with
      | Rejected error => Rejected (ForeignOf error)
      | Resolved response =>
          if negb (Response.ok response)
          then
            throw "Failed to fetch place details" "NETWORK_ERROR"
              (Some (NavigationError.httpStatus (Response.status response)))
          else
            match Response.json response with
            | Rejected error => Rejected (ForeignOf error)
            | Resolved data =>
                let status := GooglePlaceDetailsResponse.status data in
                if negb (String.eqb status "OK")
                then
                  throw
                    (orText (GooglePlaceDetailsResponse.error_message data)
                       ("Places API error: " ++ status)%string)
                    "API_ERROR"
                    (Some (NavigationError.apiStatus status))
                else
                  Resolved
                    (Location.mk
                       (GooglePlaceDetailsResponse.lat data)
                       (GooglePlaceDetailsResponse.lng data)
                       0%Q (Some 0%Q) (Some 0%Q) (Some 0%Q) None None)
            end
      end.

Definition toSearchResult (prediction : Prediction.t) : SearchResult.t :=
  SearchResult.mk (Prediction.place_id prediction)
    (Prediction.main_text prediction)
    (Prediction.secondary_text prediction)
    match Prediction.types prediction with
    | Some types => hd_error types
    | None => None
    end.

Definition getPlaceSuggestions (query : string) (location : option Location.t)
    (radius timeout : Q) : Settled Thrown (list SearchResult.t) :=
  if negb (truthyText (GOOGLE_MAPS_API_KEY net))
  then throw "Google Maps API key is missing" "CONFIGURATION_ERROR" None
  else
    catchForeign
      (fun error =>
         if match error with
            | ErrorObject name _ => String.eqb name "AbortError"
            | _ => false
            end
         then
           NavigationError.mk "Place suggestions request timed out"
             "TIMEOUT_ERROR" None
         else
           NavigationError.mk "Error getting place suggestions"
             "UNKNOWN_ERROR" (Some (NavigationError.originalError error)))
      (let params :=
         [("input", query);
          ("key", orText (GOOGLE_MAPS_API_KEY net) "");
          ("types", "geocode|establishment");
          ("components", "country:us");
          ("language", "en")]%string in
       let params :=
         match location with
         | Some location => params ++ [("location"%string, coordinatesText location)]
         | None => params
         end in
       let params := params ++ [("radius"%string, numberText net radius)] in
       match
         fetchAutocomplete net
           (BASE_URL ++ "/place/autocomplete/json?" ++ paramsText net params)%string
           timeout
       with
       | Rejected error => Rejected (ForeignOf error)
       | Resolved response =>
           if negb (Response.ok response)
           then
             throw "Failed to get place suggestions" "NETWORK_ERROR"
               (Some (NavigationError.httpStatus (Response.status response)))
           else
             match Response.json response with
             | Rejected error => Rejected (ForeignOf error)
             | Resolved data =>
                 let status := AutocompleteResponse.status data in
                 if negb (String.eqb status "OK")
                    && negb (String.eqb status "ZERO_RESULTS")
                 then
                   throw
                     (orText (AutocompleteResponse.error_message data)
                        "Failed to get place suggestions")
                     "API_ERROR"
                     (Some (NavigationError.apiStatus status))
                 else
                   Resolved
                     (map toSearchResult
                        match AutocompleteResponse.predictions data with
                        | Some predictions => predictions
                        | None => []
                        end)
             end
       end).

End Service.

(** ** hooks/useErrorHandler.ts and the components that dispatch

    An asynchronous function is given by the dispatches it makes, in
    bursts: the dispatches of one burst run with no [await] between them,
    and an [await] separates a burst from the next.  What is awaited is
    settled by the parameters ([Network], the outcome of the cache
    write). *)

Definition Bursts : Type := list (list Action).

(** [error] is of type [unknown]. *)
Definition handleError (error : Thrown) (customMessage : option string)
  : list Action :=
  let errorMessage := orText customMessage "An unexpected error occurred" in
  let errorMessage :=
    match error with
    | NavigationErrorOf error => NavigationError.message error
    | ForeignOf (ErrorObject _ message) => message
    | ForeignOf (ThrownString text) => text
    | ForeignOf ThrownValue => errorMessage
    end in
  [setError (Some errorMessage); setLoading false].

(** [operation]: what the operation dispatches before its first [await],
    the bursts that follow, and how it settles. *)
Definition withErrorHandling {A}
    (operation : list Action * Bursts * Settled Thrown A)
    (customErrorMessage : option string) : Bursts * option A :=
  let '(first, others, outcome) := operation in
  match outcome with
  | Resolved value =>
      (([setLoading true; setError None] ++ first) :: others
         ++ [[setLoading false]],
       Some value)
  | Rejected error =>
      (([setLoading true; setError None] ++ first) :: others
         ++ [handleError error customErrorMessage ++ [setLoading false]],
       None)
  end.

(** [route?.polyline && route?.steps] *)
Definition usable (r : Route.t) : bool :=
  truthyString (Route.polyline r) && isSome (Route.steps r).

Module NavigationScreen.

(** [handleLocationSelect] *)
Definition handleLocationSelect (waypoints : list Waypoint.t)
    (location : Location.t) (name : string) : Action :=
  addWaypoint
    (Waypoint.mk (Some location) (Some name) (Z.of_nat (length waypoints))).

(** [fetchRoute] of the component, the one [handleRetry] calls. *)
Definition fetchRoute (net : Network) (setItem : Settled Foreign unit)
    (currentLocation : option Location.t) (waypoints : list Waypoint.t)
  : Bursts :=
  match currentLocation, waypoints with
  | Some currentLocation, _ :: _ =>
      let failed :=
        [setError (Some "Failed to fetch route. Please try again."%string);
         setLoading false] in
      match
        getDirections net currentLocation (map Waypoint.location waypoints) true
      with
      | Rejected _ => [[setLoading true]; failed]
      | Resolved [] => [[setLoading true]; failed]
      | Resolved (mainRoute :: alternatives) =>
          let mainRoute := FetchedRoute.route mainRoute in
          let alternatives := map FetchedRoute.route alternatives in
          if negb (truthyString (Route.polyline mainRoute))
             || negb (isSome (Route.steps mainRoute))
          then [[setLoading true]; failed]
          else
            let shown :=
              [setRoute (Some mainRoute)] ++
              match alternatives with
              | [] => []
              | _ => [setAlternativeRoutes (filter usable alternatives)]
              end ++
              [setNavigationCardVisible true; setCardState expanded] in
            match setItem with
            | Resolved _ => [[setLoading true]; shown; [setLoading false]]
            | Rejected _ => [[setLoading true]; shown; failed]
            end
      end
  | _, _ => []
  end.

(** [handleRetry] *)
Definition handleRetry (net : Network) (setItem : Settled Foreign unit)
    (currentLocation : option Location.t) (waypoints : list Waypoint.t)
  : Bursts :=
  match fetchRoute net setItem currentLocation waypoints with
  | [] => [[setError None]]
  | first :: others => ([setError None] ++ first) :: others
  end.

(** What the cache holds once parsed. *)
Record Cache : Type := mkCache {
  cachedRoute : option Route.t;
  cachedAlternativeRoutes : option (list Route.t);
  timestamp : Z
}.

(** [loadCachedRoute]: [getItem] gives nothing, or a text that parses or
    does not; [sameWaypoints] is the comparison of the two JSON texts. *)
Definition loadCachedRoute (now : Z) (cachedData : option (option Cache))
    (sameWaypoints : bool) : Bursts :=
  match cachedData with
  | Some (Some cache) =>
      let cacheAge := now - timestamp cache in
      if (cacheAge <? 3600000) && sameWaypoints
      then
        [[setRoute (cachedRoute cache)] ++
         match cachedAlternativeRoutes cache with
         | Some alternativeRoutes => [setAlternativeRoutes alternativeRoutes]
         | None => []
         end]
      else []
  | _ => []
  end.

(** [fetchRoute] of the effect that runs when the location or the
    waypoints change.  Its cache write is awaited and its failure caught,
    so it only separates two bursts. *)
Definition fetchRouteOnChange (net : Network)
    (currentLocation : option Location.t) (waypoints : list Waypoint.t)
  : Bursts :=
  match currentLocation, waypoints with
  | Some currentLocation, _ :: _ =>
      fst (withErrorHandling
             (let first := [setLoading true; setError None] in
              match
                getDirections net currentLocation
                  (map Waypoint.location waypoints) true
              with
              | Rejected error => (first, [], Rejected error)
              | Resolved [] =>
                  (first, [],
                   Rejected (ForeignOf (ErrorObject "Error" "No routes found")))
              | Resolved (main :: others) =>
                  (first,
                   [[setRoute (Some (FetchedRoute.route main))] ++
                    match others with
                    | [] => []
                    | _ => [setAlternativeRoutes (map FetchedRoute.route others)]
                    end],
                   Resolved tt)
              end)
             (Some "Error fetching route"%string))
  | _, _ => []
  end.

End NavigationScreen.

Module RouteSelector.

(** The routes the selector shows; nothing when it renders [null]. *)
Definition routes (s : NavigationState) : option (list Route.t) :=
  match route s, alternativeRoutes s with
  | Some route, Some alternativeRoutes =>
      match filter usable (route :: alternativeRoutes) with
      | [] => None
      | routes => Some routes
      end
  | _, _ => None
  end.

(** [handleRouteSelect]: the action dispatched once the animation has
    run, if any. *)
Definition handleRouteSelect (isSwitching : bool) (routes : list Route.t)
    (index : Z) : option Action :=
  if isSwitching then None
  else if (index <? 0) || (Z.of_nat (length routes) <=? index) then None
  else
    match nth_error routes (Z.to_nat index) with
    | None => None
    | Some selectedRoute =>
        if negb (truthyString (Route.polyline selectedRoute))
           || negb (isSome (Route.steps selectedRoute))
        then None
        else Some (setSelectedRoute (Num (inject_Z index)))
    end.

End RouteSelector.

Module SearchBar.

(** [handlePlaceSelect]: [place_id], [description] and [main_text] are read
    off [data].  The location that [getPlaceDetails] resolves to is an
    object, so the test [!location] never holds. *)
Definition handlePlaceSelect (net : Network)
    (place_id description main_text : option string)
    (currentLocation : option Location.t) (waypoints : list Waypoint.t)
  : Bursts :=
  if negb (truthyText (GOOGLE_MAPS_API_KEY net))
  then [handleError (ForeignOf (ThrownString "Google Maps API key is missing")) None]
  else if negb (truthyText place_id)
  then [handleError (ForeignOf (ThrownString "Invalid place selected")) None]
  else
    let place_id := orText place_id "" in
    if String.eqb place_id "current_location" && isSome currentLocation
    then
      [[addWaypoint
          (Waypoint.mk currentLocation (Some "Current Location"%string)
             (Z.of_nat (length waypoints)))]]
    else
      fst (withErrorHandling
             match getPlaceDetails net place_id with
             | Rejected error => ([], [], Rejected error)
             | Resolved location =>
                 ([],
                  [[addWaypoint
                      (Waypoint.mk (Some location)
                         (Some (orText description
                                  (orText main_text "Selected location")))
                         (Z.of_nat (length waypoints)))]],
                  Resolved tt)
             end
             (Some "Error selecting destination"%string)).

(** [handleClear] *)
Definition handleClear : list Action := [setError None; setLoading false].

End SearchBar.

(** The actions of a trace, whatever environment each dispatch reads. *)
Definition dispatched (trace : list (Env * Action)) : list Action :=
  map snd trace.

(** *** Tags in a text *)

(** The text holds a tag: a [<] with a [>] somewhere after it. *)
Definition hasTag (s : string) : Prop :=
  exists a b c, s = (a ++ "<" ++ b ++ ">" ++ c)%string.

Fixpoint hasLessThan (s : string) : bool :=
  match s with
  | EmptyString => false
  | String c rest => isLessThan c || hasLessThan rest
  end.

(** The text that [fetchRoute] reports on failure. *)
Definition fetchFailed : string := "Failed to fetch route. Please try again.".

(** *** The bursts that set routes

    The four places of the components that dispatch [setRoute] or
    [setAlternativeRoutes]. *)
Inductive RouteBursts : Bursts -> Prop :=
| bursts_fetchRoute net setItem currentLocation waypoints :
    RouteBursts (NavigationScreen.fetchRoute net setItem currentLocation waypoints)
| bursts_handleRetry net setItem currentLocation waypoints :
    RouteBursts (NavigationScreen.handleRetry net setItem currentLocation waypoints)
| bursts_loadCachedRoute now cachedData sameWaypoints :
    RouteBursts (NavigationScreen.loadCachedRoute now cachedData sameWaypoints)
| bursts_fetchRouteOnChange net currentLocation waypoints :
    RouteBursts (NavigationScreen.fetchRouteOnChange net currentLocation waypoints).

(** The codes of the errors that [getDirections] and [getPlaceDetails]
    construct. *)
Definition serviceCodes : list string :=
  ["CONFIGURATION_ERROR"; "NETWORK_ERROR"; "NO_ROUTES"; "API_ERROR";
   "UNKNOWN_ERROR"]%string.

(** *** Fixtures: waypoints, and a network that answers with two routes *)

Definition depot : Waypoint.t :=
  Waypoint.mk (Some sampleLocation) (Some "Depot"%string) 0.

Definition harbour : Waypoint.t :=
  Waypoint.mk (Some originLocation) (Some "Harbour"%string) 1.

Definition mill : Waypoint.t :=
  Waypoint.mk (Some sampleLocation) (Some "Mill"%string) 2.

Definition sampleWaypoints : list Waypoint.t := [depot; harbour; mill].

(** The store once the three waypoints are added. *)
Definition waypointState : NavigationState :=
  run initialState
    [(testEnv, addWaypoint depot);
     (testEnv, addWaypoint harbour);
     (testEnv, addWaypoint mill)].

Definition sampleApiStep : ApiStep.t :=
  ApiStep.mk (Measure.mk (Some "0.7 mi"%string) 1110)
    (Measure.mk (Some "2 min"%string) 120)
    "Head <b>north</b> on <b>Main St</b>" (Some "straight"%string)
    (codeUnits "??o}@?").

Definition sampleApiLeg : ApiLeg.t :=
  ApiLeg.mk (Measure.mk (Some "0.7 mi"%string) 1110)
    (Measure.mk (Some "2 min"%string) 120) [sampleApiStep].

Definition sampleApiRoute : ApiRoute.t :=
  ApiRoute.mk [sampleApiLeg] (codeUnits "??o}@?") None.

Definition otherApiRoute : ApiRoute.t :=
  ApiRoute.mk [sampleApiLeg; sampleApiLeg] referencePolyline
    (Some ["Toll road"%string]).

Definition sampleDirections : GoogleDirectionsResponse.t :=
  GoogleDirectionsResponse.mk (Some [sampleApiRoute; otherApiRoute]) "OK" None.

Definition samplePlace : GooglePlaceDetailsResponse.t :=
  GooglePlaceDetailsResponse.mk (385 # 10) (-1202 # 10) "Depot"
    "1 Main St" "OK" None.

Definition testNetwork : Network := {|
  GOOGLE_MAPS_API_KEY := Some "test-key"%string;
  numberText := fun q => showZ (Qfloor q);
  paramsText := fun params =>
    String.concat "&" (map (fun p => (fst p ++ "=" ++ snd p)%string) params);
  typeError := ErrorObject "TypeError" "undefined is not an object";
  fetchDirections := fun _ =>
    Resolved (Response.mk true 200 (Resolved sampleDirections));
  fetchPlaceDetails := fun _ =>
    Resolved (Response.mk true 200 (Resolved samplePlace));
  fetchAutocomplete := fun _ _ => Rejected (ErrorObject "AbortError" "Aborted")
|}.

(** [testNetwork] without its key. *)
Definition keylessNetwork : Network :=
  mkNetwork None (numberText testNetwork) (paramsText testNetwork)
    (typeError testNetwork) (fetchDirections testNetwork)
    (fetchPlaceDetails testNetwork) (fetchAutocomplete testNetwork).

(** * Properties *)

(** ** The decoding loop *)

Lemma decodeLoop_step rest lat lng coordinates :
  decodeLoop rest lat lng coordinates =
  match rest with
  | [] => (coordinates, Normal tt)
  | _ =>
      match readValue rest 0 0 with
      | Throw e => (coordinates, Throw e)
      | Normal (result1, rest1) =>
          match readValue rest1 0 0 with
          | Throw e => (coordinates, Throw e)
          | Normal (result2, rest2) =>
              decodeLoop rest2 (lat + unzigzag result1) (lng + unzigzag result2)
                (pushIfValid coordinates (lat + unzigzag result1)
                   (lng + unzigzag result2))
          end
      end
  end.
Proof.
  destruct rest as [|c cs]; [now simp decodeLoop|].
  simp decodeLoop.
  destruct (inspect (readValue (c :: cs) 0 0)) as [[[result1 rest1]|e] H1];
    simp decodeLoop;
    (symmetry; etransitivity; [rewrite H1; reflexivity | symmetry]);
    [|reflexivity].
  destruct (inspect (readValue rest1 0 0)) as [[[result2 rest2]|e] H2];
    simp decodeLoop;
    (symmetry; etransitivity; [rewrite H2; reflexivity | symmetry]);
    reflexivity.
Qed.

Lemma decodeLoop_nonempty rest lat lng coordinates :
  rest <> [] ->
  decodeLoop rest lat lng coordinates =
  match readValue rest 0 0 with
  | Throw e => (coordinates, Throw e)
  | Normal (result1, rest1) =>
      match readValue rest1 0 0 with
      | Throw e => (coordinates, Throw e)
      | Normal (result2, rest2) =>
          decodeLoop rest2 (lat + unzigzag result1) (lng + unzigzag result2)
            (pushIfValid coordinates (lat + unzigzag result1)
               (lng + unzigzag result2))
      end
  end.
Proof.
  intros Hne. rewrite decodeLoop_step. destruct rest; [congruence | reflexivity].
Qed.

Lemma decodePolyline_Str s :
  decodePolyline (Str s) = fst (decodeLoop s 0 0 []).
Proof.
  unfold decodePolyline. destruct s as [|c cs]; [now simp decodeLoop|].
  destruct (decodeLoop (c :: cs) 0 0 []) as [coordinates [[]|e]]; reflexivity.
Qed.

Lemma readValue_Throw rest : forall shift result,
  Forall continues rest ->
  readValue rest shift result = Throw "Unexpected end of polyline".
Proof.
  induction rest as [|c rest IH]; intros shift result H; simpl; [reflexivity|].
  inversion H as [|? ? Hc Hrest]; subst. unfold continues in Hc.
  destruct (Z.geb_spec (c - 63) 32); [now apply IH | lia].
Qed.

Lemma readValue_Throw_inv rest : forall shift result e,
  readValue rest shift result = Throw e -> Forall continues rest.
Proof.
  induction rest as [|c rest IH]; intros shift result e H; simpl in H.
  - constructor.
  - destruct (Z.geb_spec (c - 63) 32); [|discriminate].
    constructor; [unfold continues; lia | eauto].
Qed.

Lemma readValue_Normal_inv rest : forall shift result v rest',
  readValue rest shift result = Normal (v, rest') ->
  exists val, completeValue val /\ rest = val ++ rest'.
Proof.
  induction rest as [|c rest IH]; intros shift result v rest' H; simpl in H.
  - discriminate.
  - destruct (Z.geb_spec (c - 63) 32) as [Hc|Hc].
    + apply IH in H as (val & (init & last & -> & Hinit & Hlast) & ->).
      exists (c :: init ++ [last]). split; [|reflexivity].
      exists (c :: init), last. split; [reflexivity|]. split; [|assumption].
      constructor; [unfold continues; lia | assumption].
    + injection H as _ <-. exists [c]. split; [|reflexivity].
      exists [], c. split; [reflexivity|]. split; [constructor|].
      unfold continues. lia.
Qed.

Lemma readValue_complete v : completeValue v ->
  forall shift result, exists res,
    forall tail, readValue (v ++ tail) shift result = Normal (res, tail).
Proof.
  intros (init & last & -> & Hinit & Hlast).
  induction Hinit as [|c init Hc Hinit IH]; intros shift result; simpl.
  - unfold continues in Hlast.
    destruct (Z.geb_spec (last - 63) 32); [lia|]. eexists. reflexivity.
  - unfold continues in Hc.
    destruct (Z.geb_spec (c - 63) 32); [apply IH | lia].
Qed.

Lemma completeValue_nonempty v : completeValue v -> v <> [].
Proof. intros (init & last & -> & _). now destruct init. Qed.

(** Over a truncated point the loop throws at once and leaves [coordinates]
    as it was. *)
Lemma decodeLoop_truncated t lat lng coordinates :
  truncatedPoint t ->
  decodeLoop t lat lng coordinates =
  (coordinates, Throw "Unexpected end of polyline").
Proof.
  intros [Hne [Hall | (v & t' & -> & Hv & Hall)]];
    rewrite decodeLoop_nonempty by assumption.
  - now rewrite readValue_Throw.
  - destruct (readValue_complete v Hv 0 0) as [res Hres].
    rewrite Hres. now rewrite readValue_Throw.
Qed.

(** Over whole points the loop runs to the end of them, and what follows
    them cannot change what it did there. *)
Lemma decodeLoop_wholePoints p : wholePoints p ->
  forall t lat lng coordinates, exists lat' lng' coordinates',
    decodeLoop p lat lng coordinates = (coordinates', Normal tt) /\
    decodeLoop (p ++ t) lat lng coordinates = decodeLoop t lat' lng' coordinates'.
Proof.
  induction 1 as [|v1 v2 p Hv1 Hv2 Hp IH]; intros t lat lng coordinates.
  - exists lat, lng, coordinates. split; [now simp decodeLoop | reflexivity].
  - destruct (readValue_complete v1 Hv1 0 0) as [r1 Hr1].
    destruct (readValue_complete v2 Hv2 0 0) as [r2 Hr2].
    destruct (IH t (lat + unzigzag r1) (lng + unzigzag r2)
                (pushIfValid coordinates (lat + unzigzag r1) (lng + unzigzag r2)))
      as (lat' & lng' & coordinates' & Hdone & Hmore).
    exists lat', lng', coordinates'.
    assert (Hne : forall u, v1 ++ u <> []).
    { intros u Hu. apply app_eq_nil in Hu as [Hu _].
      now apply completeValue_nonempty in Hv1. }
    split.
    + rewrite decodeLoop_nonempty by apply Hne. now rewrite Hr1, Hr2.
    + rewrite <- !app_assoc.
      rewrite decodeLoop_nonempty by apply Hne. now rewrite Hr1, Hr2.
Qed.

(** Every string is a run of whole points followed by nothing or by a
    truncated point. *)
Lemma wholePoints_split s :
  exists p t, s = p ++ t /\ wholePoints p /\ (t = [] \/ truncatedPoint t).
Proof.
  remember (length s) as n eqn:Hn. revert s Hn.
  induction n as [n IH] using lt_wf_ind; intros s Hn.
  destruct s as [|c cs].
  { exists [], []. repeat split; [constructor | now left]. }
  destruct (readValue (c :: cs) 0 0) as [[r1 rest1]|e] eqn:E1.
  - pose proof (readValue_shorter _ _ _ _ _ E1) as L1.
    destruct (readValue_Normal_inv _ _ _ _ _ E1) as (v1 & Hv1 & Hs).
    destruct (readValue rest1 0 0) as [[r2 rest2]|e] eqn:E2.
    + pose proof (readValue_shorter _ _ _ _ _ E2) as L2.
      destruct (readValue_Normal_inv _ _ _ _ _ E2) as (v2 & Hv2 & ->).
      destruct (IH (length rest2) ltac:(lia) rest2 eq_refl)
        as (p & t & -> & Hp & Ht).
      exists (v1 ++ v2 ++ p), t. rewrite Hs, <- !app_assoc.
      repeat split; [now constructor | assumption].
    + exists [], (c :: cs). repeat split; [constructor|]. right.
      split; [discriminate|]. right. exists v1, rest1.
      repeat split; eauto using readValue_Throw_inv.
  - exists [], (c :: cs). repeat split; [constructor|]. right.
    split; [discriminate|]. left. eauto using readValue_Throw_inv.
Qed.

Lemma decodePolyline_app_truncated p t :
  wholePoints p -> t = [] \/ truncatedPoint t ->
  decodePolyline (Str (p ++ t)) = decodePolyline (Str p).
Proof.
  intros Hp [-> | Ht]; [now rewrite app_nil_r|].
  rewrite !decodePolyline_Str.
  destruct (decodeLoop_wholePoints p Hp t 0 0 [])
    as (lat' & lng' & coordinates' & -> & ->).
  now rewrite decodeLoop_truncated.
Qed.

(** ** Decoding: the reference string *)

(** The reference string cut inside the longitude of its third point: two
    whole points, then a truncated one. *)
Lemma reference_two_wholePoints : wholePoints (codeUnits "_p~iF~ps|U_ulLnnqC").
Proof.
  apply (wholePoints_cons (codeUnits "_p~iF") (codeUnits "~ps|U")
           (codeUnits "_ulLnnqC")).
  - exists (codeUnits "_p~i"), 70. repeat split.
    + repeat constructor; unfold continues; cbn; lia.
    + unfold continues; cbn; lia.
  - exists (codeUnits "~ps|"), 85. repeat split.
    + repeat constructor; unfold continues; cbn; lia.
    + unfold continues; cbn; lia.
  - apply (wholePoints_cons (codeUnits "_ulL") (codeUnits "nnqC") []).
    + exists (codeUnits "_ul"), 76. repeat split.
      * repeat constructor; unfold continues; cbn; lia.
      * unfold continues; cbn; lia.
    + exists (codeUnits "nnq"), 67. repeat split.
      * repeat constructor; unfold continues; cbn; lia.
      * unfold continues; cbn; lia.
    + constructor.
Qed.

Lemma reference_cut_truncatedPoint : truncatedPoint (codeUnits "_mqNvx").
Proof.
  split; [discriminate|]. right.
  exists (codeUnits "_mqN"), (codeUnits "vx"). repeat split.
  - exists (codeUnits "_mq"), 78. repeat split.
    + repeat constructor; unfold continues; cbn; lia.
    + unfold continues; cbn; lia.
  - repeat constructor; unfold continues; cbn; lia.
Qed.

(** C7 (as amended).  The reference string of the format decodes to three
    coordinates, not two: (38.5, -120.2), (40.7, -120.95) and
    (43.252, -126.453).  They are the running sums of the deltas
    (3850000, -12020000), (220000, -75000), (255200, -550300), each read as
    5-bit chunks, least significant first, zigzag-decoded and scaled by
    1e-5, latitude before longitude; the arithmetic reading of the format
    agrees with [decodePolyline] on it. *)
Theorem decodePolyline_reference :
  decodePolyline (Str referencePolyline) =
  [ mkCoordinate 38.50000 (-120.20000);
    mkCoordinate 40.70000 (-120.95000);
    mkCoordinate 43.25200 (-126.45300) ] /\
  wirePoints 3 referencePolyline 0 0 =
  [ (0 + 3850000, 0 - 12020000);
    (3850000 + 220000, -12020000 - 75000);
    (4070000 + 255200, -12095000 - 550300) ] /\
  wireDecode referencePolyline = decodePolyline (Str referencePolyline).
Proof. repeat split; vm_compute; reflexivity. Qed.

(** C7 as stated fails: the decoded sequence does not consist of exactly
    two coordinates. *)
Lemma decodePolyline_reference_not_two_points :
  ~ exists a b, decodePolyline (Str referencePolyline) = [a; b].
Proof.
  intros (a & b & H). apply (f_equal (@length Coordinate)) in H.
  vm_compute in H. discriminate H.
Qed.

(** ** Route selection *)

Lemma Qlt_bool_iff x y : Qlt_bool x y = true <-> (x < y)%Q.
Proof.
  unfold Qlt_bool. rewrite negb_true_iff. split.
  - intros H. apply Qnot_le_lt. intros Hle.
    apply Qle_bool_iff in Hle. congruence.
  - intros H. destruct (Qle_bool y x) eqn:E; [|reflexivity].
    apply Qle_bool_iff in E. now apply Qlt_not_le in H.
Qed.

Lemma Qlt_bool_false_iff x y : Qlt_bool x y = false <-> (y <= x)%Q.
Proof.
  unfold Qlt_bool. rewrite negb_false_iff. apply Qle_bool_iff.
Qed.

Lemma Selectable_checks r :
  Selectable r <->
  truthyString (Route.polyline r) = true /\ isSome (Route.steps r) = true /\
  truthyText match Route.distance r with
             | Some d => Measure.text d
             | None => None
             end = true /\
  truthyText match Route.duration r with
             | Some d => Measure.text d
             | None => None
             end = true.
Proof.
  destruct r as [distance duration steps polyline]. unfold Selectable. simpl.
  split.
  - intros ((p & -> & Hp) & (st & ->) & (d & t & -> & Ht & Hne)
            & (d' & t' & -> & Ht' & Hne')).
    rewrite Ht, Ht'. destruct p, t, t'; simpl; try congruence. auto.
  - intros (Hp & Hs & Hd & Hu).
    destruct polyline as [[|c p]|]; try discriminate.
    destruct steps as [st|]; try discriminate.
    destruct distance as [[[[|a t]|] v]|]; try discriminate.
    destruct duration as [[[[|a' t']|] v']|]; try discriminate.
    repeat split; simpl; eauto 8; repeat eexists; simpl; eauto; discriminate.
Qed.

Lemma Accepted_unique s payload i j :
  Accepted s payload i -> Accepted s payload j -> i = j.
Proof.
  intros (q & _ & -> & Hq & _) (q' & _ & [= <-] & Hq' & _).
  rewrite Hq in Hq'. unfold Qeq in Hq'. simpl in Hq'. lia.
Qed.

(** [setSelectedRoute] either accepts the payload and makes its two
    assignments, or returns with the draft untouched. *)
Lemma setSelectedRoute_cases env s payload :
  (exists i, Accepted s payload i /\
     reduce_setSelectedRoute env s payload =
     set_lastRouteSwitch (set_selectedRouteIndex s i) (now env)) \/
  ((forall i, ~ Accepted s payload i) /\
     reduce_setSelectedRoute env s payload = s).
Proof.
  unfold reduce_setSelectedRoute, Accepted.
  destruct payload as [q| | |]; simpl;
    try (right; split; [intros i (? & ? & [=] & _) | reflexivity]; fail).
  - destruct (Qlt_bool q 0) eqn:Eneg; simpl.
    { right. split; [|reflexivity].
      intros i (q' & r & [= <-] & Hq & Hi & _).
      apply Qlt_bool_iff in Eneg. rewrite Hq in Eneg.
      unfold Qlt in Eneg. simpl in Eneg. lia. }
    apply Qlt_bool_false_iff in Eneg.
    destruct (availableRoutes s) as [|r0 routes] eqn:Eroutes.
    { right. split; [|reflexivity].
      intros i (q' & r & _ & _ & _ & Hnth & _). now destruct (Z.to_nat i). }
    rewrite <- Eroutes. clear Eroutes. generalize (availableRoutes s) as rs.
    intros rs.
    destruct (Qlt_bool q (inject_Z (Z.of_nat (length rs)))) eqn:Elen; simpl.
    2:{ right. split; [|reflexivity].
        intros i (q' & r & [= <-] & Hq & Hi & Hnth & _).
        apply Qlt_bool_false_iff in Elen. rewrite Hq in Elen.
        assert (Z.to_nat i < length rs)%nat
          by (apply nth_error_Some; congruence).
        unfold Qle in Elen. simpl in Elen. lia. }
    unfold routeAt.
    destruct (Qeq_bool q (inject_Z (Qfloor q))) eqn:Eint; simpl.
    2:{ right. split; [|reflexivity].
        intros i (q' & r & [= <-] & Hq & _).
        assert (Qeq_bool q (inject_Z (Qfloor q)) = true); [|congruence].
        apply Qeq_bool_iff. rewrite Hq at 2. now rewrite Qfloor_Z. }
    apply Qeq_bool_iff in Eint.
    assert (H0 : 0 <= Qfloor q).
    { rewrite <- (Qfloor_Z 0). now apply Qfloor_resp_le. }
    destruct (Z.leb_spec 0 (Qfloor q)); [|lia].
    destruct (nth_error rs (Z.to_nat (Qfloor q))) as [r|] eqn:Enth.
    2:{ right. split; [|reflexivity].
        intros i (q' & r & [= <-] & Hq & _ & Hnth & _).
        rewrite Hq, Qfloor_Z in Enth. congruence. }
    pose proof (Selectable_checks r) as Hsel.
    destruct (truthyString (Route.polyline r)); simpl;
      [destruct (isSome (Route.steps r)); simpl;
       [destruct (truthyText _); simpl; [destruct (truthyText _); simpl|]|]|].
    1:{ left. exists (Qfloor q). split; [|reflexivity].
        exists q, r. split; [reflexivity|]. do 3 (split; [assumption|]).
        apply Hsel. auto. }
    all: right; split; [|reflexivity];
      intros i (q' & r' & [= <-] & Hq & _ & Hnth & Hr');
      rewrite Hq, Qfloor_Z in Enth; rewrite Enth in Hnth;
      injection Hnth as <-; apply Hsel in Hr';
      destruct Hr' as (? & ? & ? & ?); discriminate.
  - right. split; [intros i (? & ? & [=] & _) | now destruct (availableRoutes s)].
Qed.

(** C8 (as amended).  [setSelectedRoute] accepts a payload exactly when it is
    a non-negative integer below the number of available routes and the
    route at that index has a non-empty polyline string, a step list (an
    empty one will do) and non-empty distance and duration texts.  An
    accepted call assigns [selectedRouteIndex] and [lastRouteSwitch] and
    nothing else; any other call leaves the whole state as it was. *)
Theorem setSelectedRoute_validation env s payload :
  (forall i, Accepted s payload i ->
     navigationReducer env s (setSelectedRoute payload) =
     set_lastRouteSwitch (set_selectedRouteIndex s i) (now env)) /\
  ((forall i, ~ Accepted s payload i) ->
     navigationReducer env s (setSelectedRoute payload) = s).
Proof.
  unfold navigationReducer. simpl.
  destruct (setSelectedRoute_cases env s payload) as [(j & Hj & ->) | (Hno & ->)].
  - split.
    + intros i Hi. now rewrite (Accepted_unique _ _ _ _ Hi Hj).
    + intros Hno. now apply Hno in Hj.
  - split; [|reflexivity]. intros i Hi. now apply Hno in Hi.
Qed.

Lemma catalogState_accepts_1 : Accepted catalogState (Num 1) 1.
Proof.
  exists 1%Q, alternateA. repeat split; try reflexivity; try lia.
  all: repeat eexists; try reflexivity; discriminate.
Qed.

Lemma setSelectedRoute_validation_witness :
  Accepted catalogState (Num 1) 1 /\
  navigationReducer testEnv catalogState (setSelectedRoute (Num 1)) =
  set_lastRouteSwitch (set_selectedRouteIndex catalogState 1) 100000.
Proof.
  split; [exact catalogState_accepts_1|].
  apply (proj1 (setSelectedRoute_validation testEnv catalogState (Num 1))).
  exact catalogState_accepts_1.
Defined.

(** C8 as stated fails: a route whose step list is empty passes the check on
    [steps] ([[]] is truthy) and the selection goes through, here moving
    [lastRouteSwitch] from 0 to the current time. *)
Lemma setSelectedRoute_accepts_empty_step_list :
  let s := navigationReducer testEnv initialState (setRoute (Some sampleRoute)) in
  Route.steps sampleRoute = Some [] /\
  lastRouteSwitch s = 0 /\
  lastRouteSwitch (navigationReducer testEnv s (setSelectedRoute (Num 0))) = 100000.
Proof. repeat split. Qed.

(** C5 (as amended).  [setSelectedRoute] has no debounce window: it never
    reads [lastRouteSwitch] or [ROUTE_SWITCH_DEBOUNCE].  A payload that
    passes validation is selected, and stamped with the current time,
    however short the time since the last switch; a payload that does not
    pass leaves the whole state as it was; the outcome is the same for
    every value of [lastRouteSwitch]; and the call raises no error and says
    nothing. *)
Theorem setSelectedRoute_no_debounce env s payload :
  (forall i, Accepted s payload i ->
     selectedRouteIndex (navigationReducer env s (setSelectedRoute payload)) = i /\
     lastRouteSwitch (navigationReducer env s (setSelectedRoute payload)) = now env) /\
  ((forall i, ~ Accepted s payload i) ->
     navigationReducer env s (setSelectedRoute payload) = s) /\
  (forall t,
     selectedRouteIndex
       (navigationReducer env (set_lastRouteSwitch s t) (setSelectedRoute payload)) =
     selectedRouteIndex (navigationReducer env s (setSelectedRoute payload))) /\
  error (navigationReducer env s (setSelectedRoute payload)) = error s /\
  snd (dispatch env s (setSelectedRoute payload)) = [].
Proof.
  unfold navigationReducer. simpl.
  destruct (setSelectedRoute_cases env s payload) as [(j & Hj & ->) | (Hno & ->)].
  - split; [|split; [|split; [|split; reflexivity]]].
    + intros i Hi. rewrite (Accepted_unique _ _ _ _ Hi Hj). now split.
    + intros Hnone. now apply Hnone in Hj.
    + intros t.
      destruct (setSelectedRoute_cases env (set_lastRouteSwitch s t) payload)
        as [(k & Hk & ->) | (Hno' & ->)]; simpl.
      * apply (Accepted_unique s payload); assumption.
      * now apply Hno' in Hj.
  - split; [|split; [|split; [|split; reflexivity]]].
    + intros i Hi. now apply Hno in Hi.
    + reflexivity.
    + intros t.
      destruct (setSelectedRoute_cases env (set_lastRouteSwitch s t) payload)
        as [(k & Hk & ->) | (Hno' & ->)]; simpl.
      * now apply Hno in Hk.
      * reflexivity.
Qed.

Lemma setSelectedRoute_no_debounce_witness :
  let s := navigationReducer (envAt 1000) catalogState (setSelectedRoute (Num 1)) in
  Accepted s (Num 2) 2 /\
  (forall i, ~ Accepted s (Num 3) i) /\
  selectedRouteIndex (navigationReducer (envAt 1100) s (setSelectedRoute (Num 2))) = 2 /\
  lastRouteSwitch (navigationReducer (envAt 1100) s (setSelectedRoute (Num 2))) = 1100 /\
  navigationReducer (envAt 1100) s (setSelectedRoute (Num 3)) = s.
Proof.
  intros s.
  assert (H : Accepted s (Num 2) 2).
  { exists 2%Q, alternateB. repeat split; try reflexivity; try lia.
    all: repeat eexists; try reflexivity; discriminate. }
  assert (Hnone : forall i, ~ Accepted s (Num 3) i).
  { intros i (q & r & [= <-] & Hq & Hi & Hnth & _).
    assert (Hi3 : i = 3).
    { unfold Qeq in Hq. simpl in Hq. lia. }
    subst i. discriminate Hnth. }
  split; [exact H|]. split; [exact Hnone|].
  destruct (setSelectedRoute_no_debounce (envAt 1100) s (Num 2))
    as (Haccepted & _).
  destruct (setSelectedRoute_no_debounce (envAt 1100) s (Num 3))
    as (_ & Hrejected & _).
  split; [exact (proj1 (Haccepted 2 H))|].
  split; [exact (proj2 (Haccepted 2 H))|].
  exact (Hrejected Hnone).
Defined.

(** C5 as stated fails: 100 ms after a successful select, well inside the
    500 ms window, a second select is applied; it changes both
    [selectedRouteIndex] and [lastRouteSwitch]. *)
Lemma setSelectedRoute_within_debounce_window :
  let s1 := navigationReducer (envAt 1000) catalogState (setSelectedRoute (Num 1)) in
  let s2 := navigationReducer (envAt 1100) s1 (setSelectedRoute (Num 2)) in
  selectedRouteIndex s1 = 1 /\ lastRouteSwitch s1 = 1000 /\
  now (envAt 1100) - lastRouteSwitch s1 < ROUTE_SWITCH_DEBOUNCE /\
  selectedRouteIndex s2 = 2 /\ lastRouteSwitch s2 = 1100.
Proof. repeat split. Qed.

(** ** The catalog invariant *)

Ltac case_updateEta :=
  unfold reduce_updateEta;
  repeat match goal with
         | |- context [match ?x with _ => _ end] => destruct x eqn:?; simpl
         end.

(** [updateEta] assigns [updateFrequency], [currentEta] and [lastEtaUpdate]
    and no other field. *)
Lemma updateEta_catalog env s :
  selectedRouteIndex (fst (reduce_updateEta env s)) = selectedRouteIndex s /\
  alternativeRoutes (fst (reduce_updateEta env s)) = alternativeRoutes s /\
  route (fst (reduce_updateEta env s)) = route s /\
  lastRouteSwitch (fst (reduce_updateEta env s)) = lastRouteSwitch s.
Proof. case_updateEta; repeat split; auto. Qed.

Ltac catalog_arith :=
  unfold catalogInvariant, alternates in *;
  cbn -[Z.add Z.of_nat Z.le Z.lt] in *; lia.

Lemma availableRoutes_length s :
  (length (availableRoutes s) <= 1 + length (alternates s))%nat.
Proof.
  unfold availableRoutes, alternates.
  destruct (alternativeRoutes s), (route s); simpl; lia.
Qed.

(** C3 (as amended).  The catalog invariant holds in the initial state.
    Every reducer preserves it, except that [setAlternativeRoutes] does so
    only when the selected index still fits the new list of alternates: it
    replaces the list and leaves the index alone.  Right after [setRoute],
    which resets the index to 0, it always fits. *)
Theorem catalogInvariant_preserved :
  catalogInvariant initialState /\
  (forall env s action,
     catalogInvariant s ->
     (forall routes, action = setAlternativeRoutes routes ->
        selectedRouteIndex s <= Z.of_nat (length routes)) ->
     catalogInvariant (navigationReducer env s action)) /\
  (forall env env' s payload routes,
     catalogInvariant
       (navigationReducer env' (navigationReducer env s (setRoute payload))
          (setAlternativeRoutes routes))).
Proof.
  split; [catalog_arith|]. split.
  - intros env s action Hinv Hfit. unfold navigationReducer.
    destruct action; simpl; try exact Hinv; try catalog_arith.
    + (* removeWaypoint *)
      unfold reduce_removeWaypoint. simpl.
      destruct (reorderFrom 0 _); [catalog_arith | exact Hinv].
    + (* setRoute *)
      unfold reduce_setRoute.
      destruct payload as [r|]; [destruct (_ && _)|]; catalog_arith.
    + (* setAlternativeRoutes *)
      specialize (Hfit payload eq_refl). catalog_arith.
    + (* setSelectedRoute *)
      destruct (setSelectedRoute_cases env s payload)
        as [(i & (q & r & _ & _ & Hi & Hnth & _) & ->) | (_ & ->)];
        [|exact Hinv].
      assert (Z.to_nat i < length (availableRoutes s))%nat
        by (apply nth_error_Some; congruence).
      pose proof (availableRoutes_length s). catalog_arith.
    + (* updateEta *)
      destruct (updateEta_catalog env s) as (Hi & Ha & _).
      unfold catalogInvariant, alternates in *. now rewrite Hi, Ha.
    + (* setNavigationCardVisible *)
      destruct payload; exact Hinv.
  - intros env env' s payload routes. unfold navigationReducer. simpl.
    unfold reduce_setRoute.
    destruct payload as [r|]; [destruct (_ && _)|]; catalog_arith.
Qed.

Lemma catalogInvariant_preserved_witness :
  catalogInvariant catalogState /\
  catalogInvariant (navigationReducer testEnv catalogState (setSelectedRoute (Num 2))).
Proof.
  assert (H : catalogInvariant catalogState)
    by (unfold catalogInvariant; simpl; lia).
  split; [exact H|].
  apply (proj1 (proj2 catalogInvariant_preserved) testEnv catalogState
           (setSelectedRoute (Num 2)) H).
  intros routes Heq. discriminate Heq.
Defined.

(** C3 as stated fails for [setAlternativeRoutes]: with the second of two
    alternates selected, replacing the alternates by an empty list leaves
    [selectedRouteIndex] at 2 in a catalog of one route. *)
Lemma setAlternativeRoutes_breaks_catalogInvariant :
  let s := navigationReducer testEnv catalogState (setSelectedRoute (Num 2)) in
  catalogInvariant s /\
  ~ catalogInvariant (navigationReducer testEnv s (setAlternativeRoutes [])).
Proof.
  split; unfold catalogInvariant; vm_compute.
  - split; [discriminate | reflexivity].
  - intros [_ H]. discriminate H.
Qed.


(** ** The ETA update *)

(** What must hold for [updateEta] to change the state at all. *)
Lemma updateEta_guarded env s :
  fst (reduce_updateEta env s) <> s ->
  exists r loc v,
    route s = Some r /\ currentLocation s = Some loc /\ speed s = Some v /\
    ~ v == 0 /\
    (match updateFrequency s with frequent => 10000 | normal => 30000 end
     <= now env - lastEtaUpdate s) /\
    calculateRouteStatus env loc (Route.polyline r) <> None.
Proof.
  unfold reduce_updateEta.
  destruct (route s) as [r|]; [|simpl; congruence].
  destruct (currentLocation s) as [loc|]; [|simpl; congruence].
  destruct (speed s) as [v|]; [|simpl; congruence].
  destruct (Qeq_bool v 0) eqn:Ev; [simpl; congruence|].
  destruct (Z.ltb_spec (now env - lastEtaUpdate s)
              match updateFrequency s with frequent => 10000 | normal => 30000 end)
    as [Hlt|Hge]; [simpl; congruence|].
  destruct (calculateRouteStatus env loc (Route.polyline r)) eqn:Est;
    [|simpl; congruence].
  intros _. exists r, loc, v. repeat split; try assumption; try congruence.
  intros Hv. apply Qeq_bool_iff in Hv. congruence.
Qed.

(** C2 (as amended).  When the speed is unknown ([null]) or zero, [updateEta]
    leaves the whole state as it was, produces no snapshot and says nothing.
    So whenever it does change the state, the speed it divides by, and the
    speed in miles per hour derived from it, are not zero. *)
Theorem updateEta_without_speed env s :
  (speed s = None \/ (exists v, speed s = Some v /\ v == 0) ->
   dispatch env s updateEta = (s, [])) /\
  (navigationReducer env s updateEta <> s ->
   exists v, speed s = Some v /\ ~ v == 0 /\ ~ v * (2237 # 1000) == 0).
Proof.
  split.
  - simpl. unfold reduce_updateEta.
    intros [-> | (v & -> & Hv)].
    + destruct (route s), (currentLocation s); reflexivity.
    + apply Qeq_bool_iff in Hv. rewrite Hv.
      destruct (route s), (currentLocation s); reflexivity.
  - unfold navigationReducer. simpl. intros H.
    apply updateEta_guarded in H as (r & loc & v & _ & _ & Hv & Hnz & _).
    exists v. repeat split; try assumption.
    intros Hz. apply Hnz.
    apply Qmult_integral in Hz as [Hz | Hz]; [assumption | discriminate Hz].
Qed.

Lemma updateEta_without_speed_witness :
  let s := navigationReducer testEnv sampleState (setSpeed (Some 0%Q)) in
  (exists v, speed s = Some v /\ v == 0) /\
  dispatch testEnv s updateEta = (s, []).
Proof.
  assert (H : exists v,
            speed (navigationReducer testEnv sampleState (setSpeed (Some 0%Q)))
            = Some v /\ v == 0)
    by (exists 0%Q; split; reflexivity).
  split; [exact H|].
  apply (proj1 (updateEta_without_speed testEnv
                  (navigationReducer testEnv sampleState (setSpeed (Some 0%Q))))).
  right. exact H.
Defined.

(** C2 as stated fails for a negative speed: [!state.speed] lets -1 m/s
    through, and a snapshot is produced, with a negative number of seconds
    to go. *)
Lemma updateEta_negative_speed :
  let s := navigationReducer testEnv sampleState (setSpeed (Some (-1 # 1))) in
  (exists v, speed s = Some v /\ (v <= 0)%Q) /\
  currentEta s = None /\
  exists eta,
    currentEta (navigationReducer testEnv s updateEta) = Some eta /\
    (EtaState.value eta < 0)%Q.
Proof.
  split; [|split].
  - exists (-1 # 1). split; [reflexivity | discriminate].
  - reflexivity.
  - eexists. split; [vm_compute; reflexivity | vm_compute; reflexivity].
Qed.

(** ** The update-frequency mode *)

Lemma updateEta_frequent env s :
  updateFrequency s = frequent ->
  updateFrequency (fst (reduce_updateEta env s)) = frequent.
Proof. intros H. case_updateEta; auto. Qed.

Lemma updateEta_tightens env s r loc v status :
  route s = Some r -> currentLocation s = Some loc -> speed s = Some v ->
  ~ v == 0 ->
  match updateFrequency s with frequent => 10000 | normal => 30000 end
    <= now env - lastEtaUpdate s ->
  calculateRouteStatus env loc (Route.polyline r) = Some status ->
  (RouteStatus.remainingDistance status < FREQUENT_UPDATE_DISTANCE)%Q ->
  updateFrequency (fst (reduce_updateEta env s)) = frequent.
Proof.
  intros Hr Hloc Hv Hnz Hdue Hst Hnear. unfold reduce_updateEta.
  rewrite Hr, Hloc, Hv.
  destruct (Qeq_bool v 0) eqn:Ev; [apply Qeq_bool_iff in Ev; contradiction|].
  destruct (Z.ltb_spec (now env - lastEtaUpdate s)
              match updateFrequency s with frequent => 10000 | normal => 30000 end);
    [lia|].
  rewrite Hst. apply Qlt_bool_iff in Hnear. rewrite Hnear.
  destruct (_ && _); reflexivity.
Qed.

Lemma reducer_keeps_frequent env s action :
  action <> setUpdateFrequency normal ->
  updateFrequency s = frequent ->
  updateFrequency (navigationReducer env s action) = frequent.
Proof.
  intros Hact Hs. unfold navigationReducer.
  destruct action; simpl; try exact Hs.
  - unfold reduce_removeWaypoint. simpl. now destruct (reorderFrom 0 _).
  - unfold reduce_setRoute. destruct payload as [r|]; [destruct (_ && _)|]; exact Hs.
  - destruct (setSelectedRoute_cases env s payload) as [(i & _ & ->) | (_ & ->)];
      exact Hs.
  - destruct payload; congruence.
  - now apply updateEta_frequent.
  - now destruct payload.
Qed.

(** C4 (as amended).  [updateEta] switches the mode to frequent whenever it
    gets past its guards with less than 5000 m to go, and never switches it
    back.  No other reducer changes the mode, except [setUpdateFrequency],
    which stores the mode it is given, [normal] included.  So along a run
    in which [setUpdateFrequency normal] is never dispatched, the mode,
    once frequent, stays frequent. *)
Theorem updateFrequency_one_way :
  (forall env s r loc v status,
     route s = Some r -> currentLocation s = Some loc -> speed s = Some v ->
     ~ v == 0 ->
     match updateFrequency s with frequent => 10000 | normal => 30000 end
       <= now env - lastEtaUpdate s ->
     calculateRouteStatus env loc (Route.polyline r) = Some status ->
     (RouteStatus.remainingDistance status < 5000)%Q ->
     updateFrequency (navigationReducer env s updateEta) = frequent) /\
  (forall env s action,
     action <> updateEta -> (forall mode, action <> setUpdateFrequency mode) ->
     updateFrequency (navigationReducer env s action) = updateFrequency s) /\
  (forall env s mode,
     updateFrequency (navigationReducer env s (setUpdateFrequency mode)) = mode) /\
  (forall trace s,
     (forall env, ~ In (env, setUpdateFrequency normal) trace) ->
     updateFrequency s = frequent ->
     updateFrequency (run s trace) = frequent).
Proof.
  split; [|split; [|split]].
  - intros. now apply (updateEta_tightens env s r loc v status).
  - intros env s action Hupd Hset. unfold navigationReducer.
    destruct action; simpl; try reflexivity.
    + unfold reduce_removeWaypoint. simpl. now destruct (reorderFrom 0 _).
    + unfold reduce_setRoute.
      destruct payload as [r|]; [destruct (_ && _)|]; reflexivity.
    + destruct (setSelectedRoute_cases env s payload) as [(i & _ & ->) | (_ & ->)];
        reflexivity.
    + now specialize (Hset payload).
    + contradiction.
    + now destruct payload.
  - reflexivity.
  - induction trace as [|[env action] trace IH]; intros s Hno Hs; [exact Hs|].
    simpl. apply IH.
    + intros env' Hin. apply (Hno env'). now right.
    + apply reducer_keeps_frequent; [|exact Hs].
      intros ->. apply (Hno env). now left.
Qed.

(** From [nearState], 1110 m from the end of its route, [updateEta] makes
    the mode frequent, and a later fetch and selection leave it so. *)
Lemma updateFrequency_one_way_witness :
  updateFrequency (navigationReducer testEnv nearState updateEta) = frequent /\
  updateFrequency
    (run (navigationReducer testEnv nearState updateEta)
       [(testEnv, setRoute (Some sampleRoute));
        (testEnv, setAlternativeRoutes [alternateA]);
        (envAt 200000, setSelectedRoute (Num 1));
        (envAt 200000, updateEta)]) = frequent.
Proof.
  destruct updateFrequency_one_way as (Htighten & _ & _ & Hrun).
  assert (H : updateFrequency (navigationReducer testEnv nearState updateEta)
              = frequent).
  { apply (Htighten testEnv nearState shortRoute originLocation 10%Q
             (RouteStatus.mk 1110.00000000000000000000 false (Num 0.0000000000)));
      try reflexivity.
    - discriminate.
    - vm_compute. discriminate. }
  split; [exact H|].
  apply Hrun; [|exact H].
  intros env [Hin | [Hin | [Hin | [Hin | []]]]]; discriminate Hin.
Defined.

(** C4 as stated fails for [setUpdateFrequency]: it is one of the reducers
    that write the mode, and it takes the store from frequent back to
    normal. *)
Lemma setUpdateFrequency_back_to_normal :
  let s := navigationReducer testEnv nearState updateEta in
  updateFrequency nearState = normal /\
  updateFrequency s = frequent /\
  updateFrequency (navigationReducer testEnv s (setUpdateFrequency normal)) = normal.
Proof. repeat split. Qed.

(** ** Route tracking *)

Section RouteTracking.
Variable env : Env.
Variable currentLocation : Location.t.

Local Abbreviation d := (distanceTo env currentLocation).

Lemma remainingLoop_pathLength path : forall acc,
  remainingLoop env path acc == acc + pathLength env path.
Proof.
  induction path as [|a [|b rest] IH]; intros acc.
  - simpl. ring.
  - simpl. ring.
  - change (remainingLoop env (a :: b :: rest) acc)
      with (remainingLoop env (b :: rest) (acc + distanceBetween env a b)%Q).
    change (pathLength env (a :: b :: rest))
      with (distanceBetween env a b + pathLength env (b :: rest))%Q.
    rewrite IH. ring.
Qed.

(** The scan, started below a finite bound [x]: either no vertex is
    nearer than [x] and nothing changes, or the result is the first of
    the nearest vertices. *)
Lemma closestScan_Num coordinates : forall i x k,
  exists y k',
    closestScan env currentLocation coordinates i (Num x) k = (Num y, k') /\
    ((y = x /\ k' = k /\
      forall j c, nth_error coordinates j = Some c -> (x <= d c)%Q) \/
     (exists j c,
        nth_error coordinates j = Some c /\ k' = (i + j)%nat /\ y = d c /\
        (y < x)%Q /\
        (forall j' c', (j' < j)%nat -> nth_error coordinates j' = Some c' ->
           (y < d c')%Q) /\
        (forall j' c', nth_error coordinates j' = Some c' -> (y <= d c')%Q))).
Proof.
  induction coordinates as [|c rest IH]; intros i x k.
  - exists x, k. split; [reflexivity|]. left. repeat split.
    intros [|j] c'; discriminate.
  - simpl. fold (d c).
    destruct (Qlt_bool (d c) x) eqn:E.
    + apply Qlt_bool_iff in E.
      destruct (IH (S i) (d c) i) as (y & k' & -> & H).
      exists y, k'. split; [reflexivity|]. right.
      destruct H as [(-> & -> & Hrest) | (j & c0 & Hj & -> & -> & Hlt & Hfirst & Hmin)].
      * exists 0%nat, c.
        assert (Hmin : forall j' c', nth_error (c :: rest) j' = Some c' ->
                                     (d c <= d c')%Q).
        { intros [|j'] c' Hc'; simpl in Hc'.
          - injection Hc' as <-. apply Qle_refl.
          - eauto. }
        repeat split; solve [assumption | lia | intros; lia].
      * exists (S j), c0.
        assert (Hx : (d c0 < x)%Q) by now apply Qlt_trans with (d c).
        assert (Hfirst' : forall j' c', (j' < S j)%nat ->
                            nth_error (c :: rest) j' = Some c' -> (d c0 < d c')%Q).
        { intros [|j'] c' Hlt' Hc'; simpl in Hc'.
          - now injection Hc' as <-.
          - apply (Hfirst j'); [lia | assumption]. }
        assert (Hmin' : forall j' c', nth_error (c :: rest) j' = Some c' ->
                                      (d c0 <= d c')%Q).
        { intros [|j'] c' Hc'; simpl in Hc'.
          - injection Hc' as <-. now apply Qlt_le_weak.
          - eauto. }
        repeat split; solve [assumption | lia].
    + apply Qlt_bool_false_iff in E.
      destruct (IH (S i) x k) as (y & k' & -> & H).
      exists y, k'. split; [reflexivity|].
      destruct H as [(-> & -> & Hrest) | (j & c0 & Hj & -> & -> & Hlt & Hfirst & Hmin)].
      * left. repeat split.
        intros [|j'] c' Hc'; simpl in Hc'.
        -- now injection Hc' as <-.
        -- eauto.
      * right. exists (S j), c0.
        assert (Hc : (d c0 < d c)%Q) by now apply Qlt_le_trans with x.
        assert (Hfirst' : forall j' c', (j' < S j)%nat ->
                            nth_error (c :: rest) j' = Some c' -> (d c0 < d c')%Q).
        { intros [|j'] c' Hlt' Hc'; simpl in Hc'.
          - now injection Hc' as <-.
          - apply (Hfirst j'); [lia | assumption]. }
        assert (Hmin' : forall j' c', nth_error (c :: rest) j' = Some c' ->
                                      (d c0 <= d c')%Q).
        { intros [|j'] c' Hc'; simpl in Hc'.
          - injection Hc' as <-. now apply Qlt_le_weak.
          - eauto. }
        repeat split; solve [assumption | lia].
Qed.

(** The scan as [calculateRouteStatus] starts it, over a non-empty path. *)
Lemma closestScan_Infinity c rest :
  exists k c0,
    closestScan env currentLocation (c :: rest) 0 Infinity 0 = (Num (d c0), k) /\
    nth_error (c :: rest) k = Some c0 /\
    (forall j c', nth_error (c :: rest) j = Some c' -> (d c0 <= d c')%Q) /\
    (forall j c', (j < k)%nat -> nth_error (c :: rest) j = Some c' ->
       (d c0 < d c')%Q).
Proof.
  simpl. fold (d c).
  destruct (closestScan_Num rest 1 (d c) 0) as (y & k' & -> & H).
  destruct H as [(-> & -> & Hrest) | (j & c0 & Hj & -> & -> & Hlt & Hfirst & Hmin)].
  - exists 0%nat, c.
    assert (Hmin : forall j' c', nth_error (c :: rest) j' = Some c' ->
                                 (d c <= d c')%Q).
    { intros [|j'] c' Hc'; simpl in Hc'.
      - injection Hc' as <-. apply Qle_refl.
      - eauto. }
    repeat split; solve [assumption | intros; lia].
  - exists (S j), c0.
    assert (Hfirst' : forall j' c', (j' < S j)%nat ->
                        nth_error (c :: rest) j' = Some c' -> (d c0 < d c')%Q).
    { intros [|j'] c' Hlt' Hc'; simpl in Hc'.
      - now injection Hc' as <-.
      - apply (Hfirst j'); [lia | assumption]. }
    assert (Hmin' : forall j' c', nth_error (c :: rest) j' = Some c' ->
                                  (d c0 <= d c')%Q).
    { intros [|j'] c' Hc'; simpl in Hc'.
      - injection Hc' as <-. now apply Qlt_le_weak.
      - eauto. }
    repeat split; solve [assumption | lia].
Qed.

End RouteTracking.



(** ** The announcement policy *)

Lemma truthyNumber_Some d : truthyNumber (Some d) = true <-> ~ d == 0.
Proof.
  simpl. rewrite negb_true_iff. split.
  - intros H Hd. apply Qeq_bool_iff in Hd. congruence.
  - intros H. destruct (Qeq_bool d 0) eqn:E; [|reflexivity].
    apply Qeq_bool_iff in E. contradiction.
Qed.

(** Past the floor, [shouldAnnounceEta] is the disjunction of the three
    triggers. *)
Lemma shouldAnnounceEta_triggers currentEta newEta :
  (Qlt_bool 300 (Qabs (EtaState.value currentEta - EtaState.value newEta))
   || (negb (EtaState.isOffRoute currentEta) && EtaState.isOffRoute newEta)
   || match EtaState.trafficDelay currentEta, EtaState.trafficDelay newEta with
      | Some d1, Some d2 =>
          truthyNumber (Some d1) && truthyNumber (Some d2) &&
          Qlt_bool 300 (Qabs (d1 - d2))
      | _, _ => false
      end) = true <-> ChangeTrigger currentEta newEta.
Proof.
  unfold ChangeTrigger. rewrite !orb_true_iff, andb_true_iff, negb_true_iff.
  rewrite Qlt_bool_iff.
  assert (Htraffic :
    match EtaState.trafficDelay currentEta, EtaState.trafficDelay newEta with
    | Some d1, Some d2 =>
        truthyNumber (Some d1) && truthyNumber (Some d2) &&
        Qlt_bool 300 (Qabs (d1 - d2))
    | _, _ => false
    end = true <->
    exists d1 d2,
      EtaState.trafficDelay currentEta = Some d1 /\
      EtaState.trafficDelay newEta = Some d2 /\
      ~ d1 == 0 /\ ~ d2 == 0 /\ (300 < Qabs (d1 - d2))%Q).
  { destruct (EtaState.trafficDelay currentEta) as [d1|],
             (EtaState.trafficDelay newEta) as [d2|].
    - rewrite !andb_true_iff, !truthyNumber_Some, Qlt_bool_iff. split.
      + intros [[H1 H2] H3]. exists d1, d2. auto.
      + intros (? & ? & [= <-] & [= <-] & H1 & H2 & H3). auto.
    - split; [discriminate | intros (? & ? & _ & [=] & _)].
    - split; [discriminate | intros (? & ? & [=] & _)].
    - split; [discriminate | intros (? & ? & [=] & _)]. }
  rewrite Htraffic. tauto.
Qed.

(** C9.  With no previous snapshot [shouldAnnounceEta] is true.  With a
    previous snapshot that carries a last-announcement time, it is false
    whenever fewer than 60000 ms have passed since then, whatever the two
    snapshots say otherwise. *)
Theorem shouldAnnounceEta_floor :
  (forall now newEta, shouldAnnounceEta now None newEta = true) /\
  (forall now currentEta newEta t,
     EtaState.lastVoiceAnnouncement currentEta = Some t ->
     now - t < 60000 ->
     shouldAnnounceEta now (Some currentEta) newEta = false).
Proof.
  split; [reflexivity|].
  intros now currentEta newEta t Ht Hrecent. unfold shouldAnnounceEta.
  rewrite Ht.
  replace (if t =? 0 then 0 else t) with t by (destruct (Z.eqb_spec t 0); lia).
  unfold VOICE_ANNOUNCEMENT_INTERVAL.
  destruct (Z.ltb_spec (now - t) 60000); [reflexivity | lia].
Qed.

(** Thirty seconds after an announcement, a snapshot that is newly off the
    route and 1000 s later is still not announced. *)
Lemma shouldAnnounceEta_floor_witness :
  let announced :=
    EtaState.mk 600000 "Arriving in 10 min" 600 (Some 0%Q) false (Num 20)
      (Some 1700000000000) in
  ChangeTrigger announced strayedEta /\
  shouldAnnounceEta 1700000030000 (Some announced) strayedEta = false.
Proof.
  split.
  - right. left. split; reflexivity.
  - apply (proj2 shouldAnnounceEta_floor 1700000030000 _ strayedEta 1700000000000).
    + reflexivity.
    + reflexivity.
Defined.

(** C10 (as amended).  For a previous snapshot with no last-announcement
    time the floor is measured from time 0: once the clock reads 60000 ms or
    more, as any wall clock does, the decision is exactly whether one of
    the three change triggers holds; below 60000 ms it is always no. *)
Theorem shouldAnnounceEta_never_announced now currentEta newEta :
  EtaState.lastVoiceAnnouncement currentEta = None ->
  (60000 <= now ->
   (shouldAnnounceEta now (Some currentEta) newEta = true <->
    ChangeTrigger currentEta newEta)) /\
  (now < 60000 -> shouldAnnounceEta now (Some currentEta) newEta = false).
Proof.
  intros Hnone. unfold shouldAnnounceEta. rewrite Hnone.
  unfold VOICE_ANNOUNCEMENT_INTERVAL. rewrite Z.sub_0_r.
  destruct (Z.ltb_spec now 60000); split; intros; try lia; try reflexivity.
  apply shouldAnnounceEta_triggers.
Qed.

Lemma shouldAnnounceEta_never_announced_witness :
  EtaState.lastVoiceAnnouncement quietEta = None /\
  60000 <= 1700000000000 /\
  shouldAnnounceEta 1700000000000 (Some quietEta) strayedEta = true.
Proof.
  split; [reflexivity|]. split; [discriminate|].
  apply (proj1 (shouldAnnounceEta_never_announced 1700000000000 quietEta strayedEta
                  eq_refl)).
  - discriminate.
  - right. left. split; reflexivity.
Defined.

(** C10 as stated fails while the clock reads less than 60000 ms: the
    traveller has just left the route and the ETA moved by 1000 s, yet the
    floor, counted from time 0, suppresses the announcement. *)
Lemma shouldAnnounceEta_floor_from_epoch :
  EtaState.lastVoiceAnnouncement quietEta = None /\
  ChangeTrigger quietEta strayedEta /\
  shouldAnnounceEta 59999 (Some quietEta) strayedEta = false.
Proof.
  split; [reflexivity|]. split; [|reflexivity].
  right. left. split; reflexivity.
Qed.


(** * Further properties of the code *)

(** ** The decoder *)

(** Induction along the iterations of the decoding loop. *)
Lemma decodeLoop_induction
  (P : JsString -> Z -> Z -> list Coordinate ->
       list Coordinate * Completion unit -> Prop) :
  (forall lat lng coordinates, P [] lat lng coordinates (coordinates, Normal tt)) ->
  (forall rest lat lng coordinates e,
     rest <> [] -> readValue rest 0 0 = Throw e ->
     P rest lat lng coordinates (coordinates, Throw e)) ->
  (forall rest lat lng coordinates result1 rest1 e,
     rest <> [] -> readValue rest 0 0 = Normal (result1, rest1) ->
     readValue rest1 0 0 = Throw e ->
     P rest lat lng coordinates (coordinates, Throw e)) ->
  (forall rest lat lng coordinates result1 rest1 result2 rest2,
     rest <> [] -> readValue rest 0 0 = Normal (result1, rest1) ->
     readValue rest1 0 0 = Normal (result2, rest2) ->
     P rest2 (lat + unzigzag result1) (lng + unzigzag result2)
       (pushIfValid coordinates (lat + unzigzag result1) (lng + unzigzag result2))
       (decodeLoop rest2 (lat + unzigzag result1) (lng + unzigzag result2)
          (pushIfValid coordinates (lat + unzigzag result1)
             (lng + unzigzag result2))) ->
     P rest lat lng coordinates
       (decodeLoop rest2 (lat + unzigzag result1) (lng + unzigzag result2)
          (pushIfValid coordinates (lat + unzigzag result1)
             (lng + unzigzag result2)))) ->
  forall rest lat lng coordinates,
    P rest lat lng coordinates (decodeLoop rest lat lng coordinates).
Proof.
  intros Hnil Hthrow1 Hthrow2 Hstep rest.
  remember (length rest) as n eqn:Hn. revert rest Hn.
  induction n as [n IH] using lt_wf_ind; intros rest Hn lat lng coordinates.
  destruct rest as [|c cs].
  { rewrite decodeLoop_step. apply Hnil. }
  rewrite decodeLoop_nonempty by discriminate.
  destruct (readValue (c :: cs) 0 0) as [[result1 rest1]|e] eqn:E1.
  - destruct (readValue rest1 0 0) as [[result2 rest2]|e] eqn:E2.
    + apply (Hstep (c :: cs) lat lng coordinates result1 rest1 result2 rest2);
        try assumption; try discriminate.
      apply (IH (length rest2)); [|reflexivity].
      apply readValue_shorter in E1, E2. lia.
    + apply (Hthrow2 (c :: cs) lat lng coordinates result1 rest1 e);
        try assumption; discriminate.
  - apply Hthrow1; [discriminate | assumption].
Qed.

Lemma pushIfValid_cases coordinates lat lng :
  pushIfValid coordinates lat lng = coordinates \/
  (validCoordinate (mkCoordinate (scaled lat) (scaled lng)) = true /\
   pushIfValid coordinates lat lng =
   coordinates ++ [mkCoordinate (scaled lat) (scaled lng)]).
Proof.
  unfold pushIfValid.
  destruct (validCoordinate _) eqn:E; [right; split; reflexivity | now left].
Qed.

Lemma validCoordinate_range c :
  validCoordinate c = true <->
  (-90 <= latitude c <= 90 /\ -180 <= longitude c <= 180)%Q.
Proof.
  unfold validCoordinate. rewrite !andb_true_iff, !Qle_bool_iff. tauto.
Qed.

(** The loop only appends to [coordinates], and only valid points. *)
Lemma decodeLoop_appends rest lat lng coordinates :
  exists more,
    fst (decodeLoop rest lat lng coordinates) = coordinates ++ more /\
    Forall (fun c => validCoordinate c = true) more /\
    (2 * length more <= length rest)%nat.
Proof.
  apply (decodeLoop_induction
           (fun rest lat lng coordinates result =>
              exists more,
                fst result = coordinates ++ more /\
                Forall (fun c => validCoordinate c = true) more /\
                (2 * length more <= length rest)%nat)).
  - intros. exists []. rewrite app_nil_r.
    split; [reflexivity|]. split; [constructor | simpl; lia].
  - intros. exists []. rewrite app_nil_r.
    split; [reflexivity|]. split; [constructor | simpl; lia].
  - intros. exists []. rewrite app_nil_r.
    split; [reflexivity|]. split; [constructor | simpl; lia].
  - intros rest0 lat0 lng0 coordinates0 result1 rest1 result2 rest2 Hne E1 E2
           (more & Hmore & Hvalid & Hlen).
    apply readValue_shorter in E1, E2.
    destruct (pushIfValid_cases coordinates0 (lat0 + unzigzag result1)
                (lng0 + unzigzag result2)) as [Hsame | [Hv Hpush]].
    + rewrite Hsame in Hmore |- *. exists more. repeat split; auto. lia.
    + rewrite Hpush in Hmore |- *. rewrite <- app_assoc in Hmore.
      eexists. split; [exact Hmore|]. split.
      * constructor; assumption.
      * simpl. lia.
Qed.

(** Every coordinate [decodePolyline] returns lies in
    [-90, 90] x [-180, 180], and a string of n characters gives at most n/2
    coordinates. *)
Theorem decodePolyline_in_range encoded :
  Forall (fun c => (-90 <= latitude c <= 90 /\ -180 <= longitude c <= 180)%Q)
    (decodePolyline encoded) /\
  (2 * length (decodePolyline encoded) <=
   match encoded with Str s => length s | Null => 0 end)%nat.
Proof.
  destruct encoded as [|s]; [split; [constructor | simpl; lia]|].
  rewrite decodePolyline_Str.
  destruct (decodeLoop_appends s 0 0 []) as (more & -> & Hvalid & Hlen).
  simpl. split; [|exact Hlen].
  eapply Forall_impl; [|exact Hvalid].
  intros c Hc. now apply validCoordinate_range.
Qed.

(** Decoding is stable under extension: whatever follows a string of whole
    points, the coordinates decoded from those points come first in the
    result, unchanged. *)
Theorem decodePolyline_prefix_stable p s :
  wholePoints p ->
  exists more,
    decodePolyline (Str (p ++ s)) = decodePolyline (Str p) ++ more.
Proof.
  intros Hp. rewrite !decodePolyline_Str.
  destruct (decodeLoop_wholePoints p Hp s 0 0 [])
    as (lat' & lng' & coordinates' & -> & ->).
  destruct (decodeLoop_appends s lat' lng' coordinates') as (more & -> & _).
  now exists more.
Qed.

Lemma decodePolyline_prefix_stable_witness :
  wholePoints (codeUnits "_p~iF~ps|U_ulLnnqC") /\
  exists more,
    decodePolyline (Str (codeUnits "_p~iF~ps|U_ulLnnqC" ++ codeUnits "_mqNvxq`@")) =
    decodePolyline (Str (codeUnits "_p~iF~ps|U_ulLnnqC")) ++ more.
Proof.
  split; [exact reference_two_wholePoints|].
  exact (decodePolyline_prefix_stable _ (codeUnits "_mqNvxq`@")
           reference_two_wholePoints).
Defined.

(** *** Agreement with the arithmetic reading of the format *)

Lemma toInt32_small z : - 2 ^ 31 <= z < 2 ^ 31 -> toInt32 z = z.
Proof. intros H. unfold toInt32. rewrite Z.mod_small; lia. Qed.

Lemma lor_disjoint r x sh :
  0 <= sh -> 0 <= r < 2 ^ sh -> 0 <= x -> Z.lor r (x * 2 ^ sh) = r + x * 2 ^ sh.
Proof.
  intros Hsh Hr Hx. rewrite <- Z.add_lor_land.
  assert (Hland : Z.land r (x * 2 ^ sh) = 0).
  { apply Z.bits_inj'. intros n Hn. rewrite Z.land_spec, Z.bits_0.
    destruct (Z.lt_ge_cases n sh) as [Hlt | Hge].
    - rewrite (Z.mul_pow2_bits_low x sh n Hlt). apply andb_false_r.
    - destruct (Z.eq_dec r 0) as [-> | Hr0]; [now rewrite Z.bits_0|].
      rewrite (Z.bits_above_log2 r n); [reflexivity | lia |].
      apply Z.log2_lt_pow2; [lia|]. apply Z.lt_le_trans with (2 ^ sh); [lia|].
      apply Z.pow_le_mono_r; lia. }
  rewrite Hland. lia.
Qed.

(** One chunk of a standard string, at most five chunks into its value:
    what the bit operations of [readValue] add to [result] is the chunk's
    low five bits times [2 ^ shift]. *)
Lemma chunk_arithmetic c k r :
  63 <= c <= 126 -> (k <= 5)%nat -> 0 <= r < 2 ^ (5 * Z.of_nat k) ->
  or32 r (shl32 (and32 (c - 63) 31) (5 * Z.of_nat k)) =
  r + ((c - 63) mod 32) * 2 ^ (5 * Z.of_nat k) /\
  0 <= r + ((c - 63) mod 32) * 2 ^ (5 * Z.of_nat k) < 2 ^ (5 * Z.of_nat (S k)).
Proof.
  intros Hc Hk Hr.
  set (sh := 5 * Z.of_nat k) in *.
  assert (Hsh : 0 <= sh <= 25) by (unfold sh; lia).
  assert (Hd : 0 <= (c - 63) mod 32 < 32) by (apply Z.mod_pos_bound; lia).
  assert (Hpow : 2 ^ sh <= 2 ^ 25) by (apply Z.pow_le_mono_r; lia).
  assert (Hpos : 0 < 2 ^ sh) by (apply Z.pow_pos_nonneg; lia).
  assert (Hnext : 2 ^ (5 * Z.of_nat (S k)) = 32 * 2 ^ sh).
  { replace (5 * Z.of_nat (S k)) with (5 + sh) by (unfold sh; lia).
    rewrite Z.pow_add_r by lia. reflexivity. }
  assert (Hand : and32 (c - 63) 31 = (c - 63) mod 32).
  { unfold and32. rewrite !toInt32_small by lia.
    change 31 with (Z.ones 5). rewrite Z.land_ones by lia. reflexivity. }
  assert (Hshl : shl32 ((c - 63) mod 32) sh = (c - 63) mod 32 * 2 ^ sh).
  { unfold shl32. rewrite (toInt32_small ((c - 63) mod 32)) by lia.
    rewrite (Z.mod_small sh 32) by lia.
    rewrite Z.shiftl_mul_pow2 by lia. apply toInt32_small. nia. }
  split.
  - rewrite Hand, Hshl. unfold or32.
    rewrite !toInt32_small by nia. apply lor_disjoint; lia.
  - rewrite Hnext. nia.
Qed.

Lemma testbit_5_continues c :
  63 <= c <= 126 -> Z.testbit (c - 63) 5 = (c - 63 >=? 32).
Proof.
  intros Hc.
  assert (H : c - 63 = 0 \/ c - 63 = 1 \/ c - 63 = 2 \/ c - 63 = 3 \/
              c - 63 = 4 \/ c - 63 = 5 \/ c - 63 = 6 \/ c - 63 = 7 \/
              8 <= c - 63 <= 63) by lia.
  destruct (Z.geb_spec (c - 63) 32) as [Hge | Hlt].
  - apply Z.testbit_true; [lia|].
    replace (c - 63) with (1 * 2 ^ 5 + (c - 63 - 32)) by lia.
    rewrite Z.div_add_l by lia. rewrite Z.div_small by lia. reflexivity.
  - apply Z.testbit_false; [lia|]. rewrite Z.div_small by lia. reflexivity.
Qed.

(** On standard input [readValue] computes what [wireValue] computes. *)
Lemma readValue_wireValue rest : forall k r,
  standardChunks k rest = true -> (k <= 5)%nat ->
  0 <= r < 2 ^ (5 * Z.of_nat k) ->
  match readValue rest (5 * Z.of_nat k) r with
  | Normal (v, rest') =>
      wireValue rest (2 ^ (5 * Z.of_nat k)) r = Some (v, rest') /\
      0 <= v < 2 ^ 30 /\ standardChunks 0 rest' = true
  | Throw _ => wireValue rest (2 ^ (5 * Z.of_nat k)) r = None
  end.
Proof.
  induction rest as [|c rest IH]; intros k r Hstd Hk Hr; [reflexivity|].
  cbn [standardChunks] in Hstd.
  apply andb_true_iff in Hstd as [Hrange Hstd].
  apply andb_true_iff in Hrange as [Hlo Hhi].
  apply Z.leb_le in Hlo, Hhi.
  destruct (chunk_arithmetic c k r (conj Hlo Hhi) Hk Hr) as [Hor Hbound].
  cbn [readValue wireValue]. rewrite Hor.
  rewrite testbit_5_continues by lia.
  destruct (Z.geb_spec (c - 63) 32) as [Hge | Hlt].
  - destruct (Z.leb_spec 32 (c - 63)); [|lia].
    apply andb_true_iff in Hstd as [Hrun Hstd]. apply Nat.ltb_lt in Hrun.
    specialize (IH (S k) _ Hstd ltac:(lia) Hbound).
    replace (5 * Z.of_nat k + 5) with (5 * Z.of_nat (S k)) by lia.
    replace (2 ^ (5 * Z.of_nat k) * 32) with (2 ^ (5 * Z.of_nat (S k))).
    + exact IH.
    + replace (5 * Z.of_nat (S k)) with (5 * Z.of_nat k + 5) by lia.
      rewrite Z.pow_add_r by lia. reflexivity.
  - destruct (Z.leb_spec 32 (c - 63)); [lia|].
    split; [reflexivity|]. split; [|assumption].
    split; [lia|]. apply Z.lt_le_trans with (2 ^ (5 * Z.of_nat (S k))); [lia|].
    apply Z.pow_le_mono_r; lia.
Qed.

(** [unzigzag] on a 30-bit value is the zigzag decoding: half of an even
    value, minus half of the successor of an odd one. *)
Lemma unzigzag_wireDelta v : 0 <= v < 2 ^ 30 -> unzigzag v = wireDelta v.
Proof.
  intros Hv. unfold unzigzag, wireDelta, and32, sar32, not32.
  rewrite !toInt32_small by lia.
  change 1 with (Z.ones 1) at 1. rewrite Z.land_ones by lia.
  change (1 mod 32) with 1. rewrite Z.shiftr_div_pow2 by lia.
  change (2 ^ 1) with 2.
  assert (Hhalf : - 2 ^ 31 <= v / 2 < 2 ^ 31).
  { assert (0 <= v / 2) by (apply Z.div_pos; lia).
    assert (v / 2 <= v) by (apply Z.div_le_upper_bound; lia). lia. }
  rewrite toInt32_small by exact Hhalf.
  destruct (Z.even v) eqn:Heven.
  - apply Z.even_spec in Heven as [m ->].
    replace (2 * m mod 2) with 0
      by (rewrite Z.mul_comm, Z.mod_mul by lia; reflexivity).
    reflexivity.
  - assert (Hodd : Z.odd v = true) by (rewrite <- Z.negb_even, Heven; reflexivity).
    apply Z.odd_spec in Hodd as [m ->].
    replace ((2 * m + 1) mod 2) with 1.
    2:{ rewrite Z.add_comm, Z.mul_comm, Z.mod_add by lia. reflexivity. }
    simpl (1 =? 0). cbv iota.
    rewrite Z.lnot_eq_pred_opp.
    replace ((2 * m + 1) / 2) with m.
    2:{ rewrite Z.add_comm, Z.mul_comm, Z.div_add by lia. reflexivity. }
    replace ((2 * m + 1 + 1) / 2) with (m + 1).
    2:{ replace (2 * m + 1 + 1) with ((m + 1) * 2) by lia.
        rewrite Z.div_mul by lia. reflexivity. }
    lia.
Qed.

Lemma readValue_wireValue_start rest :
  standardChunks 0 rest = true ->
  match readValue rest 0 0 with
  | Normal (v, rest') =>
      wireValue rest 1 0 = Some (v, rest') /\
      unzigzag v = wireDelta v /\ standardChunks 0 rest' = true
  | Throw _ => wireValue rest 1 0 = None
  end.
Proof.
  intros Hstd.
  pose proof (readValue_wireValue rest 0 0 Hstd ltac:(lia) ltac:(simpl; lia)) as H.
  change (5 * Z.of_nat 0) with 0 in H. change (2 ^ 0) with 1 in H.
  destruct (readValue rest 0 0) as [[v rest']|e]; [|exact H].
  destruct H as (Hw & Hv & Hrest). auto using unzigzag_wireDelta.
Qed.

Lemma pushIfValid_filter coordinates lat lng tail :
  pushIfValid coordinates lat lng ++ filter validCoordinate tail =
  coordinates ++
  filter validCoordinate (mkCoordinate (Qmake lat 100000) (Qmake lng 100000) :: tail).
Proof.
  unfold pushIfValid, scaled. simpl.
  destruct (validCoordinate _); [now rewrite <- app_assoc | reflexivity].
Qed.

Lemma decodeLoop_wirePoints rest lat lng coordinates :
  standardChunks 0 rest = true ->
  forall fuel, (length rest <= fuel)%nat ->
  fst (decodeLoop rest lat lng coordinates) =
  coordinates ++
  filter validCoordinate
    (map (fun p => mkCoordinate (Qmake (fst p) 100000) (Qmake (snd p) 100000))
       (wirePoints fuel rest lat lng)).
Proof.
  apply (decodeLoop_induction
           (fun rest lat lng coordinates result =>
              standardChunks 0 rest = true ->
              forall fuel, (length rest <= fuel)%nat ->
              fst result =
              coordinates ++
              filter validCoordinate
                (map (fun p => mkCoordinate (Qmake (fst p) 100000)
                                 (Qmake (snd p) 100000))
                   (wirePoints fuel rest lat lng)))).
  - intros lat0 lng0 coordinates0 _ [|fuel] _; simpl; now rewrite app_nil_r.
  - intros rest0 lat0 lng0 coordinates0 e Hne E1 Hstd fuel Hfuel.
    pose proof (readValue_wireValue_start rest0 Hstd) as H1. rewrite E1 in H1.
    destruct fuel; simpl; [|rewrite H1]; now rewrite app_nil_r.
  - intros rest0 lat0 lng0 coordinates0 result1 rest1 e Hne E1 E2 Hstd fuel Hfuel.
    pose proof (readValue_wireValue_start rest0 Hstd) as H1. rewrite E1 in H1.
    destruct H1 as (H1 & _ & Hstd1).
    pose proof (readValue_wireValue_start rest1 Hstd1) as H2. rewrite E2 in H2.
    destruct fuel; simpl; [|rewrite H1, H2]; now rewrite app_nil_r.
  - intros rest0 lat0 lng0 coordinates0 result1 rest1 result2 rest2 Hne E1 E2 IH
           Hstd fuel Hfuel.
    pose proof (readValue_wireValue_start rest0 Hstd) as H1. rewrite E1 in H1.
    destruct H1 as (H1 & Hz1 & Hstd1).
    pose proof (readValue_wireValue_start rest1 Hstd1) as H2. rewrite E2 in H2.
    destruct H2 as (H2 & Hz2 & Hstd2).
    apply readValue_shorter in E1, E2.
    destruct fuel as [|fuel]; [destruct rest0; [congruence | simpl in Hfuel; lia]|].
    rewrite (IH Hstd2 fuel) by lia.
    cbn [wirePoints]. rewrite H1, H2, <- Hz1, <- Hz2. cbn [map fst snd].
    apply pushIfValid_filter.
Qed.

(** *** The partial-result contract *)

Lemma decodeLoop_completePoints rest lat lng coordinates :
  forall fuel, (length rest <= fuel)%nat ->
  fst (decodeLoop rest lat lng coordinates) =
  coordinates ++ filter validCoordinate (completePoints fuel rest lat lng).
Proof.
  apply (decodeLoop_induction
           (fun rest lat lng coordinates result =>
              forall fuel, (length rest <= fuel)%nat ->
              fst result =
              coordinates ++
              filter validCoordinate (completePoints fuel rest lat lng))).
  - intros lat0 lng0 coordinates0 [|fuel] _; simpl; now rewrite app_nil_r.
  - intros rest0 lat0 lng0 coordinates0 e Hne E1 fuel Hfuel.
    destruct fuel; simpl; [|rewrite E1]; now rewrite app_nil_r.
  - intros rest0 lat0 lng0 coordinates0 result1 rest1 e Hne E1 E2 fuel Hfuel.
    destruct fuel; simpl; [|rewrite E1, E2]; now rewrite app_nil_r.
  - intros rest0 lat0 lng0 coordinates0 result1 rest1 result2 rest2 Hne E1 E2 IH
           fuel Hfuel.
    pose proof (readValue_shorter _ _ _ _ _ E1) as L1.
    pose proof (readValue_shorter _ _ _ _ _ E2) as L2.
    destruct fuel as [|fuel]; [destruct rest0; [congruence | simpl in Hfuel; lia]|].
    rewrite (IH fuel) by lia.
    cbn [completePoints]. rewrite E1, E2.
    apply pushIfValid_filter.
Qed.

(** C1.  [decodePolyline] is total: a [throw] inside its [try] block is
    caught and the coordinates pushed so far are returned.  [null] and the
    empty string give the empty sequence.  Every string is a run of whole
    points followed by nothing or by a truncated point (the string ends
    inside a value, or between the latitude and the longitude of a point), and
    decoding it gives what decoding the whole points alone gives.  What is
    returned is pinned down: for every string, the points it holds in full,
    in order, less those out of range; and when the whole points are
    standard input, the points of the wire format read arithmetically from
    them, less those out of range, whatever the truncated point after
    them. *)
Theorem decodePolyline_partial_result :
  decodePolyline Null = [] /\
  decodePolyline (Str []) = [] /\
  (forall s, decodePolyline (Str s) = fst (decodeLoop s 0 0 [])) /\
  (forall s, exists p t,
     s = p ++ t /\ wholePoints p /\ (t = [] \/ truncatedPoint t) /\
     snd (decodeLoop p 0 0 []) = Normal tt /\
     decodePolyline (Str s) = decodePolyline (Str p)) /\
  (forall p t, wholePoints p -> truncatedPoint t ->
     snd (decodeLoop (p ++ t) 0 0 []) = Throw "Unexpected end of polyline" /\
     decodePolyline (Str (p ++ t)) = decodePolyline (Str p)) /\
  (forall s,
     decodePolyline (Str s)
     = filter validCoordinate (completePoints (length s) s 0 0)) /\
  (forall p t, wholePoints p -> truncatedPoint t ->
     standardChunks 0 p = true ->
     decodePolyline (Str (p ++ t)) = filter validCoordinate (wireDecode p)).
Proof.
  split; [reflexivity|]. split; [reflexivity|].
  split; [exact decodePolyline_Str|]. split; [|split; [|split]].
  - intros s. destruct (wholePoints_split s) as (p & t & -> & Hp & Ht).
    exists p, t. repeat split; try assumption.
    + destruct (decodeLoop_wholePoints p Hp [] 0 0 []) as (? & ? & ? & -> & _).
      reflexivity.
    + now apply decodePolyline_app_truncated.
  - intros p t Hp Ht. split.
    + destruct (decodeLoop_wholePoints p Hp t 0 0 []) as (? & ? & ? & _ & ->).
      now rewrite decodeLoop_truncated.
    + apply decodePolyline_app_truncated; auto.
  - intros s. rewrite decodePolyline_Str.
    now rewrite (decodeLoop_completePoints s 0 0 [] (length s)) by lia.
  - intros p t Hp Ht Hstd.
    rewrite (decodePolyline_app_truncated p t Hp (or_intror Ht)).
    rewrite decodePolyline_Str. unfold wireDecode.
    now rewrite (decodeLoop_wirePoints p 0 0 [] Hstd (length p)) by lia.
Qed.

Lemma decodePolyline_partial_result_witness :
  wholePoints (codeUnits "_p~iF~ps|U_ulLnnqC") /\
  truncatedPoint (codeUnits "_mqNvx") /\
  standardChunks 0 (codeUnits "_p~iF~ps|U_ulLnnqC") = true /\
  decodePolyline (Str (codeUnits "_p~iF~ps|U_ulLnnqC" ++ codeUnits "_mqNvx")) =
  decodePolyline (Str (codeUnits "_p~iF~ps|U_ulLnnqC")) /\
  decodePolyline (Str (codeUnits "_p~iF~ps|U_ulLnnqC" ++ codeUnits "_mqNvx")) =
  filter validCoordinate (wireDecode (codeUnits "_p~iF~ps|U_ulLnnqC")) /\
  filter validCoordinate (wireDecode (codeUnits "_p~iF~ps|U_ulLnnqC")) =
  [ mkCoordinate 38.50000 (-120.20000);
    mkCoordinate 40.70000 (-120.95000) ].
Proof.
  split; [exact reference_two_wholePoints|].
  split; [exact reference_cut_truncatedPoint|].
  split; [reflexivity|].
  destruct decodePolyline_partial_result as (_ & _ & _ & _ & Hcut & _ & Hwire).
  split; [|split].
  - apply (Hcut (codeUnits "_p~iF~ps|U_ulLnnqC") (codeUnits "_mqNvx")).
    + exact reference_two_wholePoints.
    + exact reference_cut_truncatedPoint.
  - apply (Hwire (codeUnits "_p~iF~ps|U_ulLnnqC") (codeUnits "_mqNvx")).
    + exact reference_two_wholePoints.
    + exact reference_cut_truncatedPoint.
    + reflexivity.
  - vm_compute. reflexivity.
Defined.


(** On standard input (characters from [?] to [~], at most six chunks per
    value) the bit operations of [decodePolyline] compute the format as its
    description reads: chunks of five bits, least significant first,
    zigzag-decoded deltas summed per axis; the points outside
    [-90, 90] x [-180, 180] are dropped one by one, the points after them
    still being counted from them. *)
Theorem decodePolyline_wire_format s :
  standardChunks 0 s = true ->
  decodePolyline (Str s) = filter validCoordinate (wireDecode s).
Proof.
  intros Hstd. rewrite decodePolyline_Str. unfold wireDecode.
  now rewrite (decodeLoop_wirePoints s 0 0 [] Hstd (length s)) by lia.
Qed.

Lemma decodePolyline_wire_format_witness :
  standardChunks 0 referencePolyline = true /\
  decodePolyline (Str referencePolyline) =
  filter validCoordinate (wireDecode referencePolyline).
Proof.
  split; [reflexivity|].
  exact (decodePolyline_wire_format referencePolyline eq_refl).
Defined.

(** ** Waypoints *)

Lemma reorderFrom_length i array : length (reorderFrom i array) = length array.
Proof.
  revert i. induction array as [|[w|] array IH]; intros i; simpl; auto.
Qed.

Lemma reorderFrom_orders array : forall i,
  map Waypoint.order (reorderFrom i array) =
  map (fun k => i + Z.of_nat k) (seq 0 (length array)).
Proof.
  induction array as [|w array IH]; intros i; [reflexivity|].
  assert (Hshift : map Waypoint.order (reorderFrom (i + 1) array) =
                   map (fun k => i + Z.of_nat k) (seq 1 (length array))).
  { rewrite IH, <- seq_shift, map_map. apply map_ext. intros k. lia. }
  destruct w as [w|]; simpl; rewrite Hshift; f_equal; lia.
Qed.

Lemma reorderFrom_numbered array : numbered (reorderFrom 0 array).
Proof.
  unfold numbered. rewrite reorderFrom_orders, reorderFrom_length.
  apply map_ext. intros k. lia.
Qed.

Lemma reorderFrom_details ws : forall i,
  map details (reorderFrom i (map Some ws)) = map details ws.
Proof.
  induction ws as [|w ws IH]; intros i; simpl; [reflexivity|].
  now rewrite IH.
Qed.

Lemma numbered_nth ws i w :
  numbered ws -> nth_error ws i = Some w -> Waypoint.order w = Z.of_nat i.
Proof.
  unfold numbered. intros Hnum Hw.
  assert (Hi : (i < length ws)%nat) by (apply nth_error_Some; congruence).
  apply (map_nth_error Waypoint.order) in Hw. rewrite Hnum in Hw.
  assert (Hseq : nth_error (seq 0 (length ws)) i = Some i).
  { rewrite nth_error_nth' with (d := 0%nat) by (rewrite length_seq; exact Hi).
    now rewrite seq_nth. }
  apply (map_nth_error Z.of_nat) in Hseq. congruence.
Qed.

Lemma filter_order_absent n ws :
  (forall w, In w ws -> Waypoint.order w <> n) ->
  filter (fun wp => negb (Waypoint.order wp =? n)) ws = ws.
Proof.
  induction ws as [|w ws IH]; intros H; simpl; [reflexivity|].
  destruct (Z.eqb_spec (Waypoint.order w) n) as [E|E].
  - exfalso. apply (H w); [now left | exact E].
  - simpl. rewrite IH; [reflexivity|]. intros w' Hw'. apply H. now right.
Qed.

Lemma filter_order_at ws : forall o i,
  (forall k w, nth_error ws k = Some w -> Waypoint.order w = o + Z.of_nat k) ->
  (i < length ws)%nat ->
  filter (fun wp => negb (Waypoint.order wp =? o + Z.of_nat i)) ws =
  firstn i ws ++ skipn (S i) ws.
Proof.
  induction ws as [|w ws IH]; intros o i Hord Hi; [simpl in Hi; lia|].
  assert (Hw : Waypoint.order w = o) by (rewrite (Hord 0%nat w eq_refl); lia).
  assert (Hrest : forall k w', nth_error ws k = Some w' ->
                               Waypoint.order w' = (o + 1) + Z.of_nat k).
  { intros k w' Hk. rewrite (Hord (S k) w' Hk). lia. }
  destruct i as [|i]; simpl.
  - rewrite Hw. replace (o + 0) with o by lia. rewrite Z.eqb_refl. simpl.
    apply filter_order_absent. intros w' Hin.
    apply In_nth_error in Hin as [k Hk]. rewrite (Hrest k w' Hk). lia.
  - rewrite Hw. destruct (Z.eqb_spec o (o + Z.pos (Pos.of_succ_nat i))); [lia|].
    simpl. f_equal.
    replace (o + Z.pos (Pos.of_succ_nat i)) with ((o + 1) + Z.of_nat i) by lia.
    apply IH; [exact Hrest | simpl in Hi; lia].
Qed.

(** With the waypoints numbered 0, 1, 2, ... in sequence, [removeWaypoint]
    given a position removes the waypoint at that position and nothing
    else, and given any other number removes nothing; in both cases the
    waypoints left are renumbered in sequence.  The route, the alternates
    and the selected index are reset exactly when no waypoint is left. *)
Theorem removeWaypoint_by_position env s payload :
  numbered (waypoints s) ->
  let s' := navigationReducer env s (removeWaypoint payload) in
  (forall i, payload = Z.of_nat i -> (i < length (waypoints s))%nat ->
     map details (waypoints s') =
     map details (firstn i (waypoints s) ++ skipn (S i) (waypoints s))) /\
  (payload < 0 \/ Z.of_nat (length (waypoints s)) <= payload ->
     map details (waypoints s') = map details (waypoints s)) /\
  numbered (waypoints s') /\
  (waypoints s' = [] ->
     route s' = None /\ alternativeRoutes s' = None /\ selectedRouteIndex s' = 0) /\
  (waypoints s' <> [] ->
     route s' = route s /\ alternativeRoutes s' = alternativeRoutes s /\
     selectedRouteIndex s' = selectedRouteIndex s).
Proof.
  intros Hnum s'.
  assert (Hws : waypoints s' =
                reorderFrom 0
                  (map Some (filter (fun wp => negb (Waypoint.order wp =? payload))
                               (waypoints s)))).
  { unfold s', navigationReducer. simpl. unfold reduce_removeWaypoint. simpl.
    now destruct (reorderFrom 0 _). }
  split; [|split; [|split; [|split]]].
  - intros i -> Hi. rewrite Hws, reorderFrom_details. f_equal.
    apply (filter_order_at (waypoints s) 0 i); [|exact Hi].
    intros k w Hk. now rewrite (numbered_nth _ _ _ Hnum Hk).
  - intros Hout. rewrite Hws, reorderFrom_details. f_equal.
    apply filter_order_absent. intros w Hin.
    apply In_nth_error in Hin as [k Hk].
    assert (k < length (waypoints s))%nat by (apply nth_error_Some; congruence).
    rewrite (numbered_nth _ _ _ Hnum Hk). lia.
  - rewrite Hws. apply reorderFrom_numbered.
  - unfold s', navigationReducer. simpl. unfold reduce_removeWaypoint. simpl.
    destruct (reorderFrom 0 _); simpl; [auto | discriminate].
  - unfold s', navigationReducer. simpl. unfold reduce_removeWaypoint. simpl.
    destruct (reorderFrom 0 _); simpl; [congruence | auto].
Qed.

Lemma insertByOrder_Permutation w sorted :
  Permutation (w :: sorted) (insertByOrder w sorted).
Proof.
  induction sorted as [|x rest IH]; simpl; [reflexivity|].
  destruct (Waypoint.order w <=? Waypoint.order x); [reflexivity|].
  rewrite perm_swap. now constructor.
Qed.

Lemma sortByOrder_Permutation ws : Permutation ws (sortByOrder ws).
Proof.
  induction ws as [|w ws IH]; simpl; [constructor|].
  rewrite <- insertByOrder_Permutation. now constructor.
Qed.

Lemma insertByOrder_sorted w sorted :
  sortedByOrder sorted -> sortedByOrder (insertByOrder w sorted).
Proof.
  unfold sortedByOrder. induction 1 as [|x rest Hrest IH Hhd]; simpl.
  - repeat constructor.
  - destruct (Z.leb_spec (Waypoint.order w) (Waypoint.order x)).
    + repeat constructor; assumption.
    + constructor; [exact IH|].
      destruct rest as [|y rest']; simpl.
      * constructor. lia.
      * destruct (Waypoint.order w <=? Waypoint.order y); constructor;
          [lia | now inversion Hhd].
Qed.

Lemma sortByOrder_sorted ws : sortedByOrder (sortByOrder ws).
Proof.
  induction ws as [|w ws IH]; simpl; [constructor|].
  now apply insertByOrder_sorted.
Qed.

Lemma sortByOrder_fixes_sorted ws : sortedByOrder ws -> sortByOrder ws = ws.
Proof.
  unfold sortedByOrder. induction 1 as [|x rest Hrest IH Hhd]; simpl; [reflexivity|].
  rewrite IH. destruct Hhd as [|y rest' Hxy]; simpl; [reflexivity|].
  destruct (Z.leb_spec (Waypoint.order x) (Waypoint.order y)); [reflexivity | lia].
Qed.

Lemma sortedByOrder_snoc ws w :
  sortedByOrder ws ->
  (forall x, In x ws -> Waypoint.order x <= Waypoint.order w) ->
  sortedByOrder (ws ++ [w]).
Proof.
  unfold sortedByOrder. induction 1 as [|x rest Hrest IH Hhd]; intros Hle; simpl.
  - repeat constructor.
  - constructor.
    + apply IH. intros y Hy. apply Hle. now right.
    + destruct Hhd as [|y rest' Hxy]; simpl; constructor; [|exact Hxy].
      apply Hle. now left.
Qed.

Lemma numbered_sorted ws : numbered ws -> sortedByOrder ws.
Proof.
  intros Hnum.
  assert (H : forall k w, nth_error ws k = Some w ->
                          Waypoint.order w = 0 + Z.of_nat k).
  { intros k w Hk. now rewrite (numbered_nth _ _ _ Hnum Hk). }
  clear Hnum. revert H. generalize 0 as o.
  unfold sortedByOrder.
  induction ws as [|x rest IH]; intros o H; constructor.
  - apply (IH (o + 1)). intros k w Hk. rewrite (H (S k) w Hk). lia.
  - destruct rest as [|y rest']; constructor.
    rewrite (H 0%nat x eq_refl), (H 1%nat y eq_refl). lia.
Qed.

Lemma numbered_snoc ws w :
  numbered ws -> Waypoint.order w = Z.of_nat (length ws) -> numbered (ws ++ [w]).
Proof.
  unfold numbered. intros Hnum Hw.
  rewrite map_app, length_app, seq_app, map_app, Hnum. simpl. now rewrite Hw.
Qed.

(** [addWaypoint] loses nothing and leaves the list in non-decreasing order
    of [order]; a waypoint whose order is not below any order already there
    goes to the end.  In particular, on a list numbered in sequence, adding
    a waypoint numbered with the length of the list, as the search bar does,
    appends it and keeps the numbering. *)
Theorem addWaypoint_sorted env s w :
  let s' := navigationReducer env s (addWaypoint w) in
  Permutation (waypoints s ++ [w]) (waypoints s') /\
  sortedByOrder (waypoints s') /\
  (sortedByOrder (waypoints s) ->
   (forall x, In x (waypoints s) -> Waypoint.order x <= Waypoint.order w) ->
   waypoints s' = waypoints s ++ [w]) /\
  (numbered (waypoints s) ->
   Waypoint.order w = Z.of_nat (length (waypoints s)) ->
   waypoints s' = waypoints s ++ [w] /\ numbered (waypoints s')).
Proof.
  unfold navigationReducer. simpl.
  assert (Hsnoc : sortedByOrder (waypoints s) ->
                  (forall x, In x (waypoints s) ->
                             Waypoint.order x <= Waypoint.order w) ->
                  sortByOrder (waypoints s ++ [w]) = waypoints s ++ [w]).
  { intros Hs Hle. apply sortByOrder_fixes_sorted. now apply sortedByOrder_snoc. }
  split; [apply sortByOrder_Permutation|].
  split; [apply sortByOrder_sorted|].
  split; [exact Hsnoc|].
  intros Hnum Hw.
  assert (Heq : sortByOrder (waypoints s ++ [w]) = waypoints s ++ [w]).
  { apply Hsnoc; [now apply numbered_sorted|].
    intros x Hx. apply In_nth_error in Hx as [k Hk].
    assert (k < length (waypoints s))%nat by (apply nth_error_Some; congruence).
    rewrite (numbered_nth _ _ _ Hnum Hk). lia. }
  rewrite Heq. split; [reflexivity | now apply numbered_snoc].
Qed.

Lemma reorderFrom_detailsOrNone array : forall i,
  map details (reorderFrom i array) = map detailsOrNone array.
Proof.
  induction array as [|[w|] array IH]; intros i; simpl; [reflexivity| |];
    now rewrite IH.
Qed.

Lemma spliceStart_of_nat len i : spliceStart len (Z.of_nat i) = Nat.min i len.
Proof.
  unfold spliceStart. destruct (Z.ltb_spec (Z.of_nat i) 0); [lia|].
  now rewrite Nat2Z.id.
Qed.

Lemma nth_error_split {A} (l : list A) i x :
  nth_error l i = Some x -> l = firstn i l ++ x :: skipn (S i) l.
Proof.
  revert i. induction l as [|a l IH]; intros [|i] H; simpl in *; try discriminate.
  - now injection H as ->.
  - f_equal. now apply IH.
Qed.

Lemma spliceIn_spec {A} (array : list A) to item :
  Permutation (item :: array) (spliceIn array to item) /\
  length (spliceIn array to item) = S (length array) /\
  nth_error (spliceIn array to item) (spliceStart (length array) to) = Some item.
Proof.
  unfold spliceIn. set (start := spliceStart (length array) to).
  assert (Hstart : (start <= length array)%nat).
  { unfold start, spliceStart. destruct (Z.ltb_spec to 0); lia. }
  split; [|split].
  - rewrite <- Permutation_middle. now rewrite firstn_skipn.
  - rewrite length_app. simpl. rewrite length_firstn, length_skipn. lia.
  - rewrite nth_error_app2 by (rewrite length_firstn; lia).
    rewrite length_firstn. replace (start - Nat.min start (length array))%nat with 0%nat by lia.
    reflexivity.
Qed.


Lemma updateEta_waypoints env s :
  waypoints (fst (reduce_updateEta env s)) = waypoints s.
Proof. case_updateEta; reflexivity. Qed.

Lemma reducer_sortedByOrder env s action :
  sortedByOrder (waypoints s) ->
  sortedByOrder (waypoints (navigationReducer env s action)).
Proof.
  intros Hs. unfold navigationReducer.
  destruct action; simpl; try exact Hs; try constructor.
  - apply sortByOrder_sorted.
  - unfold reduce_removeWaypoint. simpl.
    destruct (reorderFrom 0 _) eqn:E; simpl; [constructor|].
    rewrite <- E. apply numbered_sorted, reorderFrom_numbered.
  - apply numbered_sorted, reorderFrom_numbered.
  - unfold reduce_setRoute. destruct payload as [r|]; [destruct (_ && _)|]; exact Hs.
  - destruct (setSelectedRoute_cases env s payload) as [(i & _ & ->) | (_ & ->)];
      exact Hs.
  - now rewrite updateEta_waypoints.
  - destruct payload; exact Hs.
Qed.

(** In every state the store can reach, the waypoints are in non-decreasing
    order of [order]. *)
Theorem waypoints_always_sorted trace :
  sortedByOrder (waypoints (run initialState trace)).
Proof.
  assert (H : forall s, sortedByOrder (waypoints s) ->
                        sortedByOrder (waypoints (run s trace))).
  { induction trace as [|[env action] trace IH]; intros s Hs; [exact Hs|].
    simpl. apply IH. now apply reducer_sortedByOrder. }
  apply H. constructor.
Qed.

(** ** The navigation card and the catalog *)

(** The two fields that describe the navigation card agree after
    [setNavigationCardVisible] and after [setCardState], from any state, and
    every reducer keeps them in agreement once they are; in the initial
    state they are not (visible, with state [hidden]). *)
Theorem card_fields_agree :
  (forall env s payload,
     cardConsistent (navigationReducer env s (setNavigationCardVisible payload))) /\
  (forall env s payload,
     cardConsistent (navigationReducer env s (setCardState payload))) /\
  (forall env s action,
     cardConsistent s -> cardConsistent (navigationReducer env s action)) /\
  ~ cardConsistent initialState.
Proof.
  assert (Hvisible : forall env s payload,
            cardConsistent (navigationReducer env s (setNavigationCardVisible payload))).
  { intros env s [|]; unfold cardConsistent; simpl; split; congruence. }
  assert (Hstate : forall env s payload,
            cardConsistent (navigationReducer env s (setCardState payload))).
  { intros env s [| |]; unfold cardConsistent; simpl; split; congruence. }
  split; [exact Hvisible|]. split; [exact Hstate|]. split.
  - intros env s action Hs.
    destruct action; try exact Hs; try apply Hvisible; try apply Hstate.
    + unfold navigationReducer. simpl. unfold reduce_removeWaypoint. simpl.
      now destruct (reorderFrom 0 _).
    + unfold navigationReducer. simpl. unfold reduce_setRoute.
      destruct payload as [r|]; [destruct (_ && _)|]; try exact Hs.
      unfold cardConsistent. simpl. split; congruence.
    + unfold navigationReducer. simpl.
      destruct (setSelectedRoute_cases env s payload) as [(i & _ & ->) | (_ & ->)];
        exact Hs.
    + unfold navigationReducer. simpl. unfold cardConsistent in *.
      assert (H : isNavigationCardVisible (fst (reduce_updateEta env s)) =
                  isNavigationCardVisible s /\
                  cardState (fst (reduce_updateEta env s)) = cardState s)
        by (case_updateEta; split; reflexivity).
      destruct H as [-> ->]. exact Hs.
  - unfold cardConsistent. simpl. intros [H _]. now apply H.
Qed.

Lemma card_fields_agree_witness :
  cardConsistent (navigationReducer testEnv initialState (setCardState minimized)) /\
  cardConsistent
    (navigationReducer testEnv
       (navigationReducer testEnv initialState (setCardState minimized))
       (setRoute (Some sampleRoute))).
Proof.
  destruct card_fields_agree as (_ & Hstate & Hkeep & _).
  split; [apply Hstate|]. apply Hkeep, Hstate.
Defined.

(** While the store holds neither a route nor alternates, as initially and
    after [clearWaypoints] or [clearNavigation], every [setSelectedRoute] is
    ignored. *)
Theorem setSelectedRoute_without_routes :
  (forall env s payload,
     route s = None -> alternativeRoutes s = None ->
     navigationReducer env s (setSelectedRoute payload) = s) /\
  (forall env env' s payload,
     navigationReducer env' (navigationReducer env s clearWaypoints)
       (setSelectedRoute payload) =
     navigationReducer env s clearWaypoints) /\
  (forall env env' s payload,
     navigationReducer env' (navigationReducer env s clearNavigation)
       (setSelectedRoute payload) =
     navigationReducer env s clearNavigation).
Proof.
  assert (H : forall env s payload,
            route s = None -> alternativeRoutes s = None ->
            navigationReducer env s (setSelectedRoute payload) = s).
  { intros env s payload Hr Ha. unfold navigationReducer. simpl.
    destruct (setSelectedRoute_cases env s payload)
      as [(i & (q & r & _ & _ & _ & Hnth & _) & _) | (_ & ->)]; [|reflexivity].
    unfold availableRoutes in Hnth. rewrite Hr, Ha in Hnth.
    now destruct (Z.to_nat i). }
  split; [exact H|]. split; intros; apply H; reflexivity.
Qed.

Lemma setSelectedRoute_without_routes_witness :
  navigationReducer testEnv initialState (setSelectedRoute (Num 0)) = initialState.
Proof.
  apply (proj1 setSelectedRoute_without_routes testEnv initialState (Num 0));
    reflexivity.
Defined.

(** ** Route tracking, with distances that are not negative *)

Lemma pathLength_nonnegative env path :
  nonnegativeDistance env -> (0 <= pathLength env path)%Q.
Proof.
  intros Hd. induction path as [|a [|b rest] IH]; try apply Qle_refl.
  change (0 <= distanceBetween env a b + pathLength env (b :: rest))%Q.
  assert (0 <= distanceBetween env a b)%Q by apply Hd.
  apply (Qplus_le_compat 0 _ 0); assumption.
Qed.

Lemma pathLength_skipn env path k :
  nonnegativeDistance env ->
  (pathLength env (skipn k path) <= pathLength env path)%Q.
Proof.
  intros Hd. revert path. induction k as [|k IH]; intros path; [apply Qle_refl|].
  destruct path as [|a rest]; [apply Qle_refl|].
  simpl skipn. apply Qle_trans with (pathLength env rest); [apply IH|].
  destruct rest as [|b rest']; [apply Qle_refl|].
  change (pathLength env (b :: rest') <=
          distanceBetween env a b + pathLength env (b :: rest'))%Q.
  assert (0 <= distanceBetween env a b)%Q by apply Hd.
  rewrite <- (Qplus_0_l (pathLength env (b :: rest'))) at 1.
  apply Qplus_le_compat; [assumption | apply Qle_refl].
Qed.


Lemma testEnv_nonnegativeDistance : nonnegativeDistance testEnv.
Proof.
  intros lat1 lon1 lat2 lon2.
  change (0 <= 111000 * (Qabs (lat2 - lat1) + Qabs (lon2 - lon1)))%Q.
  apply Qmult_le_0_compat; [discriminate|].
  apply (Qplus_le_compat 0 _ 0); apply Qabs_nonneg.
Qed.


(** ** The ETA update, step by step *)

(** [updateEta] either returns at one of its guards, or stores the snapshot
    it builds, announced or not. *)
Lemma updateEta_cases env s :
  reduce_updateEta env s = (s, []) \/
  exists r loc v status,
    route s = Some r /\ currentLocation s = Some loc /\ speed s = Some v /\
    ~ v == 0 /\
    updateInterval (updateFrequency s) <= now env - lastEtaUpdate s /\
    calculateRouteStatus env loc (Route.polyline r) = Some status /\
    reduce_updateEta env s =
    let s1 :=
      if Qlt_bool (RouteStatus.remainingDistance status) FREQUENT_UPDATE_DISTANCE
      then set_updateFrequency s frequent else s in
    let newEta := etaSnapshot env s v status in
    if voiceEnabled s && shouldAnnounceEta (nowAnnounce env) (currentEta s) newEta
    then (set_lastEtaUpdate
            (set_currentEta s1 (Some (announcedAt newEta (now env)))) (now env),
          announceEta env newEta (EtaState.isOffRoute newEta))
    else (set_lastEtaUpdate (set_currentEta s1 (Some newEta)) (now env), []).
Proof.
  unfold reduce_updateEta.
  destruct (route s) as [r|] eqn:Er; [|now left].
  destruct (currentLocation s) as [loc|] eqn:Eloc; [|now left].
  destruct (speed s) as [v|] eqn:Ev; [|now left].
  destruct (Qeq_bool v 0) eqn:Ez; [now left|].
  destruct (Z.ltb_spec (now env - lastEtaUpdate s)
              match updateFrequency s with frequent => 10000 | normal => 30000 end)
    as [Hlt|Hge]; [now left|].
  destruct (calculateRouteStatus env loc (Route.polyline r)) as [status|] eqn:Est;
    [|now left].
  right. exists r, loc, v, status.
  do 3 (split; [first [reflexivity | assumption]|]).
  split; [intros Hv; apply Qeq_bool_iff in Hv; congruence|].
  split; [unfold updateInterval; destruct (updateFrequency s); exact Hge|].
  split; [first [reflexivity | assumption]|].
  cbv zeta. unfold etaSnapshot.
  destruct (Qlt_bool (RouteStatus.remainingDistance status) FREQUENT_UPDATE_DISTANCE);
    reflexivity.
Qed.

Lemma updateInterval_least mode : 10000 <= updateInterval mode.
Proof. destruct mode; simpl; lia. Qed.

(** [updateEta] does nothing, and says nothing, before the interval of the
    current mode has passed since the last update.  When it does store a
    snapshot it records the time of the update, so that another [updateEta]
    less than 10 s later, whatever the mode has become, does nothing. *)
Theorem updateEta_cadence env env' s :
  (now env - lastEtaUpdate s < updateInterval (updateFrequency s) ->
   dispatch env s updateEta = (s, [])) /\
  (navigationReducer env s updateEta <> s ->
   lastEtaUpdate (navigationReducer env s updateEta) = now env /\
   (now env' - now env < 10000 ->
    dispatch env' (navigationReducer env s updateEta) updateEta =
    (navigationReducer env s updateEta, []))).
Proof.
  assert (Hgate : forall e st,
            now e - lastEtaUpdate st < updateInterval (updateFrequency st) ->
            dispatch e st updateEta = (st, [])).
  { intros e st Hearly. simpl.
    destruct (updateEta_cases e st)
      as [H | (r & loc & v & status & _ & _ & _ & _ & Hdue & _)]; [exact H | lia]. }
  split; [apply Hgate|].
  intros Hchanged.
  assert (Hlast : lastEtaUpdate (navigationReducer env s updateEta) = now env).
  { unfold navigationReducer in *. simpl in *.
    destruct (updateEta_cases env s)
      as [H | (r & loc & v & status & _ & _ & _ & _ & _ & _ & H)].
    - rewrite H in Hchanged. now contradiction Hchanged.
    - rewrite H. cbv zeta. destruct (_ && _); reflexivity. }
  split; [exact Hlast|].
  intros Hsoon. apply Hgate. rewrite Hlast.
  pose proof (updateInterval_least
                (updateFrequency (navigationReducer env s updateEta))). lia.
Qed.

Lemma updateEta_cadence_witness :
  navigationReducer testEnv nearState updateEta <> nearState /\
  now (envAt 105000) - now testEnv < 10000 /\
  dispatch (envAt 105000) (navigationReducer testEnv nearState updateEta) updateEta =
  (navigationReducer testEnv nearState updateEta, []).
Proof.
  assert (H : navigationReducer testEnv nearState updateEta <> nearState).
  { intros Heq. apply (f_equal lastEtaUpdate) in Heq. vm_compute in Heq.
    discriminate Heq. }
  split; [exact H|]. split; [reflexivity|].
  apply (proj2 (updateEta_cadence testEnv (envAt 105000) nearState) H).
  reflexivity.
Defined.

Lemma platform_mobile env :
  (String.eqb (platformOS env) "ios" || String.eqb (platformOS env) "android") = true <->
  (platformOS env = "ios" \/ platformOS env = "android")%string.
Proof. rewrite orb_true_iff, !String.eqb_eq. reflexivity. Qed.

(** What [updateEta] says.  It hands the speech engine at most one sentence,
    and only with voice enabled on iOS or Android; the sentence is the
    announcement of the snapshot it stores, and that snapshot is stamped
    with the time of the update.  With voice disabled nothing is said and
    the stamp of the previous snapshot is carried over.  With voice enabled
    the first snapshot is always stamped, and announced on iOS and Android. *)
Theorem updateEta_speech env s :
  let s' := fst (dispatch env s updateEta) in
  let spoken := snd (dispatch env s updateEta) in
  (length spoken <= 1)%nat /\
  (spoken <> [] ->
   voiceEnabled s = true /\
   (platformOS env = "ios" \/ platformOS env = "android")%string /\
   exists eta,
     currentEta s' = Some eta /\
     EtaState.lastVoiceAnnouncement eta = Some (now env) /\
     spoken = [announcement eta (EtaState.isOffRoute eta)]) /\
  (voiceEnabled s = false ->
   spoken = [] /\
   (s' <> s ->
    exists eta,
      currentEta s' = Some eta /\
      EtaState.lastVoiceAnnouncement eta =
      match currentEta s with
      | Some previous => EtaState.lastVoiceAnnouncement previous
      | None => None
      end)) /\
  (voiceEnabled s = true -> currentEta s = None -> s' <> s ->
   exists eta,
     currentEta s' = Some eta /\
     EtaState.lastVoiceAnnouncement eta = Some (now env) /\
     ((platformOS env = "ios" \/ platformOS env = "android")%string ->
      spoken = [announcement eta (EtaState.isOffRoute eta)])).
Proof.
  cbv zeta. simpl.
  destruct (updateEta_cases env s)
    as [H | (r & loc & v & status & _ & _ & _ & _ & _ & _ & H)]; rewrite H.
  - simpl. repeat split; try lia; try congruence; intros; congruence.
  - cbv zeta. set (newEta := etaSnapshot env s v status).
    destruct (voiceEnabled s) eqn:Evoice; simpl.
    + destruct (shouldAnnounceEta (nowAnnounce env) (currentEta s) newEta) eqn:Eshould;
        simpl.
      * unfold announceEta.
        destruct (String.eqb (platformOS env) "ios" || String.eqb (platformOS env) "android")
          eqn:Eplat; simpl.
        -- apply platform_mobile in Eplat.
           split; [lia|]. split; [|split; [discriminate|]].
           ++ intros _. split; [reflexivity|]. split; [exact Eplat|].
              eexists. split; [reflexivity|]. split; reflexivity.
           ++ intros _ _ _. eexists. split; [reflexivity|]. split; [reflexivity|].
              intros _. reflexivity.
        -- split; [lia|]. split; [congruence|]. split; [discriminate|].
           intros _ _ _. eexists. split; [reflexivity|]. split; [reflexivity|].
           intros Hp. apply platform_mobile in Hp. congruence.
      * split; [lia|]. split; [congruence|]. split; [discriminate|].
        intros _ Hnone _. rewrite Hnone in Eshould. discriminate Eshould.
    + split; [lia|]. split; [congruence|]. split; [|discriminate].
      intros _. split; [reflexivity|]. intros _.
      eexists. split; [reflexivity|]. reflexivity.
Qed.

Lemma updateEta_speech_witness :
  voiceEnabled nearState = true /\ currentEta nearState = None /\
  fst (dispatch testEnv nearState updateEta) <> nearState /\
  exists eta,
    currentEta (fst (dispatch testEnv nearState updateEta)) = Some eta /\
    EtaState.lastVoiceAnnouncement eta = Some (now testEnv) /\
    snd (dispatch testEnv nearState updateEta) =
    [announcement eta (EtaState.isOffRoute eta)].
Proof.
  assert (H : fst (dispatch testEnv nearState updateEta) <> nearState).
  { intros Heq. apply (f_equal lastEtaUpdate) in Heq. vm_compute in Heq.
    discriminate Heq. }
  split; [reflexivity|]. split; [reflexivity|]. split; [exact H|].
  destruct (proj2 (proj2 (proj2 (updateEta_speech testEnv nearState)))
              eq_refl eq_refl H) as (eta & Heta & Hstamp & Hspoken).
  exists eta. split; [exact Heta|]. split; [exact Hstamp|].
  apply Hspoken. now left.
Defined.

Lemma remainingDistance_nonnegative env currentLocation polyline status :
  nonnegativeDistance env ->
  calculateRouteStatus env currentLocation polyline = Some status ->
  (0 <= RouteStatus.remainingDistance status)%Q.
Proof.
  intros Hd Hstatus. unfold calculateRouteStatus in Hstatus.
  destruct (length _ <? 2)%nat; [discriminate|].
  destruct (closestScan _ _ _ _ _ _) as [minDistance closestIndex].
  injection Hstatus as <-. cbn [RouteStatus.remainingDistance].
  rewrite remainingLoop_pathLength, Qplus_0_l. now apply pathLength_nonnegative.
Qed.

Lemma getTrafficDelay_cases env distance timestamp :
  (rushHour (getHours env timestamp) /\
   getTrafficDelay env distance timestamp == distance / 250) \/
  (~ rushHour (getHours env timestamp) /\
   getTrafficDelay env distance timestamp = 0%Q).
Proof.
  unfold getTrafficDelay, rushHour.
  destruct (Z.leb_spec 7 (getHours env timestamp)),
           (Z.leb_spec (getHours env timestamp) 9),
           (Z.leb_spec 16 (getHours env timestamp)),
           (Z.leb_spec (getHours env timestamp) 18); simpl;
    first [ left; split; [lia | field] | right; split; [lia | reflexivity] ].
Qed.

(** The traffic heuristic: a fifth of the distance at 50 m/s, that is the
    distance over 250, in the hours 7 to 9 and 16 to 18, and nothing at
    other hours.  The delay passes the 300 s that make it worth a mention
    only in those hours and only with more than 75 km to go. *)
Theorem getTrafficDelay_threshold env distance timestamp :
  (rushHour (getHours env timestamp) ->
   getTrafficDelay env distance timestamp == distance / 250) /\
  (~ rushHour (getHours env timestamp) ->
   getTrafficDelay env distance timestamp == 0) /\
  ((300 < getTrafficDelay env distance timestamp)%Q <->
   rushHour (getHours env timestamp) /\ (75000 < distance)%Q).
Proof.
  destruct (getTrafficDelay_cases env distance timestamp) as [[Hrush H] | [Hcalm H]].
  - split; [intros _; exact H|]. split; [intros Hn; contradiction|].
    rewrite H. split.
    + intros Hlt. split; [exact Hrush|].
      unfold Qdiv in Hlt. change (/ 250)%Q with (1 # 250) in Hlt. lra.
    + intros [_ Hfar]. unfold Qdiv. change (/ 250)%Q with (1 # 250). lra.
  - split; [intros Hr; contradiction|]. split; [intros _; now rewrite H|].
    rewrite H. split; [intros Hlt; discriminate Hlt | intros [Hr _]; contradiction].
Qed.

Lemma getTrafficDelay_threshold_witness :
  rushHour (getHours (envAt 0) (8 * 3600000)) /\
  getTrafficDelay (envAt 0) 80000 (8 * 3600000) == 80000 / 250 /\
  (300 < getTrafficDelay (envAt 0) 80000 (8 * 3600000))%Q.
Proof.
  assert (Hrush : rushHour (getHours (envAt 0) (8 * 3600000)))
    by (left; vm_compute; split; discriminate).
  destruct (getTrafficDelay_threshold (envAt 0) 80000 (8 * 3600000))
    as (Hvalue & _ & Hmention).
  split; [exact Hrush|]. split; [exact (Hvalue Hrush)|].
  apply Hmention. split; [exact Hrush | reflexivity].
Defined.

Lemma getTrafficDelay_nonnegative env distance timestamp :
  (0 <= distance)%Q -> (0 <= getTrafficDelay env distance timestamp)%Q.
Proof.
  intros Hd.
  destruct (getTrafficDelay_cases env distance timestamp) as [[_ H] | [_ H]];
    rewrite H; [|apply Qle_refl].
  unfold Qdiv. change (/ 250)%Q with (1 # 250). lra.
Qed.

Lemma etaSnapshot_arithmetic env s v status :
  (0 < v)%Q -> (0 <= RouteStatus.remainingDistance status)%Q ->
  let eta := etaSnapshot env s v status in
  EtaState.timestamp eta == inject_Z (now env) + EtaState.value eta * 1000 /\
  exists delay,
    EtaState.trafficDelay eta = Some delay /\
    (0 <= delay <= EtaState.value eta)%Q /\
    (inject_Z (now env) <= EtaState.timestamp eta)%Q.
Proof.
  intros Hv Hrem. cbv zeta. unfold etaSnapshot.
  cbn [EtaState.timestamp EtaState.value EtaState.trafficDelay].
  set (remaining := RouteStatus.remainingDistance status) in *.
  set (delay := getTrafficDelay env remaining (now env)).
  assert (Hdelay : (0 <= delay)%Q) by now apply getTrafficDelay_nonnegative.
  assert (Hbase : (0 <= remaining / (v * (2237 # 1000)) * 3600)%Q).
  { apply Qmult_le_0_compat; [|discriminate].
    unfold Qdiv. apply Qmult_le_0_compat; [exact Hrem|].
    apply Qlt_le_weak, Qinv_lt_0_compat. lra. }
  split; [reflexivity|].
  exists delay. split; [reflexivity|]. split; lra.
Qed.



(** ** The texts *)

Lemma Math_round_below_1 x : Math_round x < 1 <-> (x < 1 # 2)%Q.
Proof.
  unfold Math_round.
  pose proof (Qfloor_le (x + (1 # 2))) as Hle.
  pose proof (Qlt_floor (x + (1 # 2))) as Hlt.
  split; intros H.
  - assert (Hz : (inject_Z (Qfloor (x + (1 # 2)) + 1) <= 1)%Q).
    { change 1%Q with (inject_Z 1). rewrite <- Zle_Qle. lia. }
    lra.
  - assert (Hz : (inject_Z (Qfloor (x + (1 # 2))) < inject_Z 1)%Q)
      by (change (inject_Z 1) with 1%Q; lra).
    now rewrite <- Zlt_Qlt in Hz.
Qed.

Lemma Math_round_above x n : (inject_Z n - (1 # 2) <= x)%Q -> n <= Math_round x.
Proof.
  intros H. unfold Math_round.
  rewrite <- (Qfloor_Z n). apply Qfloor_resp_le. lra.
Qed.

(** The ETA text.  It reads "Arriving now" exactly when less than 30 s
    remain; below an hour it counts minutes; from an hour on it counts
    hours and the minutes left over, fewer than 60.  The traffic clause is
    added exactly when the delay is above 300 s, so that it never mentions
    less than 5 minutes. *)
Theorem formatEta_text now timestamp :
  let minutes := Math_round ((timestamp - inject_Z now) / 60000) in
  ((timestamp - inject_Z now < 30000)%Q <->
   formatEta now timestamp None = "Arriving now"%string) /\
  (1 <= minutes < 60 ->
   formatEta now timestamp None =
   ("Arriving in " ++ showZ minutes ++ " min")%string) /\
  (60 <= minutes ->
   exists hours remainingMinutes,
     minutes = 60 * hours + remainingMinutes /\
     1 <= hours /\ 0 <= remainingMinutes < 60 /\
     formatEta now timestamp None =
     ("Arriving in " ++ showZ hours ++ "h " ++ showZ remainingMinutes ++ "m")%string) /\
  (forall delay,
     (delay <= 300)%Q ->
     formatEta now timestamp (Some delay) = formatEta now timestamp None) /\
  (forall delay,
     (300 < delay)%Q ->
     5 <= Math_round (delay / 60) /\
     formatEta now timestamp (Some delay) =
     (formatEta now timestamp None ++ " (" ++ showZ (Math_round (delay / 60)) ++
      " min delay due to traffic)")%string).
Proof.
  cbv zeta. set (minutes := Math_round ((timestamp - inject_Z now) / 60000)).
  assert (Hnow : minutes < 1 <-> (timestamp - inject_Z now < 30000)%Q).
  { unfold minutes. rewrite Math_round_below_1. unfold Qdiv.
    change (/ 60000)%Q with (1 # 60000). split; intros H; lra. }
  split; [|split; [|split; [|split]]].
  - unfold formatEta. fold minutes. rewrite <- Hnow.
    destruct (Z.ltb_spec minutes 1) as [Hlt | Hge].
    + split; [reflexivity | intros _; exact Hlt].
    + split; [lia|]. destruct (minutes <? 60); simpl; discriminate.
  - intros [Hlo Hhi]. unfold formatEta. fold minutes.
    destruct (Z.ltb_spec minutes 1); [lia|].
    destruct (Z.ltb_spec minutes 60); [reflexivity | lia].
  - intros Hge. unfold formatEta. fold minutes.
    destruct (Z.ltb_spec minutes 1); [lia|].
    destruct (Z.ltb_spec minutes 60); [lia|].
    exists (minutes / 60), (Z.rem minutes 60).
    rewrite Z.rem_mod_nonneg by lia.
    pose proof (Z.div_mod minutes 60 ltac:(lia)).
    pose proof (Z.mod_pos_bound minutes 60 ltac:(lia)).
    assert (1 <= minutes / 60) by (apply Z.div_le_lower_bound; lia).
    repeat split; try lia; reflexivity.
  - intros delay Hsmall. unfold formatEta. fold minutes.
    replace (Qlt_bool 300 delay) with false
      by (symmetry; now apply Qlt_bool_false_iff).
    now rewrite andb_false_r.
  - intros delay Hlarge. split.
    + apply Math_round_above. unfold Qdiv. change (/ 60)%Q with (1 # 60).
      change (inject_Z 5) with 5%Q. lra.
    + unfold formatEta. fold minutes.
      replace (Qlt_bool 300 delay) with true
        by (symmetry; now apply Qlt_bool_iff).
      replace (truthyNumber (Some delay)) with true; [reflexivity|].
      symmetry. apply truthyNumber_Some. intros Hz. rewrite Hz in Hlarge.
      discriminate Hlarge.
Qed.

Lemma formatEta_text_witness :
  60 <= Math_round ((5400000 - inject_Z 0) / 60000) /\
  (300 < 360)%Q /\
  formatEta 0 5400000 (Some 360%Q) =
  ("Arriving in 1h 30m" ++ " (" ++ showZ 6 ++ " min delay due to traffic)")%string.
Proof.
  split; [vm_compute; discriminate|]. split; [reflexivity|].
  destruct (formatEta_text 0 5400000) as (_ & _ & _ & _ & Hdelay).
  destruct (Hdelay 360%Q eq_refl) as [_ ->]. reflexivity.
Defined.

(** ** The directions service: texts *)

Lemma hasGreaterThan_app b c : hasGreaterThan (b ++ String ">" c) = true.
Proof.
  induction b as [|x b IH]; simpl.
  - reflexivity.
  - rewrite IH. apply orb_true_r.
Qed.

Lemma hasGreaterThan_split s :
  hasGreaterThan s = true -> exists b c, s = (b ++ ">" ++ c)%string.
Proof.
  induction s as [|x s IH]; simpl; [discriminate|].
  intros H. unfold isGreaterThan in H.
  destruct (Ascii.eqb_spec x ">") as [->|Hx].
  - exists EmptyString, s. reflexivity.
  - simpl in H. destruct (IH H) as (b & c & ->).
    exists (String x b), c. reflexivity.
Qed.

Lemma stripFrom_hasGreaterThan s :
  hasGreaterThan s = false ->
  forall inTag, hasGreaterThan (stripFrom inTag s) = false.
Proof.
  induction s as [|x s IH]; simpl; intros H inTag.
  - reflexivity.
  - apply orb_false_iff in H. destruct H as [Hx Hs].
    destruct inTag.
    + rewrite Hx. now apply IH.
    + rewrite Hs, andb_false_r. simpl. rewrite Hx. now apply IH.
Qed.

Lemma stripFrom_tagFree s :
  forall inTag, ~ hasTag (stripFrom inTag s).
Proof.
  induction s as [|x s IH]; simpl; intros inTag (a & b & c & H).
  - destruct a; discriminate.
  - destruct inTag.
    + destruct (isGreaterThan x); eapply IH; exists a, b, c; exact H.
    + destruct (isLessThan x && hasGreaterThan s) eqn:E.
      * eapply IH. exists a, b, c. exact H.
      * destruct a as [|y a]; simpl in H.
        -- injection H as Hx Hrest. subst x. simpl in E.
           pose proof (stripFrom_hasGreaterThan s E false) as Hnone.
           rewrite Hrest, hasGreaterThan_app in Hnone. discriminate.
        -- injection H as _ Hrest. eapply IH. exists a, b, c. exact Hrest.
Qed.

Lemma stripFrom_without_tag s : ~ hasTag s -> stripFrom false s = s.
Proof.
  induction s as [|x s IH]; simpl; intros H.
  - reflexivity.
  - destruct (isLessThan x && hasGreaterThan s) eqn:E.
    + exfalso. apply andb_true_iff in E. destruct E as [Hx Hs].
      unfold isLessThan in Hx. apply Ascii.eqb_eq in Hx. subst x.
      destruct (hasGreaterThan_split s Hs) as (b & c & ->).
      apply H. exists EmptyString, b, c. reflexivity.
    + f_equal. apply IH. intros (a & b & c & ->).
      apply H. exists (String x a), b, c. reflexivity.
Qed.

Lemma stripFrom_length s :
  forall inTag, (String.length (stripFrom inTag s) <= String.length s)%nat.
Proof.
  induction s as [|x s IH]; simpl; intros inTag.
  - lia.
  - destruct inTag.
    + destruct (isGreaterThan x); [specialize (IH false) | specialize (IH true)]; lia.
    + destruct (isLessThan x && hasGreaterThan s); simpl;
        [specialize (IH true) | specialize (IH false)]; lia.
Qed.

Lemma stripFrom_inside b c :
  hasGreaterThan b = false ->
  stripFrom true (b ++ String ">" c) = stripFrom false c.
Proof.
  induction b as [|x b IH]; simpl; intros H.
  - reflexivity.
  - apply orb_false_iff in H. destruct H as [Hx Hb].
    rewrite Hx. now apply IH.
Qed.

(** What [replace(/<[^>]*>/g, '')] leaves: what comes
    out holds no tag, so that stripping again changes nothing; a text
    without a tag comes out as it is; nothing is added; and a tag that
    follows a text without [<] is cut out, the text before it being kept
    and the text after it stripped in turn. *)
Theorem stripTags_removes_tags s :
  ~ hasTag (stripTags s) /\
  stripTags (stripTags s) = stripTags s /\
  (~ hasTag s -> stripTags s = s) /\
  (String.length (stripTags s) <= String.length s)%nat /\
  (forall a b c,
     s = (a ++ "<" ++ b ++ ">" ++ c)%string ->
     hasLessThan a = false -> hasGreaterThan b = false ->
     stripTags s = (a ++ stripTags c)%string).
Proof.
  unfold stripTags.
  split; [apply stripFrom_tagFree|].
  split; [apply stripFrom_without_tag, stripFrom_tagFree|].
  split; [apply stripFrom_without_tag|].
  split; [apply stripFrom_length|].
  intros a b c -> Ha Hb.
  induction a as [|x a IH]; simpl.
  - rewrite hasGreaterThan_app. simpl. now apply stripFrom_inside.
  - simpl in Ha. apply orb_false_iff in Ha. destruct Ha as [Hx Ha].
    rewrite Hx. simpl. f_equal. now apply IH.
Qed.

Lemma stripTags_removes_tags_witness :
  ~ hasTag "Turn left" /\
  stripTags "Turn left" = "Turn left"%string /\
  stripTags "Turn <b>left</b> onto <b>Main St</b>"
  = ("Turn " ++ stripTags "left</b> onto <b>Main St</b>")%string.
Proof.
  assert (Hplain : ~ hasTag "Turn left").
  { intros (a & b & c & H).
    assert (Hnone : hasGreaterThan "Turn left" = false) by reflexivity.
    rewrite H in Hnone.
    change (a ++ "<" ++ b ++ ">" ++ c)%string
      with (a ++ String "<" (b ++ ">" ++ c))%string in Hnone.
    clear H. induction a as [|x a IH]; simpl in Hnone.
    - rewrite hasGreaterThan_app in Hnone. discriminate.
    - apply orb_false_iff in Hnone. tauto. }
  split; [exact Hplain|].
  split.
  - apply (stripTags_removes_tags "Turn left"). exact Hplain.
  - apply (stripTags_removes_tags "Turn <b>left</b> onto <b>Main St</b>")
      with (b := "b"%string); reflexivity.
Defined.

Lemma Qtruncate_nonnegative q : (0 <= q)%Q -> Qtruncate q = Qfloor q.
Proof.
  intros H. unfold Qtruncate.
  destruct (Qlt_bool q 0) eqn:E; [|reflexivity].
  apply Qlt_bool_iff in E. lra.
Qed.

Lemma Qfloor_bounds q :
  (inject_Z (Qfloor q) <= q < inject_Z (Qfloor q) + 1)%Q.
Proof.
  pose proof (Qfloor_le q) as Hle.
  pose proof (Qlt_floor q) as Hlt.
  rewrite inject_Z_plus in Hlt. change (inject_Z 1) with 1%Q in Hlt.
  split; assumption.
Qed.

Lemma inject_Z_lt_inv a b : (inject_Z a < inject_Z b + 1)%Q -> a <= b.
Proof.
  intros H.
  assert (Hz : (inject_Z a < inject_Z (b + 1))%Q).
  { rewrite inject_Z_plus. exact H. }
  rewrite <- Zlt_Qlt in Hz. lia.
Qed.

(** The duration text.  For a duration that is not negative, the text
    counts whole hours and the whole minutes left over, fewer than 60, the
    seconds left over being dropped and not rounded; the hours are left out
    exactly when there are none. *)
Theorem formatDuration_text seconds :
  (0 <= seconds)%Q ->
  exists hours minutes,
    0 <= hours /\ 0 <= minutes < 60 /\
    (inject_Z (3600 * hours + 60 * minutes) <= seconds
     < inject_Z (3600 * hours + 60 * minutes) + 60)%Q /\
    formatDuration seconds
    = if hours =? 0
      then (showZ minutes ++ " min")%string
      else (showZ hours ++ " hr " ++ showZ minutes ++ " min")%string.
Proof.
  intros Hseconds.
  unfold formatDuration, remainder.
  assert (Hquot : (0 <= seconds / 3600)%Q).
  { unfold Qdiv. change (/ 3600)%Q with (1 # 3600). lra. }
  rewrite (Qtruncate_nonnegative _ Hquot).
  set (hours := Qfloor (seconds / 3600)).
  set (minutes := Qfloor ((seconds - 3600 * inject_Z hours) / 60)).
  pose proof (Qfloor_bounds (seconds / 3600)) as Hh.
  pose proof (Qfloor_bounds ((seconds - 3600 * inject_Z hours) / 60)) as Hm.
  fold hours in Hh. fold minutes in Hm.
  unfold Qdiv in Hh, Hm.
  change (/ 3600)%Q with (1 # 3600) in Hh.
  change (/ 60)%Q with (1 # 60) in Hm.
  assert (Hh0 : 0 <= hours).
  { apply inject_Z_lt_inv. change (inject_Z 0) with 0%Q. lra. }
  assert (Hm0 : 0 <= minutes).
  { apply inject_Z_lt_inv. change (inject_Z 0) with 0%Q. lra. }
  assert (Hm60 : minutes <= 59).
  { apply inject_Z_lt_inv. change (inject_Z 59) with 59%Q. lra. }
  exists hours, minutes.
  split; [exact Hh0|]. split; [lia|].
  split.
  - rewrite inject_Z_plus, !inject_Z_mult.
    change (inject_Z 3600) with 3600%Q. change (inject_Z 60) with 60%Q.
    lra.
  - destruct (Z.eqb_spec hours 0) as [E|E].
    + rewrite E. reflexivity.
    + destruct (Z.ltb_spec 0 hours); [reflexivity|lia].
Qed.

Lemma formatDuration_text_witness :
  (0 <= 5025)%Q /\
  exists hours minutes,
    0 <= hours /\ 0 <= minutes < 60 /\
    (inject_Z (3600 * hours + 60 * minutes) <= 5025
     < inject_Z (3600 * hours + 60 * minutes) + 60)%Q /\
    formatDuration 5025
    = if hours =? 0
      then (showZ minutes ++ " min")%string
      else (showZ hours ++ " hr " ++ showZ minutes ++ " min")%string.
Proof.
  assert (H : (0 <= 5025)%Q) by (vm_compute; discriminate).
  split; [exact H|]. exact (formatDuration_text 5025 H).
Defined.

Lemma append_associative (a b c : string) :
  ((a ++ b) ++ c = a ++ b ++ c)%string.
Proof.
  induction a as [|x a IH]; simpl; [reflexivity|]. now rewrite IH.
Qed.

(** *** Doubles *)

Lemma roundHalfEven_bounds x :
  (inject_Z (roundHalfEven x) - (1 # 2) <= x
   <= inject_Z (roundHalfEven x) + (1 # 2))%Q.
Proof.
  unfold roundHalfEven.
  pose proof (Qfloor_bounds x) as Hfloor.
  destruct (Qcompare (x - inject_Z (Qfloor x)) (1 # 2)) eqn:E.
  - apply Qeq_alt in E.
    destruct (Z.even (Qfloor x));
      [|rewrite inject_Z_plus; change (inject_Z 1) with 1%Q]; lra.
  - apply Qlt_alt in E. lra.
  - apply Qgt_alt in E.
    rewrite inject_Z_plus. change (inject_Z 1) with 1%Q. lra.
Qed.

Lemma roundHalfEven_comp x y : x == y -> roundHalfEven x = roundHalfEven y.
Proof.
  intros H. unfold roundHalfEven.
  assert (Hfloor : Qfloor x = Qfloor y) by now rewrite H.
  rewrite Hfloor.
  assert (Hcompare : Qcompare (x - inject_Z (Qfloor y)) (1 # 2)
                     = Qcompare (y - inject_Z (Qfloor y)) (1 # 2))
    by now rewrite H.
  now rewrite Hcompare.
Qed.

Lemma roundHalfEven_le x y :
  (x <= y)%Q -> roundHalfEven x <= roundHalfEven y.
Proof.
  intros Hle.
  destruct (Z.le_gt_cases (roundHalfEven x) (roundHalfEven y)) as [|Hgt];
    [assumption|].
  pose proof (roundHalfEven_bounds x) as Hx.
  pose proof (roundHalfEven_bounds y) as Hy.
  assert (Hz : (inject_Z (roundHalfEven y) + 1 <= inject_Z (roundHalfEven x))%Q).
  { change 1%Q with (inject_Z 1). rewrite <- inject_Z_plus, <- Zle_Qle. lia. }
  assert (Heq : x == y) by lra.
  apply roundHalfEven_comp in Heq. lia.
Qed.

Lemma roundHalfEven_inject_Z n : roundHalfEven (inject_Z n) = n.
Proof.
  unfold roundHalfEven. rewrite Qfloor_Z.
  destruct (Qcompare (inject_Z n - inject_Z n) (1 # 2)) eqn:E.
  - apply Qeq_alt in E. lra.
  - reflexivity.
  - apply Qgt_alt in E. lra.
Qed.

Lemma pow2_pos e : (0 < 2 ^ e)%Q.
Proof. apply Qpower_0_lt. reflexivity. Qed.

Lemma pow2_le a b : a <= b -> (2 ^ a <= 2 ^ b)%Q.
Proof. intros H. apply Qpower_le_compat_l; [exact H|discriminate]. Qed.

Lemma pow2_lt a b : a < b -> (2 ^ a < 2 ^ b)%Q.
Proof. intros H. apply Qpower_lt_compat_l; [exact H|reflexivity]. Qed.

Lemma pow2_Z k : 0 <= k -> (2 ^ k == inject_Z (2 ^ k))%Q.
Proof. intros H. now rewrite Zpower_Qpower. Qed.

Lemma pow2_succ a : (2 ^ (a + 1) == 2 * 2 ^ a)%Q.
Proof.
  rewrite Qpower_plus by discriminate. rewrite Qpower_1_r. ring.
Qed.

Lemma pow2_minus a b : (2 ^ (a - b) * 2 ^ b == 2 ^ a)%Q.
Proof.
  rewrite <- Qpower_plus by discriminate. now replace (a - b + b) with a by lia.
Qed.

Lemma binade_spec x :
  (0 < x)%Q -> (2 ^ binade x <= x < 2 ^ (binade x + 1))%Q.
Proof.
  intros Hx. unfold binade.
  set (a := Z.log2 (Qnum x)). set (b := Z.log2 (Z.pos (Qden x))).
  assert (Hn : 0 < Qnum x).
  { unfold Qlt in Hx. simpl in Hx. lia. }
  destruct (Z.log2_spec (Qnum x) Hn) as [Ha1 Ha2]. fold a in Ha1, Ha2.
  destruct (Z.log2_spec (Z.pos (Qden x)) ltac:(lia)) as [Hb1 Hb2].
  fold b in Hb1, Hb2.
  pose proof (Z.log2_nonneg (Qnum x)) as Ha0. fold a in Ha0.
  pose proof (Z.log2_nonneg (Z.pos (Qden x))) as Hb0. fold b in Hb0.
  assert (HA1 : (2 ^ a <= inject_Z (Qnum x))%Q).
  { rewrite pow2_Z by lia. now rewrite <- Zle_Qle. }
  assert (HA2 : (inject_Z (Qnum x) < 2 * 2 ^ a)%Q).
  { rewrite <- pow2_succ, pow2_Z by lia. now rewrite <- Zlt_Qlt. }
  assert (HB1 : (2 ^ b <= inject_Z (Z.pos (Qden x)))%Q).
  { rewrite pow2_Z by lia. now rewrite <- Zle_Qle. }
  assert (HB2 : (inject_Z (Z.pos (Qden x)) < 2 * 2 ^ b)%Q).
  { rewrite <- pow2_succ, pow2_Z by lia. now rewrite <- Zlt_Qlt. }
  assert (Hdiv : x * inject_Z (Z.pos (Qden x)) == inject_Z (Qnum x)).
  { destruct x as [n d]. unfold Qeq. simpl. rewrite Pos.mul_1_r. ring. }
  pose proof (pow2_minus a b) as Hl.
  pose proof (pow2_pos a) as Hpa. pose proof (pow2_pos b) as Hpb.
  pose proof (pow2_pos (a - b)) as Hpl.
  set (N := inject_Z (Qnum x)) in *. set (D := inject_Z (Z.pos (Qden x))) in *.
  set (A := (2 ^ a)%Q) in *. set (B := (2 ^ b)%Q) in *.
  set (L := (2 ^ (a - b))%Q) in *.
  assert (Hlow : (L < 2 * x)%Q) by nra.
  assert (Hhigh : (x < 2 * L)%Q) by nra.
  destruct (Qlt_bool x L) eqn:E.
  - apply Qlt_bool_iff in E.
    replace (a - b - 1 + 1) with (a - b) by lia. fold L.
    split; [|exact E].
    assert (Hhalf : (2 * 2 ^ (a - b - 1) == L)%Q).
    { rewrite <- pow2_succ. now replace (a - b - 1 + 1) with (a - b) by lia. }
    lra.
  - apply Qlt_bool_false_iff in E. fold L.
    split; [exact E|]. rewrite pow2_succ. fold L. exact Hhigh.
Qed.

Lemma binade_le x y : (0 < x)%Q -> (x <= y)%Q -> binade x <= binade y.
Proof.
  intros Hx Hxy.
  destruct (Z.le_gt_cases (binade x) (binade y)) as [|Hgt]; [assumption|].
  pose proof (binade_spec x Hx) as [Hlow _].
  pose proof (binade_spec y ltac:(lra)) as [_ Hhigh].
  pose proof (pow2_le (binade y + 1) (binade x) ltac:(lia)). lra.
Qed.

Lemma nearestDouble_positive x :
  (0 < x)%Q ->
  nearestDouble x
  = (inject_Z (roundHalfEven (x / 2 ^ exponentOf x)) * 2 ^ exponentOf x)%Q.
Proof.
  intros Hx. destruct x as [[|p|p] d]; try discriminate Hx.
  reflexivity.
Qed.

Lemma nearestDouble_zero x : x == 0 -> nearestDouble x = 0%Q.
Proof.
  intros Hx. unfold nearestDouble.
  apply Qeq_bool_iff in Hx. now rewrite Hx.
Qed.

Lemma scaled_le x c n :
  (0 < c)%Q -> (x <= inject_Z n * c)%Q ->
  (inject_Z (roundHalfEven (x / c)) * c <= inject_Z n * c)%Q.
Proof.
  intros Hc Hx.
  assert (Hdiv : (x / c <= inject_Z n)%Q) by now apply Qle_shift_div_r.
  apply roundHalfEven_le in Hdiv. rewrite roundHalfEven_inject_Z in Hdiv.
  rewrite Zle_Qle in Hdiv. nra.
Qed.

Lemma scaled_ge x c n :
  (0 < c)%Q -> (inject_Z n * c <= x)%Q ->
  (inject_Z n * c <= inject_Z (roundHalfEven (x / c)) * c)%Q.
Proof.
  intros Hc Hx.
  assert (Hdiv : (inject_Z n <= x / c)%Q) by now apply Qle_shift_div_l.
  apply roundHalfEven_le in Hdiv. rewrite roundHalfEven_inject_Z in Hdiv.
  rewrite Zle_Qle in Hdiv. nra.
Qed.

Lemma nearestDouble_nonnegative x : (0 <= x)%Q -> (0 <= nearestDouble x)%Q.
Proof.
  intros Hx. destruct (Qeq_dec x 0) as [Hzero|Hnonzero].
  - rewrite (nearestDouble_zero x Hzero). lra.
  - assert (Hpos : (0 < x)%Q).
    { apply Qle_lteq in Hx. destruct Hx as [|Heq]; [assumption|].
      now symmetry in Heq. }
    rewrite (nearestDouble_positive x Hpos).
    pose proof (pow2_pos (exponentOf x)) as Hc.
    pose proof (scaled_ge x (2 ^ exponentOf x) 0 Hc) as Hge.
    change (inject_Z 0) with 0%Q in Hge. lra.
Qed.

(** Rounding to the nearest double keeps the order. *)
Lemma nearestDouble_le x y :
  (0 <= x)%Q -> (x <= y)%Q -> (nearestDouble x <= nearestDouble y)%Q.
Proof.
  intros Hx Hxy. destruct (Qeq_dec x 0) as [Hzero|Hnonzero].
  { rewrite (nearestDouble_zero x Hzero).
    apply nearestDouble_nonnegative. lra. }
  assert (Hpos : (0 < x)%Q).
  { apply Qle_lteq in Hx. destruct Hx as [|Heq]; [assumption|].
    now symmetry in Heq. }
  assert (Hposy : (0 < y)%Q) by lra.
  rewrite (nearestDouble_positive x Hpos), (nearestDouble_positive y Hposy).
  pose proof (binade_le x y Hpos Hxy) as Hbinade.
  pose proof (binade_spec x Hpos) as [_ Hxhigh].
  pose proof (binade_spec y Hposy) as [Hylow _].
  unfold exponentOf.
  set (ex := Z.max (binade x - 52) (-1074)).
  set (ey := Z.max (binade y - 52) (-1074)).
  pose proof (pow2_pos ex) as Hcx. pose proof (pow2_pos ey) as Hcy.
  destruct (Z.eq_dec ex ey) as [Hsame|Hdiffer].
  - rewrite Hsame.
    assert (Hdiv : (x / 2 ^ ey <= y / 2 ^ ey)%Q).
    { apply Qle_shift_div_l; [assumption|].
      unfold Qdiv. rewrite <- Qmult_assoc, (Qmult_comm (/ 2 ^ ey)), Qmult_inv_r; lra. }
    apply roundHalfEven_le in Hdiv. rewrite Zle_Qle in Hdiv. nra.
  - assert (Hey : ey = binade y - 52) by lia.
    assert (Hbelow : binade x + 1 <= binade y) by lia.
    set (T := (2 ^ binade y)%Q).
    assert (HT : (x <= T)%Q).
    { pose proof (pow2_le (binade x + 1) (binade y) Hbelow). unfold T. lra. }
    assert (Hx' : (x <= inject_Z (2 ^ (binade y - ex)) * 2 ^ ex)%Q).
    { rewrite <- pow2_Z by lia. rewrite pow2_minus. exact HT. }
    assert (Hy' : (inject_Z (2 ^ 52) * 2 ^ ey <= y)%Q).
    { rewrite <- pow2_Z by lia. rewrite Hey.
      rewrite <- Qpower_plus by discriminate.
      replace (52 + (binade y - 52)) with (binade y) by lia. exact Hylow. }
    apply (scaled_le x _ _ Hcx) in Hx'.
    apply (scaled_ge y _ _ Hcy) in Hy'.
    assert (Hmid : (inject_Z (2 ^ (binade y - ex)) * 2 ^ ex
                    == inject_Z (2 ^ 52) * 2 ^ ey)%Q).
    { rewrite <- !pow2_Z by lia. rewrite pow2_minus, Hey.
      rewrite <- Qpower_plus by discriminate.
      now replace (52 + (binade y - 52)) with (binade y) by lia. }
    lra.
Qed.

(** Rounding to the nearest double moves a number by at most one part in
    2^53 = 9007199254740992, or by 2^-1075 where doubles are subnormal. *)
Lemma nearestDouble_error x :
  (0 <= x)%Q ->
  (Qabs (nearestDouble x - x) <= x * (1 # 9007199254740992) + 2 ^ (-1075))%Q.
Proof.
  intros Hx.
  pose proof (pow2_pos (-1075)) as Htiny.
  destruct (Qeq_dec x 0) as [Hzero|Hnonzero].
  { rewrite (nearestDouble_zero x Hzero). apply Qabs_Qle_condition. lra. }
  assert (Hpos : (0 < x)%Q).
  { apply Qle_lteq in Hx. destruct Hx as [|Heq]; [assumption|].
    now symmetry in Heq. }
  rewrite (nearestDouble_positive x Hpos).
  pose proof (binade_spec x Hpos) as [Hlow _].
  unfold exponentOf.
  set (e := Z.max (binade x - 52) (-1074)).
  pose proof (pow2_pos e) as Hc.
  pose proof (roundHalfEven_bounds (x / 2 ^ e)) as Hround.
  assert (Hback : x / 2 ^ e * 2 ^ e == x).
  { unfold Qdiv. rewrite <- Qmult_assoc, (Qmult_comm (/ 2 ^ e)), Qmult_inv_r; lra. }
  assert (Hulp : (2 ^ e <= x * (2 # 9007199254740992) + 2 * 2 ^ (-1075))%Q).
  { destruct (Z.max_spec (binade x - 52) (-1074)) as [[_ He]|[_ He]];
      fold e in He; rewrite He.
    - pose proof (pow2_succ (-1075)) as Hnext.
      change (-1075 + 1) with (-1074) in Hnext. lra.
    - pose proof (pow2_minus (binade x) 52) as Hsplit.
      change (2 ^ 52)%Q with 4503599627370496%Q in Hsplit. lra. }
  set (c := (2 ^ e)%Q) in *.
  set (n := inject_Z (roundHalfEven (x / c))) in *.
  set (q := (x / c)%Q) in *.
  apply Qabs_Qle_condition. split; nra.
Qed.

Lemma toDouble_Num x r : toDouble x = Num r -> r = nearestDouble x.
Proof.
  unfold toDouble. destruct (Qle_bool _ _); [discriminate|].
  destruct (Qle_bool _ _); [discriminate|]. now intros [= <-].
Qed.

Lemma toDouble_finite x :
  (- (2 ^ 1024) < nearestDouble x < 2 ^ 1024)%Q ->
  toDouble x = Num (nearestDouble x).
Proof.
  intros [Hlow Hhigh]. unfold toDouble.
  destruct (Qle_bool (2 ^ 1024) (nearestDouble x)) eqn:E1.
  { apply Qle_bool_iff in E1. lra. }
  destruct (Qle_bool (nearestDouble x) (- 2 ^ 1024)) eqn:E2.
  { apply Qle_bool_iff in E2. lra. }
  reflexivity.
Qed.



(** ** The directions service: requests *)

Lemma getDirections_cases net origin waypoints alternatives :
  (exists error,
     getDirections net origin waypoints alternatives
     = Rejected (NavigationErrorOf error) /\
     In (NavigationError.code error) serviceCodes /\
     (truthyText (GOOGLE_MAPS_API_KEY net) = false <->
      NavigationError.code error = "CONFIGURATION_ERROR"%string)) \/
  (truthyText (GOOGLE_MAPS_API_KEY net) = true /\
   ((waypoints = [] /\
     getDirections net origin waypoints alternatives = Resolved []) \/
    (waypoints <> [] /\
     exists url response data routes,
       fetchDirections net url = Resolved response /\
       Response.ok response = true /\
       Response.json response = Resolved data /\
       GoogleDirectionsResponse.status data = "OK"%string /\
       GoogleDirectionsResponse.routes data = Some routes /\
       routes <> [] /\
       getDirections net origin waypoints alternatives
       = Resolved (map (toRoute net) routes)))).
Proof.
  unfold getDirections, throw.
  destruct (truthyText (GOOGLE_MAPS_API_KEY net)) eqn:Ekey; simpl.
  2:{ left. eexists. split; [reflexivity|]. simpl.
      split; [tauto|]. split; reflexivity. }
  destruct waypoints as [|first others].
  { right. split; [reflexivity|]. left. split; reflexivity. }
  assert (Hunknown : forall (error : Foreign),
            exists e : NavigationError.t,
              @Rejected Thrown (list FetchedRoute.t)
                (NavigationErrorOf
                   (NavigationError.mk "Failed to get directions" "UNKNOWN_ERROR"
                      (Some (NavigationError.cause error))))
              = Rejected (NavigationErrorOf e) /\
              In (NavigationError.code e) serviceCodes /\
              (true = false <->
               NavigationError.code e = "CONFIGURATION_ERROR"%string)).
  { intros error. eexists. split; [reflexivity|]. simpl.
    split; [tauto|]. split; discriminate. }
  destruct (allDefined (removelast (first :: others))) as [intermediate|];
    [|left; apply Hunknown].
  destruct (last others first) as [destination|]; [|left; apply Hunknown].
  destruct (fetchDirections net _) as [response|error] eqn:Efetch;
    [|left; apply Hunknown].
  destruct (Response.ok response) eqn:Eok; simpl.
  2:{ left. eexists. split; [reflexivity|]. simpl.
      split; [tauto|]. split; discriminate. }
  destruct (Response.json response) as [data|error] eqn:Ejson;
    [|left; apply Hunknown].
  destruct (String.eqb_spec (GoogleDirectionsResponse.status data) "ZERO_RESULTS")
    as [Ezero|Ezero].
  { left. eexists. split; [reflexivity|]. simpl.
    split; [tauto|]. split; discriminate. }
  destruct (String.eqb_spec (GoogleDirectionsResponse.status data) "OK")
    as [Estatus|Estatus]; simpl.
  2:{ left. eexists. split; [reflexivity|]. simpl.
      split; [tauto|]. split; discriminate. }
  destruct (GoogleDirectionsResponse.routes data) as [[|route routes]|] eqn:Eroutes.
  - left. eexists. split; [reflexivity|]. simpl.
    split; [tauto|]. split; discriminate.
  - right. split; [reflexivity|]. right. split; [discriminate|].
    eexists _, response, data, (route :: routes).
    split; [exact Efetch|]. split; [exact Eok|]. split; [exact Ejson|].
    split; [exact Estatus|]. split; [exact Eroutes|].
    split; [discriminate|reflexivity].
  - left. eexists. split; [reflexivity|]. simpl.
    split; [tauto|]. split; discriminate.
Qed.

(** What [getDirections] settles to.  It rejects with nothing but a
    [NavigationError], whose code is one of five; the code is
    CONFIGURATION_ERROR exactly when the API key is missing or empty, and
    then no request is made whatever the arguments.  With a key, an empty
    list of waypoints gives an empty list of routes, and this is the only
    way to an empty list: with a waypoint the result is never empty. *)
Theorem getDirections_outcomes net origin waypoints alternatives :
  (forall reason,
     getDirections net origin waypoints alternatives = Rejected reason ->
     exists error,
       reason = NavigationErrorOf error /\
       In (NavigationError.code error) serviceCodes /\
       (NavigationError.code error = "CONFIGURATION_ERROR"%string <->
        truthyText (GOOGLE_MAPS_API_KEY net) = false)) /\
  (truthyText (GOOGLE_MAPS_API_KEY net) = false ->
   exists error,
     getDirections net origin waypoints alternatives
     = Rejected (NavigationErrorOf error) /\
     NavigationError.code error = "CONFIGURATION_ERROR"%string) /\
  (forall routes,
     getDirections net origin waypoints alternatives = Resolved routes ->
     truthyText (GOOGLE_MAPS_API_KEY net) = true /\
     (routes = [] <-> waypoints = [])).
Proof.
  destruct (getDirections_cases net origin waypoints alternatives)
    as [(error & Hget & Hcode & Hkey)
       |(Hkey & [(Hnone & Hget)|(Hsome & url & response & data & routes & _ & _ & _ & _ & _ & Hroutes & Hget)])];
    rewrite Hget.
  - split; [|split].
    + intros reason [= <-]. exists error. split; [reflexivity|].
      split; [exact Hcode|]. symmetry. exact Hkey.
    + intros Hmissing. exists error. split; [reflexivity|]. now apply Hkey.
    + discriminate.
  - split; [|split].
    + discriminate.
    + congruence.
    + intros routes [= <-]. split; [exact Hkey|]. tauto.
  - split; [|split].
    + discriminate.
    + congruence.
    + intros found [= <-]. split; [exact Hkey|].
      split; [|tauto].
      intros Hnil. apply map_eq_nil in Hnil. tauto.
Qed.

Lemma getDirections_outcomes_witness :
  truthyText (GOOGLE_MAPS_API_KEY keylessNetwork) = false /\
  (exists error,
     getDirections keylessNetwork sampleLocation
       (map Waypoint.location sampleWaypoints) true
     = Rejected (NavigationErrorOf error) /\
     NavigationError.code error = "CONFIGURATION_ERROR"%string) /\
  (exists routes,
     getDirections testNetwork sampleLocation
       (map Waypoint.location sampleWaypoints) true
     = Resolved routes /\ length routes = 2%nat).
Proof.
  split; [reflexivity|]. split.
  - apply (getDirections_outcomes keylessNetwork sampleLocation
             (map Waypoint.location sampleWaypoints) true).
    reflexivity.
  - eexists. split; [reflexivity|reflexivity].
Defined.

Lemma append_nonempty (a b : string) :
  b <> EmptyString -> (a ++ b)%string <> EmptyString.
Proof.
  intros Hb. destruct a; simpl; [exact Hb|discriminate].
Qed.

Lemma formatDistance_nonempty numberText meters :
  formatDistance numberText meters <> EmptyString.
Proof.
  unfold formatDistance.
  generalize (toDouble (meters * nearestDouble (621371 # 1000000000))).
  intros [miles| | |]; try discriminate.
  destruct (Qlt_bool _ _); [|apply append_nonempty; discriminate].
  generalize (toDouble (miles * 5280)).
  intros [feet| | |]; try discriminate.
  apply append_nonempty. discriminate.
Qed.

Lemma formatDuration_nonempty seconds : formatDuration seconds <> EmptyString.
Proof.
  unfold formatDuration.
  destruct (0 <? _); repeat apply append_nonempty; discriminate.
Qed.

Lemma truthyText_nonempty text :
  text <> EmptyString -> truthyText (Some text) = true.
Proof.
  destruct text; [congruence|reflexivity].
Qed.

Lemma toRoute_texts net route :
  let r := FetchedRoute.route (toRoute net route) in
  (exists steps,
     Route.steps r = Some steps /\
     Forall (fun step => ~ hasTag (RouteStep.instruction step)) steps) /\
  (exists d text,
     Route.distance r = Some d /\ Measure.text d = Some text /\
     text <> EmptyString) /\
  (exists d text,
     Route.duration r = Some d /\ Measure.text d = Some text /\
     text <> EmptyString) /\
  Route.polyline r = Some (ApiRoute.overview_polyline route).
Proof.
  simpl. split; [|split; [|split]].
  - eexists. split; [reflexivity|].
    apply Forall_forall. intros step Hin.
    apply in_map_iff in Hin. destruct Hin as (apiStep & <- & _).
    simpl. apply stripFrom_tagFree.
  - eexists _, _. split; [reflexivity|]. split; [reflexivity|].
    apply formatDistance_nonempty.
  - eexists _, _. split; [reflexivity|]. split; [reflexivity|].
    apply formatDuration_nonempty.
  - reflexivity.
Qed.

Lemma toRoute_Selectable net route :
  Selectable (FetchedRoute.route (toRoute net route))
  <-> usable (FetchedRoute.route (toRoute net route)) = true.
Proof.
  rewrite Selectable_checks. unfold usable.
  cbn [toRoute FetchedRoute.route Route.polyline Route.steps Route.distance
       Route.duration Measure.text isSome].
  rewrite (truthyText_nonempty _ (formatDistance_nonempty _ _)).
  rewrite (truthyText_nonempty _ (formatDuration_nonempty _)).
  rewrite andb_true_r. tauto.
Qed.

(** The routes that [getDirections] returns.  Each has a step list, whose
    instructions hold no tag, and non-empty texts for its distance and its
    duration; so the store accepts its selection exactly when its polyline
    is not empty, which is all that [fetchRoute] and the route selector
    check before they show it. *)
Theorem getDirections_routes net origin waypoints alternatives routes :
  getDirections net origin waypoints alternatives = Resolved routes ->
  Forall
    (fun found =>
       let r := FetchedRoute.route found in
       (exists steps,
          Route.steps r = Some steps /\
          Forall (fun step => ~ hasTag (RouteStep.instruction step)) steps) /\
       (exists d text,
          Route.distance r = Some d /\ Measure.text d = Some text /\
          text <> EmptyString) /\
       (exists d text,
          Route.duration r = Some d /\ Measure.text d = Some text /\
          text <> EmptyString) /\
       (Selectable r <-> usable r = true))
    routes.
Proof.
  intros Hget.
  destruct (getDirections_cases net origin waypoints alternatives)
    as [(error & Hrejected & _)
       |(_ & [(_ & Hnone)|(_ & url & response & data & found & _ & _ & _ & _ & _ & _ & Hfound)])].
  - congruence.
  - rewrite Hnone in Hget. injection Hget as <-. constructor.
  - rewrite Hfound in Hget. injection Hget as <-.
    apply Forall_forall. intros r Hin.
    apply in_map_iff in Hin. destruct Hin as (route & <- & _).
    destruct (toRoute_texts net route) as (Hsteps & Hdistance & Hduration & _).
    split; [exact Hsteps|]. split; [exact Hdistance|].
    split; [exact Hduration|]. apply toRoute_Selectable.
Qed.

Lemma getDirections_routes_witness :
  exists routes,
    getDirections testNetwork sampleLocation
      (map Waypoint.location sampleWaypoints) true
    = Resolved routes /\
    length routes = 2%nat /\
    Forall
      (fun found =>
         let r := FetchedRoute.route found in
         (exists steps,
            Route.steps r = Some steps /\
            Forall (fun step => ~ hasTag (RouteStep.instruction step)) steps) /\
         (exists d text,
            Route.distance r = Some d /\ Measure.text d = Some text /\
            text <> EmptyString) /\
         (exists d text,
            Route.duration r = Some d /\ Measure.text d = Some text /\
            text <> EmptyString) /\
         (Selectable r <-> usable r = true))
      routes.
Proof.
  eexists. split; [reflexivity|]. split; [reflexivity|].
  apply (getDirections_routes testNetwork sampleLocation
           (map Waypoint.location sampleWaypoints) true).
  reflexivity.
Defined.

(** What [getPlaceDetails] settles to.  It rejects with nothing but a
    [NavigationError] whose code is one of four, CONFIGURATION_ERROR
    exactly when the API key is missing or empty.  A location comes back
    only from a response that is ok and whose status is OK; it carries the
    coordinates of the response, and zero for accuracy, altitude, speed and
    heading. *)
Theorem getPlaceDetails_outcomes net placeId :
  (forall reason,
     getPlaceDetails net placeId = Rejected reason ->
     exists error,
       reason = NavigationErrorOf error /\
       In (NavigationError.code error)
         ["CONFIGURATION_ERROR"; "NETWORK_ERROR"; "API_ERROR";
          "UNKNOWN_ERROR"]%string /\
       (NavigationError.code error = "CONFIGURATION_ERROR"%string <->
        truthyText (GOOGLE_MAPS_API_KEY net) = false)) /\
  (forall location,
     getPlaceDetails net placeId = Resolved location ->
     truthyText (GOOGLE_MAPS_API_KEY net) = true /\
     (exists url response data,
        fetchPlaceDetails net url = Resolved response /\
        Response.ok response = true /\
        Response.json response = Resolved data /\
        GooglePlaceDetailsResponse.status data = "OK"%string /\
        Location.latitude location = GooglePlaceDetailsResponse.lat data /\
        Location.longitude location = GooglePlaceDetailsResponse.lng data) /\
     Location.accuracy location = 0%Q /\
     Location.altitude location = Some 0%Q /\
     Location.speed location = Some 0%Q /\
     Location.heading location = Some 0%Q).
Proof.
  unfold getPlaceDetails, throw.
  destruct (truthyText (GOOGLE_MAPS_API_KEY net)) eqn:Ekey; simpl.
  2:{ split; [|discriminate].
      intros reason [= <-]. eexists. split; [reflexivity|]. simpl.
      split; [tauto|]. split; reflexivity. }
  destruct (fetchPlaceDetails net _) as [response|error] eqn:Efetch; simpl.
  2:{ split; [|discriminate].
      intros reason [= <-]. eexists. split; [reflexivity|]. simpl.
      split; [tauto|]. split; discriminate. }
  destruct (Response.ok response) eqn:Eok; simpl.
  2:{ split; [|discriminate].
      intros reason [= <-]. eexists. split; [reflexivity|]. simpl.
      split; [tauto|]. split; discriminate. }
  destruct (Response.json response) as [data|error] eqn:Ejson; simpl.
  2:{ split; [|discriminate].
      intros reason [= <-]. eexists. split; [reflexivity|]. simpl.
      split; [tauto|]. split; discriminate. }
  destruct (String.eqb_spec (GooglePlaceDetailsResponse.status data) "OK")
    as [Estatus|Estatus]; simpl.
  - split; [discriminate|].
    intros location [= <-]. split; [reflexivity|].
    split; [|simpl; repeat split; reflexivity].
    eexists _, response, data.
    split; [exact Efetch|]. split; [exact Eok|]. split; [exact Ejson|].
    split; [exact Estatus|]. split; reflexivity.
  - split; [|discriminate].
    intros reason [= <-]. eexists. split; [reflexivity|]. simpl.
    split; [tauto|]. split; discriminate.
Qed.

Lemma getPlaceDetails_outcomes_witness :
  exists location,
    getPlaceDetails testNetwork "place" = Resolved location /\
    truthyText (GOOGLE_MAPS_API_KEY testNetwork) = true /\
    Location.speed location = Some 0%Q.
Proof.
  eexists. split; [reflexivity|].
  destruct (getPlaceDetails_outcomes testNetwork "place") as [_ Hfound].
  destruct (Hfound _ eq_refl) as (Hkey & _ & _ & _ & Hspeed & _).
  split; [exact Hkey|exact Hspeed].
Defined.

(** What [getPlaceSuggestions] settles to.  It rejects with nothing but a
    [NavigationError] whose code is one of five; with a key, a request that
    fails with an [AbortError], as it does when the time-out aborts it, is
    reported as TIMEOUT_ERROR.  A response that is ok and whose status is
    ZERO_RESULTS is no error, unlike in [getDirections]: the result has one
    entry for each prediction, and none when the predictions are
    missing. *)
Theorem getPlaceSuggestions_outcomes net query location radius timeout :
  (forall reason,
     getPlaceSuggestions net query location radius timeout = Rejected reason ->
     exists error,
       reason = NavigationErrorOf error /\
       In (NavigationError.code error)
         ["CONFIGURATION_ERROR"; "NETWORK_ERROR"; "API_ERROR";
          "TIMEOUT_ERROR"; "UNKNOWN_ERROR"]%string /\
       (NavigationError.code error = "CONFIGURATION_ERROR"%string <->
        truthyText (GOOGLE_MAPS_API_KEY net) = false)) /\
  (forall message,
     truthyText (GOOGLE_MAPS_API_KEY net) = true ->
     (forall url,
        fetchAutocomplete net url timeout
        = Rejected (ErrorObject "AbortError" message)) ->
     getPlaceSuggestions net query location radius timeout
   = Rejected
       (NavigationErrorOf
          (NavigationError.mk "Place suggestions request timed out"
             "TIMEOUT_ERROR" None))) /\
  (forall results,
     getPlaceSuggestions net query location radius timeout = Resolved results ->
     exists url response data,
       fetchAutocomplete net url timeout = Resolved response /\
       Response.ok response = true /\
       Response.json response = Resolved data /\
       (AutocompleteResponse.status data = "OK"%string \/
        AutocompleteResponse.status data = "ZERO_RESULTS"%string) /\
       length results
       = match AutocompleteResponse.predictions data with
         | Some predictions => length predictions
         | None => 0%nat
         end) /\
  (truthyText (GOOGLE_MAPS_API_KEY net) = true ->
   forall response data,
     (forall url, fetchAutocomplete net url timeout = Resolved response) ->
     Response.ok response = true ->
     Response.json response = Resolved data ->
     AutocompleteResponse.status data = "ZERO_RESULTS"%string ->
     exists results,
       getPlaceSuggestions net query location radius timeout
       = Resolved results).
Proof.
  unfold getPlaceSuggestions, throw.
  destruct (truthyText (GOOGLE_MAPS_API_KEY net)) eqn:Ekey; simpl.
  2:{ split; [|split; [discriminate|split; discriminate]].
      intros reason [= <-]. eexists. split; [reflexivity|]. simpl.
      split; [tauto|]. split; reflexivity. }
  assert (Hwrapped : forall error : Foreign,
            exists e,
              (if match error with
                  | ErrorObject name _ => String.eqb name "AbortError"
                  | _ => false
                  end
               then
                 NavigationError.mk "Place suggestions request timed out"
                   "TIMEOUT_ERROR" None
               else
                 NavigationError.mk "Error getting place suggestions"
                   "UNKNOWN_ERROR"
                   (Some (NavigationError.originalError error))) = e /\
              In (NavigationError.code e)
                ["CONFIGURATION_ERROR"; "NETWORK_ERROR"; "API_ERROR";
                 "TIMEOUT_ERROR"; "UNKNOWN_ERROR"]%string /\
              (NavigationError.code e = "CONFIGURATION_ERROR"%string <->
               true = false)).
  { intros error. eexists. split; [reflexivity|].
    destruct (match error with
              | ErrorObject name _ => String.eqb name "AbortError"
              | _ => false
              end); simpl; (split; [tauto|]; split; discriminate). }
  split; [|split; [|split]].
  - destruct (fetchAutocomplete net _ timeout) as [response|error]; simpl.
    2:{ intros reason [= <-].
        destruct (Hwrapped error) as (e & -> & Hcode).
        exists e. split; [reflexivity|exact Hcode]. }
    destruct (Response.ok response); simpl.
    2:{ intros reason [= <-]. eexists. split; [reflexivity|]. simpl.
        split; [tauto|]. split; discriminate. }
    destruct (Response.json response) as [data|error]; simpl.
    2:{ intros reason [= <-].
        destruct (Hwrapped error) as (e & -> & Hcode).
        exists e. split; [reflexivity|exact Hcode]. }
    destruct (negb _ && negb _); simpl; [|discriminate].
    intros reason [= <-]. eexists. split; [reflexivity|]. simpl.
    split; [tauto|]. split; discriminate.
  - intros message _ Haborted. rewrite Haborted. reflexivity.
  - intros results.
    destruct (fetchAutocomplete net _ timeout) as [response|error] eqn:Efetch;
      simpl; [|discriminate].
    destruct (Response.ok response) eqn:Eok; simpl; [|discriminate].
    destruct (Response.json response) as [data|error] eqn:Ejson;
      simpl; [|discriminate].
    destruct (String.eqb_spec (AutocompleteResponse.status data) "OK")
      as [Estatus|Estatus];
      destruct (String.eqb_spec (AutocompleteResponse.status data) "ZERO_RESULTS")
        as [Ezero|Ezero]; simpl; try discriminate;
      intros [= <-]; eexists _, response, data;
      (split; [exact Efetch|]; split; [exact Eok|]; split; [exact Ejson|];
       split; [tauto|]; rewrite length_map;
       destruct (AutocompleteResponse.predictions data); reflexivity).
  - intros _ response data Hfetch Hok Hjson Hzero.
    rewrite Hfetch. simpl. rewrite Hok. simpl. rewrite Hjson. simpl.
    rewrite Hzero. simpl. eexists. reflexivity.
Qed.

Lemma getPlaceSuggestions_outcomes_witness :
  truthyText (GOOGLE_MAPS_API_KEY testNetwork) = true /\
  (forall url,
     fetchAutocomplete testNetwork url 10000
     = Rejected (ErrorObject "AbortError" "Aborted")) /\
  getPlaceSuggestions testNetwork "depot" None 50000 10000
  = Rejected
      (NavigationErrorOf
         (NavigationError.mk "Place suggestions request timed out"
            "TIMEOUT_ERROR" None)).
Proof.
  split; [reflexivity|]. split; [reflexivity|].
  apply (getPlaceSuggestions_outcomes testNetwork "depot" None 50000 10000)
    with (message := "Aborted"%string); reflexivity.
Defined.

(** ** The components: what they dispatch *)

Lemma dispatched_cons trace action actions :
  dispatched trace = action :: actions ->
  exists env rest,
    trace = (env, action) :: rest /\ dispatched rest = actions.
Proof.
  destruct trace as [|[env a] rest]; simpl; [discriminate|].
  intros [= -> <-]. now exists env, rest.
Qed.

Lemma dispatched_nil trace : dispatched trace = [] -> trace = [].
Proof.
  destruct trace; [reflexivity|discriminate].
Qed.

Lemma dispatched_app trace front back :
  dispatched trace = front ++ back ->
  exists first second,
    trace = first ++ second /\
    dispatched first = front /\ dispatched second = back.
Proof.
  unfold dispatched. intros H. apply map_eq_app in H.
  destruct H as (first & second & -> & H1 & H2). now exists first, second.
Qed.

Lemma run_app s first second :
  run s (first ++ second) = run (run s first) second.
Proof.
  unfold run. apply fold_left_app.
Qed.

(** Unrolls a trace whose actions are known. *)
Ltac unroll H :=
  repeat
    match type of H with
    | dispatched ?trace = _ :: _ =>
        let env := fresh "env" in
        let rest := fresh "rest" in
        let E := fresh "E" in
        apply dispatched_cons in H; destruct H as (env & rest & E & H);
        rewrite E; clear E
    | dispatched ?trace = [] =>
        apply dispatched_nil in H; rewrite H; clear H
    end.

Ltac run_burst :=
  unfold run, navigationReducer; simpl; unfold reduce_setRoute;
  repeat
    match goal with
    | |- context [if ?b then _ else _] => destruct b
    | |- context [match ?o with Some _ => _ | None => _ end] => destruct o
    end.

Ltac burst_cases Hin Htrace :=
  simpl in Hin;
  repeat (destruct Hin as [Hin|Hin]);
  try contradiction;
  subst; unroll Htrace;
  (split;
   [intros Hinv; run_burst; catalog_arith
   |intros (routes & Hroutes); simpl in Hroutes;
    repeat (destruct Hroutes as [Hroutes|Hroutes]);
    try discriminate; try contradiction;
    run_burst; catalog_arith]).

(** The catalog stays well indexed through everything the components
    dispatch about routes.  Every burst of [fetchRoute], [handleRetry],
    [loadCachedRoute] and the fetch on change keeps the invariant, and a
    burst that dispatches [setAlternativeRoutes] leaves it established
    whatever the state was: each of them dispatches [setRoute], which
    selects route 0, just before. *)
Theorem route_bursts_keep_the_catalog bursts burst s trace :
  RouteBursts bursts -> In burst bursts -> dispatched trace = burst ->
  (catalogInvariant s -> catalogInvariant (run s trace)) /\
  ((exists routes, In (setAlternativeRoutes routes) burst) ->
   catalogInvariant (run s trace)).
Proof.
  intros Hbursts Hin Htrace.
  destruct Hbursts
    as [net setItem position stops
       |net setItem position stops
       |time cachedData sameWaypoints
       |net position stops].
  - unfold NavigationScreen.fetchRoute in Hin.
    destruct position as [position|]; [|simpl in Hin; contradiction].
    destruct stops as [|stop stops]; [simpl in Hin; contradiction|].
    destruct (getDirections _ _ _ _) as [[|mainRoute alternatives]|reason].
    + burst_cases Hin Htrace.
    + destruct (negb _ || negb _); [burst_cases Hin Htrace|].
      destruct setItem, alternatives; burst_cases Hin Htrace.
    + burst_cases Hin Htrace.
  - unfold NavigationScreen.handleRetry, NavigationScreen.fetchRoute in Hin.
    destruct position as [position|]; [|burst_cases Hin Htrace].
    destruct stops as [|stop stops]; [burst_cases Hin Htrace|].
    destruct (getDirections _ _ _ _) as [[|mainRoute alternatives]|reason].
    + burst_cases Hin Htrace.
    + destruct (negb _ || negb _); [burst_cases Hin Htrace|].
      destruct setItem, alternatives; burst_cases Hin Htrace.
    + burst_cases Hin Htrace.
  - unfold NavigationScreen.loadCachedRoute in Hin.
    destruct cachedData as [[cache|]|]; try (simpl in Hin; contradiction).
    destruct (_ && _); [|simpl in Hin; contradiction].
    destruct (NavigationScreen.cachedAlternativeRoutes cache);
      burst_cases Hin Htrace.
  - unfold NavigationScreen.fetchRouteOnChange, withErrorHandling, handleError in Hin.
    destruct position as [position|]; [|simpl in Hin; contradiction].
    destruct stops as [|stop stops]; [simpl in Hin; contradiction|].
    destruct (getDirections _ _ _ _) as [[|main others]|reason].
    + burst_cases Hin Htrace.
    + destruct others; burst_cases Hin Htrace.
    + burst_cases Hin Htrace.
Qed.

Lemma route_bursts_keep_the_catalog_witness :
  let bursts :=
    NavigationScreen.fetchRoute testNetwork (Resolved tt)
      (Some sampleLocation) sampleWaypoints in
  let burst := nth 1 bursts [] in
  let trace := map (pair testEnv) burst in
  let s := set_selectedRouteIndex initialState 5 in
  RouteBursts bursts /\ In burst bursts /\ dispatched trace = burst /\
  (exists routes, In (setAlternativeRoutes routes) burst) /\
  ~ catalogInvariant s /\ catalogInvariant (run s trace).
Proof.
  intros bursts burst trace s.
  assert (Hbursts : RouteBursts bursts) by constructor.
  assert (Hin : In burst bursts) by (right; left; reflexivity).
  assert (Htrace : dispatched trace = burst) by reflexivity.
  assert (Hroutes : exists routes, In (setAlternativeRoutes routes) burst).
  { eexists. right. left. reflexivity. }
  split; [exact Hbursts|]. split; [exact Hin|]. split; [exact Htrace|].
  split; [exact Hroutes|].
  split; [unfold catalogInvariant; simpl; lia|].
  exact (proj2 (route_bursts_keep_the_catalog bursts burst s trace
                  Hbursts Hin Htrace) Hroutes).
Defined.

Lemma getDirections_usable net origin waypoints alternatives routes found :
  getDirections net origin waypoints alternatives = Resolved routes ->
  In found routes ->
  usable (FetchedRoute.route found) = true ->
  Selectable (FetchedRoute.route found).
Proof.
  intros Hget Hin Husable.
  destruct (getDirections_cases net origin waypoints alternatives)
    as [(error & Hrejected & _)
       |(_ & [(_ & Hnone)|(_ & url & response & data & apiRoutes & _ & _ & _ & _ & _ & _ & Hfound)])].
  - congruence.
  - rewrite Hnone in Hget. injection Hget as <-. destruct Hin.
  - rewrite Hfound in Hget. injection Hget as <-.
    apply in_map_iff in Hin. destruct Hin as (route & <- & _).
    now apply toRoute_Selectable.
Qed.

Lemma getDirections_nonempty net origin waypoint waypoints alternatives :
  getDirections net origin (waypoint :: waypoints) alternatives <> Resolved [].
Proof.
  intros Hget.
  destruct (getDirections_cases net origin (waypoint :: waypoints) alternatives)
    as [(error & Hrejected & _)
       |(_ & [(Hnil & _)|(_ & url & response & data & apiRoutes & _ & _ & _ & _ & _ & Hsome & Hfound)])].
  - congruence.
  - discriminate.
  - rewrite Hfound in Hget. injection Hget as Hget.
    apply map_eq_nil in Hget. contradiction.
Qed.

Lemma getDirections_rejects net origin waypoints alternatives reason :
  getDirections net origin waypoints alternatives = Rejected reason ->
  exists error, reason = NavigationErrorOf error.
Proof.
  intros Hget.
  destruct (getDirections_cases net origin waypoints alternatives)
    as [(error & Hrejected & _)
       |(_ & [(_ & Hnone)|(_ & url & response & data & apiRoutes & _ & _ & _ & _ & _ & _ & Hfound)])].
  - rewrite Hrejected in Hget. injection Hget as <-. now exists error.
  - congruence.
  - congruence.
Qed.

(** [fetchRoute], run from any state with nothing dispatched in between.
    It ends with [loading] off.  When the service rejects, or the main
    route has an empty polyline, the error is the fixed text of the
    component, whatever the service reported, and the route is left as it
    was.  Otherwise the main route is stored and selected and the card is
    expanded; the alternatives that come with it are stored without those
    of empty polyline, so that every route of the catalog is then one that
    [setSelectedRoute] accepts; with no alternative, the alternatives of
    an earlier fetch stay.  If the cache write then fails, the same error
    is reported although the route is stored. *)
Theorem fetchRoute_reports net setItem currentLocation waypoint waypoints s trace :
  let found :=
    getDirections net currentLocation
      (map Waypoint.location (waypoint :: waypoints)) true in
  dispatched trace
  = concat (NavigationScreen.fetchRoute net setItem (Some currentLocation)
              (waypoint :: waypoints)) ->
  let s' := run s trace in
  loading s' = false /\
  found <> Resolved [] /\
  (forall reason,
     found = Rejected reason ->
     error s' = Some fetchFailed /\
     route s' = route s /\ alternativeRoutes s' = alternativeRoutes s) /\
  (forall mainRoute alternatives,
     found = Resolved (mainRoute :: alternatives) ->
     usable (FetchedRoute.route mainRoute) = false ->
     error s' = Some fetchFailed /\
     route s' = route s /\ alternativeRoutes s' = alternativeRoutes s) /\
  (forall mainRoute alternatives,
     found = Resolved (mainRoute :: alternatives) ->
     usable (FetchedRoute.route mainRoute) = true ->
     route s' = Some (FetchedRoute.route mainRoute) /\
     selectedRouteIndex s' = 0 /\
     isNavigationCardVisible s' = true /\ cardState s' = expanded /\
     (alternatives = [] -> alternativeRoutes s' = alternativeRoutes s) /\
     (alternatives <> [] ->
      alternativeRoutes s'
      = Some (filter usable (map FetchedRoute.route alternatives)) /\
      Forall Selectable (availableRoutes s')) /\
     error s' = match setItem with
                | Resolved _ => error s
                | Rejected _ => Some fetchFailed
                end).
Proof.
  intros found Htrace s'.
  pose proof (getDirections_nonempty net currentLocation
                (Waypoint.location waypoint) (map Waypoint.location waypoints) true)
    as Hnonempty.
  pose proof (getDirections_usable net currentLocation
                (map Waypoint.location (waypoint :: waypoints)) true) as Husable.
  change (getDirections net currentLocation
            (Waypoint.location waypoint :: map Waypoint.location waypoints) true)
    with found in Hnonempty.
  fold found in Husable.
  unfold NavigationScreen.fetchRoute in Htrace. fold found in Htrace.
  destruct found as [[|mainRoute alternatives]|reason] eqn:Efound.
  - congruence.
  - pose proof (fun f => Husable _ f eq_refl) as Hselectable. clear Husable.
    destruct (truthyString (Route.polyline (FetchedRoute.route mainRoute))) eqn:Ep,
             (isSome (Route.steps (FetchedRoute.route mainRoute))) eqn:Es;
      simpl in Htrace.
    2,3,4: subst s'; unroll Htrace;
      (split; [reflexivity|]; split; [discriminate|]; split; [discriminate|]; split;
       [intros m a _ _; repeat split; reflexivity
       |intros m a [= <- <-] Hu; unfold usable in Hu; rewrite Ep, Es in Hu;
        discriminate]).
    assert (Hmain : Selectable (FetchedRoute.route mainRoute)).
    { apply Hselectable; [now left|]. unfold usable. now rewrite Ep, Es. }
    assert (Hkept : Forall Selectable
                      (filter usable (map FetchedRoute.route alternatives))).
    { apply Forall_forall. intros r Hr. apply filter_In in Hr.
      destruct Hr as [Hr Hu]. apply in_map_iff in Hr.
      destruct Hr as (f & <- & Hf). apply Hselectable; [now right|exact Hu]. }
    destruct setItem as [[]|failure], alternatives as [|alternative alternatives];
      try set (kept := filter usable
                         (map FetchedRoute.route (alternative :: alternatives))) in *;
      simpl in Htrace; subst s'; unroll Htrace;
      unfold run, navigationReducer; simpl;
      unfold reduce_setRoute; rewrite Ep, Es; simpl;
      (split; [reflexivity|]; split; [discriminate|]; split; [discriminate|];
       split;
       [intros m a [= <- <-] Hu; unfold usable in Hu; rewrite Ep, Es in Hu;
        discriminate|];
       intros m a [= <- <-] _;
       do 4 (split; [reflexivity|]);
       split; [intros; first [reflexivity|discriminate]|];
       split; [|reflexivity]).
    1,3: intros H; now contradiction H.
    1,2: intros _; split; [reflexivity|]; constructor; assumption.
  - simpl in Htrace. subst s'. unroll Htrace.
    split; [reflexivity|]. split; [discriminate|].
    split; [intros r _; repeat split; reflexivity|].
    split; discriminate.
Qed.

Lemma fetchRoute_reports_witness :
  let trace :=
    map (pair testEnv)
      (concat (NavigationScreen.fetchRoute testNetwork (Resolved tt)
                 (Some sampleLocation) sampleWaypoints)) in
  let s' := run initialState trace in
  dispatched trace
  = concat (NavigationScreen.fetchRoute testNetwork (Resolved tt)
              (Some sampleLocation) (depot :: [harbour; mill])) /\
  loading s' = false /\
  getDirections testNetwork sampleLocation
    (map Waypoint.location (depot :: [harbour; mill])) true
  <> Resolved [].
Proof.
  intros trace s'.
  assert (Htrace : dispatched trace
                   = concat (NavigationScreen.fetchRoute testNetwork (Resolved tt)
                               (Some sampleLocation) (depot :: [harbour; mill])))
    by reflexivity.
  split; [exact Htrace|].
  destruct (fetchRoute_reports testNetwork (Resolved tt) sampleLocation
              depot [harbour; mill] initialState trace Htrace)
    as (Hloading & Hfound & _).
  split; [exact Hloading|exact Hfound].
Defined.

(** The fetch that runs when the location or the waypoints change, from
    any state with nothing dispatched in between.  It ends with [loading]
    off.  When the service rejects, the error shown is the message of the
    service's [NavigationError], never the text handed to
    [withErrorHandling], and the routes are left as they were.  The service
    never returns an empty list here, so the component's own "No routes
    found" is never raised.  Otherwise the error is cleared and the first
    route is stored and selected; the others are stored as they are, and
    with no other route the alternatives of an earlier fetch stay. *)
Theorem fetchRouteOnChange_reports net currentLocation waypoint waypoints s trace :
  let found :=
    getDirections net currentLocation
      (map Waypoint.location (waypoint :: waypoints)) true in
  dispatched trace
  = concat (NavigationScreen.fetchRouteOnChange net (Some currentLocation)
              (waypoint :: waypoints)) ->
  let s' := run s trace in
  loading s' = false /\
  found <> Resolved [] /\
  (forall reason,
     found = Rejected reason ->
     exists failure,
       reason = NavigationErrorOf failure /\
       error s' = Some (NavigationError.message failure) /\
       route s' = route s /\ alternativeRoutes s' = alternativeRoutes s /\
       selectedRouteIndex s' = selectedRouteIndex s) /\
  (forall main others,
     found = Resolved (main :: others) ->
     error s' = None /\
     route s' = Some (FetchedRoute.route main) /\
     selectedRouteIndex s' = 0 /\
     (others = [] -> alternativeRoutes s' = alternativeRoutes s) /\
     (others <> [] ->
      alternativeRoutes s' = Some (map FetchedRoute.route others))).
Proof.
  intros found Htrace s'.
  pose proof (getDirections_nonempty net currentLocation
                (Waypoint.location waypoint) (map Waypoint.location waypoints) true)
    as Hnonempty.
  pose proof (getDirections_rejects net currentLocation
                (map Waypoint.location (waypoint :: waypoints)) true) as Hrejects.
  change (getDirections net currentLocation
            (Waypoint.location waypoint :: map Waypoint.location waypoints) true)
    with found in Hnonempty.
  fold found in Hrejects.
  unfold NavigationScreen.fetchRouteOnChange, withErrorHandling, handleError
    in Htrace.
  fold found in Htrace.
  destruct found as [[|main others]|reason] eqn:Efound.
  - congruence.
  - destruct others as [|other others];
      simpl in Htrace; subst s'; unroll Htrace;
      unfold run, navigationReducer; simpl; unfold reduce_setRoute;
      destruct (truthyString (Route.polyline (FetchedRoute.route main))
                && isSome (Route.steps (FetchedRoute.route main))); simpl;
      (split; [reflexivity|]; split; [discriminate|];
       split; [discriminate|]; intros m o [= <- <-];
       do 3 (split; [reflexivity|]);
       split; [intros; first [reflexivity|discriminate]|];
       first [intros H; now contradiction H | intros _; reflexivity]).
  - destruct (Hrejects reason eq_refl) as (failure & ->).
    simpl in Htrace. subst s'. unroll Htrace.
    split; [reflexivity|]. split; [discriminate|].
    split; [|discriminate].
    intros reason [= <-]. exists failure. repeat split; reflexivity.
Qed.

Lemma fetchRouteOnChange_reports_witness :
  let trace :=
    map (pair testEnv)
      (concat (NavigationScreen.fetchRouteOnChange keylessNetwork
                 (Some sampleLocation) sampleWaypoints)) in
  let s' := run initialState trace in
  dispatched trace
  = concat (NavigationScreen.fetchRouteOnChange keylessNetwork
              (Some sampleLocation) (depot :: [harbour; mill])) /\
  loading s' = false /\
  error s' = Some "Google Maps API key is missing"%string.
Proof.
  intros trace s'.
  assert (Htrace : dispatched trace
                   = concat (NavigationScreen.fetchRouteOnChange keylessNetwork
                               (Some sampleLocation) (depot :: [harbour; mill])))
    by reflexivity.
  split; [exact Htrace|].
  destruct (fetchRouteOnChange_reports keylessNetwork sampleLocation
              depot [harbour; mill] initialState trace Htrace)
    as (Hloading & _ & Hrejected & _).
  split; [exact Hloading|].
  destruct (Hrejected _ eq_refl) as (failure & Hfailure & Herror & _).
  injection Hfailure as <-. exact Herror.
Defined.

Lemma Selectable_usable r : Selectable r -> usable r = true.
Proof.
  intros H. apply Selectable_checks in H. destruct H as (Hp & Hs & _).
  unfold usable. now rewrite Hp, Hs.
Qed.

Lemma filter_usable_all routes :
  Forall Selectable routes -> filter usable routes = routes.
Proof.
  induction 1 as [|r routes Hr _ IH]; simpl; [reflexivity|].
  now rewrite (Selectable_usable r Hr), IH.
Qed.

(** The route selector and the store agree on a catalog of selectable
    routes, such as a fetch with alternatives leaves.  The selector shows
    the catalog as it is; while a switch is under way it dispatches
    nothing; otherwise a press on the route at an index within the list
    dispatches [setSelectedRoute] with that index, and the store accepts
    it: the selected index becomes the index pressed, the time of the
    switch is recorded, and the route the store has at that index is the
    one that was shown there. *)
Theorem selector_agrees_with_store env s r alternatives :
  route s = Some r ->
  alternativeRoutes s = Some alternatives ->
  Forall Selectable (r :: alternatives) ->
  let shown := r :: alternatives in
  RouteSelector.routes s = Some shown /\
  (forall index, RouteSelector.handleRouteSelect true shown index = None) /\
  (forall index,
     RouteSelector.handleRouteSelect false shown index
     = if (0 <=? index) && (index <? Z.of_nat (length shown))
       then Some (setSelectedRoute (Num (inject_Z index)))
       else None) /\
  (forall index action,
     RouteSelector.handleRouteSelect false shown index = Some action ->
     let s' := navigationReducer env s action in
     selectedRouteIndex s' = index /\
     lastRouteSwitch s' = now env /\
     nth_error (availableRoutes s') (Z.to_nat (selectedRouteIndex s'))
     = nth_error shown (Z.to_nat index)).
Proof.
  intros Hroute Halternatives Hall shown.
  assert (Havailable : availableRoutes s = shown).
  { unfold availableRoutes. now rewrite Hroute, Halternatives. }
  assert (Hpress : forall index,
            RouteSelector.handleRouteSelect false shown index
            = if (0 <=? index) && (index <? Z.of_nat (length shown))
              then Some (setSelectedRoute (Num (inject_Z index)))
              else None).
  { intros index. unfold RouteSelector.handleRouteSelect.
    remember (Z.of_nat (length shown)) as n eqn:En.
    destruct (Z.ltb_spec index 0), (Z.leb_spec 0 index), (Z.leb_spec n index),
             (Z.ltb_spec index n);
      try lia; cbn [orb andb]; try reflexivity.
    destruct (nth_error shown (Z.to_nat index)) as [selected|] eqn:Enth.
    2:{ apply nth_error_None in Enth. lia. }
    apply nth_error_In in Enth.
    pose proof (Selectable_usable selected
                  (proj1 (Forall_forall _ _) Hall selected Enth)) as Husable.
    unfold usable in Husable. apply andb_true_iff in Husable.
    destruct Husable as [-> ->]. reflexivity. }
  split.
  { unfold RouteSelector.routes. rewrite Hroute, Halternatives.
    fold shown. now rewrite (filter_usable_all shown Hall). }
  split; [reflexivity|].
  split; [exact Hpress|].
  intros index action Haction s'.
  rewrite Hpress in Haction.
  destruct (Z.leb_spec 0 index) as [Hpos|]; [|discriminate].
  destruct (Z.ltb_spec index (Z.of_nat (length shown))) as [Hin|]; [|discriminate].
  injection Haction as <-.
  destruct (nth_error shown (Z.to_nat index)) as [selected|] eqn:Enth.
  2:{ apply nth_error_None in Enth. lia. }
  assert (Haccepted : Accepted s (Num (inject_Z index)) index).
  { exists (inject_Z index), selected.
    split; [reflexivity|]. split; [reflexivity|]. split; [exact Hpos|].
    split; [now rewrite Havailable|].
    exact (proj1 (Forall_forall _ _) Hall selected (nth_error_In _ _ Enth)). }
  subst s'. unfold navigationReducer. simpl.
  destruct (setSelectedRoute_cases env s (Num (inject_Z index)))
    as [(i & Hi & ->)|(Hnone & _)]; [|now apply Hnone in Haccepted].
  rewrite (Accepted_unique _ _ _ _ Hi Haccepted).
  split; [reflexivity|]. split; [reflexivity|].
  simpl. change (availableRoutes _) with (availableRoutes s).
  now rewrite Havailable.
Qed.

Lemma selector_agrees_with_store_witness :
  let s :=
    run initialState
      (map (pair testEnv)
         (concat (NavigationScreen.fetchRoute testNetwork (Resolved tt)
                    (Some sampleLocation) sampleWaypoints))) in
  exists r alternative,
    route s = Some r /\
    alternativeRoutes s = Some [alternative] /\
    Forall Selectable [r; alternative] /\
    selectedRouteIndex
      (navigationReducer testEnv s (setSelectedRoute (Num (inject_Z 1)))) = 1.
Proof.
  intros s.
  assert (Hroute : route s = Some (FetchedRoute.route (toRoute testNetwork sampleApiRoute)))
    by reflexivity.
  assert (Halternatives :
            alternativeRoutes s = Some [FetchedRoute.route (toRoute testNetwork otherApiRoute)])
    by reflexivity.
  assert (Hall : Forall Selectable
                   [FetchedRoute.route (toRoute testNetwork sampleApiRoute);
                    FetchedRoute.route (toRoute testNetwork otherApiRoute)]).
  { constructor; [|constructor; [|constructor]];
      apply toRoute_Selectable; reflexivity. }
  eexists _, _.
  split; [exact Hroute|]. split; [exact Halternatives|]. split; [exact Hall|].
  destruct (selector_agrees_with_store testEnv s _ _ Hroute Halternatives Hall)
    as (_ & _ & _ & Hpress).
  exact (proj1 (Hpress 1 (setSelectedRoute (Num (inject_Z 1))) eq_refl)).
Defined.

Lemma addWaypoint_at_end env s w :
  numbered (waypoints s) ->
  Waypoint.order w = Z.of_nat (length (waypoints s)) ->
  waypoints (navigationReducer env s (addWaypoint w)) = waypoints s ++ [w].
Proof.
  intros Hnum Hw. unfold navigationReducer. simpl.
  apply sortByOrder_fixes_sorted, numbered_sorted.
  now apply numbered_snoc.
Qed.

Lemma getPlaceDetails_rejects net placeId reason :
  getPlaceDetails net placeId = Rejected reason ->
  exists failure, reason = NavigationErrorOf failure.
Proof.
  unfold getPlaceDetails, throw, catchForeign.
  destruct (negb _); [intros [= <-]; eexists; reflexivity|].
  destruct (fetchPlaceDetails net _) as [response|error];
    [|intros [= <-]; eexists; reflexivity].
  destruct (negb (Response.ok response));
    [intros [= <-]; eexists; reflexivity|].
  destruct (Response.json response) as [data|error];
    [|intros [= <-]; eexists; reflexivity].
  destruct (negb _); [intros [= <-]; eexists; reflexivity|discriminate].
Qed.

(** The components number the waypoints they add.  The location picked on
    the screen and the place picked in the search bar are dispatched with
    the length of the list as their order, so that on a list numbered in
    sequence, with nothing dispatched in between, they go to the end and
    the list stays numbered in sequence.  In the search bar: without an API
    key, and with a key but without a place id, nothing is added, [loading]
    is off and the error names the cause; the place [current_location],
    while a location is known, adds that location and touches neither
    [loading] nor the error; any other place is looked up, and either
    [getPlaceDetails] rejects, and then nothing is added, [loading] is off
    and the error is the message of its [NavigationError], or it resolves,
    and then its location is added under the description of the place,
    else its main text, else a fixed name, with [loading] off and the
    error cleared. *)
Theorem components_number_waypoints :
  (forall env s location name,
     numbered (waypoints s) ->
     let s' :=
       navigationReducer env s
         (NavigationScreen.handleLocationSelect (waypoints s) location name) in
     waypoints s'
     = waypoints s
       ++ [Waypoint.mk (Some location) (Some name)
             (Z.of_nat (length (waypoints s)))] /\
     numbered (waypoints s')) /\
  (forall net place_id description main_text s trace,
     numbered (waypoints s) ->
     dispatched trace
     = concat (SearchBar.handlePlaceSelect net place_id description main_text
                 (currentLocation s) (waypoints s)) ->
     let s' := run s trace in
     let added location name :=
       waypoints s
       ++ [Waypoint.mk (Some location) (Some name)
             (Z.of_nat (length (waypoints s)))] in
     numbered (waypoints s') /\
     (truthyText (GOOGLE_MAPS_API_KEY net) = false ->
      waypoints s' = waypoints s /\ loading s' = false /\
      error s' = Some "Google Maps API key is missing"%string) /\
     (truthyText (GOOGLE_MAPS_API_KEY net) = true ->
      truthyText place_id = false ->
      waypoints s' = waypoints s /\ loading s' = false /\
      error s' = Some "Invalid place selected"%string) /\
     (truthyText (GOOGLE_MAPS_API_KEY net) = true ->
      forall location,
        place_id = Some "current_location"%string ->
        currentLocation s = Some location ->
        waypoints s' = added location "Current Location"%string /\
        loading s' = loading s /\ error s' = error s) /\
     (truthyText (GOOGLE_MAPS_API_KEY net) = true ->
      forall id,
        place_id = Some id -> id <> EmptyString ->
        id <> "current_location"%string \/ currentLocation s = None ->
        (forall reason,
           getPlaceDetails net id = Rejected reason ->
           waypoints s' = waypoints s /\ loading s' = false /\
           exists failure,
             reason = NavigationErrorOf failure /\
             error s' = Some (NavigationError.message failure)) /\
        (forall location,
           getPlaceDetails net id = Resolved location ->
           waypoints s'
           = added location
               (orText description (orText main_text "Selected location")) /\
           loading s' = false /\ error s' = None))).
Proof.
  split.
  - intros env s location name Hnum s'. subst s'.
    unfold NavigationScreen.handleLocationSelect.
    rewrite (addWaypoint_at_end env s
               (Waypoint.mk (Some location) (Some name)
                  (Z.of_nat (length (waypoints s)))) Hnum eq_refl).
    split; [reflexivity|]. now apply numbered_snoc.
  - intros net place_id description main_text s trace Hnum Htrace s' added.
    unfold SearchBar.handlePlaceSelect, withErrorHandling, handleError in Htrace.
    destruct (truthyText (GOOGLE_MAPS_API_KEY net)) eqn:Ekey; simpl in Htrace.
    2:{ subst s'. unroll Htrace. split; [exact Hnum|].
        split; [intros _; repeat split; reflexivity|].
        split; [discriminate|]. split; discriminate. }
    destruct (truthyText place_id) eqn:Eplace; simpl in Htrace.
    2:{ subst s'. unroll Htrace. split; [exact Hnum|].
        split; [discriminate|].
        split; [intros _ _; repeat split; reflexivity|].
        split.
        - intros _ location ->. discriminate.
        - intros _ id -> Hid. destruct id; [congruence|discriminate]. }
    destruct place_id as [[|c id]|]; try discriminate.
    change (orText (Some (String c id)) "") with (String c id) in Htrace.
    destruct (String.eqb_spec (String c id) "current_location") as [Ecurrent|Ecurrent];
      [destruct (currentLocation s) as [location|] eqn:Elocation|];
      cbn [andb isSome] in Htrace.
    + simpl in Htrace. subst s'. unroll Htrace.
      unfold run. cbn [fold_left fst snd].
      pose proof (addWaypoint_at_end env s
                    (Waypoint.mk (Some location) (Some "Current Location"%string)
                       (Z.of_nat (length (waypoints s)))) Hnum eq_refl) as Hadd.
      rewrite Hadd.
      split; [now apply numbered_snoc|].
      split; [discriminate|]. split; [discriminate|].
      split.
      * intros _ l _ [= <-]. repeat split; reflexivity.
      * intros _ i [= <-] _ [Hother|Hnone]; [contradiction|discriminate].
    + destruct (getPlaceDetails net (String c id)) as [found|reason] eqn:Edetails.
      * simpl in Htrace. subst s'. unroll Htrace.
        unfold run. cbn [fold_left fst snd].
        set (s1 := navigationReducer env0 (navigationReducer env s (setLoading true))
                     (setError None)).
        set (w := Waypoint.mk (Some found) _ _).
        pose proof (addWaypoint_at_end env1 s1 w Hnum eq_refl) as Hadd.
        change (waypoints (navigationReducer env2 (navigationReducer env1 s1 (addWaypoint w))
                             (setLoading false)))
          with (waypoints (navigationReducer env1 s1 (addWaypoint w))).
        rewrite Hadd. change (waypoints s1) with (waypoints s).
        split; [now apply numbered_snoc|].
        split; [discriminate|]. split; [discriminate|].
        split; [intros _ l _ Hl; discriminate Hl|].
        intros _ i [= <-] _ _.
        split; [intros r Hr; congruence|].
        intros l Hl. rewrite Edetails in Hl. injection Hl as <-.
        repeat split; reflexivity.
      * destruct (getPlaceDetails_rejects _ _ _ Edetails) as (failure & ->).
        simpl in Htrace. subst s'. unroll Htrace.
        split; [exact Hnum|].
        split; [discriminate|]. split; [discriminate|].
        split; [intros _ l _ Hl; discriminate Hl|].
        intros _ i [= <-] _ _.
        split; [|intros l Hl; congruence].
        intros r Hr. rewrite Edetails in Hr. injection Hr as <-.
        split; [reflexivity|]. split; [reflexivity|].
        exists failure. split; reflexivity.
    + destruct (getPlaceDetails net (String c id)) as [found|reason] eqn:Edetails.
      * simpl in Htrace. subst s'. unroll Htrace.
        unfold run. cbn [fold_left fst snd].
        set (s1 := navigationReducer env0 (navigationReducer env s (setLoading true))
                     (setError None)).
        set (w := Waypoint.mk (Some found) _ _).
        pose proof (addWaypoint_at_end env1 s1 w Hnum eq_refl) as Hadd.
        change (waypoints (navigationReducer env2 (navigationReducer env1 s1 (addWaypoint w))
                             (setLoading false)))
          with (waypoints (navigationReducer env1 s1 (addWaypoint w))).
        rewrite Hadd. change (waypoints s1) with (waypoints s).
        split; [now apply numbered_snoc|].
        split; [discriminate|]. split; [discriminate|].
        split; [intros _ l Hid _; exfalso; congruence|].
        intros _ i [= <-] _ _.
        split; [intros r Hr; congruence|].
        intros l Hl. rewrite Edetails in Hl. injection Hl as <-.
        repeat split; reflexivity.
      * destruct (getPlaceDetails_rejects _ _ _ Edetails) as (failure & ->).
        simpl in Htrace. subst s'. unroll Htrace.
        split; [exact Hnum|].
        split; [discriminate|]. split; [discriminate|].
        split; [intros _ l Hid _; exfalso; congruence|].
        intros _ i [= <-] _ _.
        split; [|intros l Hl; congruence].
        intros r Hr. rewrite Edetails in Hr. injection Hr as <-.
        split; [reflexivity|]. split; [reflexivity|].
        exists failure. split; reflexivity.
Qed.

Lemma components_number_waypoints_witness :
  let s := waypointState in
  let trace :=
    map (pair testEnv)
      (concat (SearchBar.handlePlaceSelect testNetwork (Some "place-1"%string)
                 (Some "Quay, Harbour Rd"%string) None
                 (currentLocation s) (waypoints s))) in
  let keyless :=
    map (pair testEnv)
      (concat (SearchBar.handlePlaceSelect keylessNetwork (Some "place-1"%string)
                 (Some "Quay, Harbour Rd"%string) None
                 (currentLocation s) (waypoints s))) in
  numbered (waypoints s) /\
  waypoints (run s trace)
  = waypoints s
    ++ [Waypoint.mk
          (Some (Location.mk (385 # 10) (-1202 # 10) 0 (Some 0%Q) (Some 0%Q)
                   (Some 0%Q) None None))
          (Some "Quay, Harbour Rd"%string) 3] /\
  waypoints (run s keyless) = waypoints s /\
  error (run s keyless) = Some "Google Maps API key is missing"%string.
Proof.
  intros s trace keyless.
  assert (Hnum : numbered (waypoints s)) by reflexivity.
  split; [exact Hnum|].
  destruct (proj2 components_number_waypoints testNetwork
              (Some "place-1"%string) (Some "Quay, Harbour Rd"%string) None
              s trace Hnum eq_refl)
    as (_ & _ & _ & _ & Hlookup).
  destruct (proj2 components_number_waypoints keylessNetwork
              (Some "place-1"%string) (Some "Quay, Harbour Rd"%string) None
              s keyless Hnum eq_refl)
    as (_ & Hkeyless & _).
  split.
  - refine (proj1 (proj2 (Hlookup eq_refl "place-1"%string eq_refl _ _) _ eq_refl)).
    + discriminate.
    + left. discriminate.
  - destruct (Hkeyless eq_refl) as (Hsame & _ & Herror).
    split; [exact Hsame|exact Herror].
Defined.


(** [withErrorHandling] around any operation, whatever the operation
    dispatches itself and from any state.  It ends with [loading] off.  An
    operation that resolves gives its value; one that rejects gives [null]
    and leaves an error: the message of what was thrown when that is an
    [Error], the string itself when a string was thrown, and the custom
    message, or a fixed text when there is none, only when something else
    was thrown. *)
Theorem withErrorHandling_settles {A} first others (outcome : Settled Thrown A)
    customErrorMessage s trace :
  let attempt := withErrorHandling (first, others, outcome) customErrorMessage in
  dispatched trace = concat (fst attempt) ->
  let s' := run s trace in
  loading s' = false /\
  (forall value, outcome = Resolved value -> snd attempt = Some value) /\
  (forall reason,
     outcome = Rejected reason ->
     snd attempt = None /\
     error s'
     = Some
         match reason with
         | NavigationErrorOf failure => NavigationError.message failure
         | ForeignOf (ErrorObject _ message) => message
         | ForeignOf (ThrownString text) => text
         | ForeignOf ThrownValue =>
             match customErrorMessage with
             | Some (String c text) => String c text
             | _ => "An unexpected error occurred"%string
             end
         end).
Proof.
  intros attempt Htrace s'.
  assert (Hsplit : exists closing,
            fst attempt
            = (([setLoading true; setError None] ++ first) :: others) ++ [closing] /\
            forall s0 last,
              dispatched last = closing ->
              loading (run s0 last) = false /\
              forall reason,
                outcome = Rejected reason ->
                error (run s0 last)
                = Some
                    match reason with
                    | NavigationErrorOf failure => NavigationError.message failure
                    | ForeignOf (ErrorObject _ message) => message
                    | ForeignOf (ThrownString text) => text
                    | ForeignOf ThrownValue =>
                        match customErrorMessage with
                        | Some (String c text) => String c text
                        | _ => "An unexpected error occurred"%string
                        end
                    end).
  { subst attempt. unfold withErrorHandling, handleError.
    destruct outcome as [value|reason]; eexists; (split; [reflexivity|]);
      intros s0 last Hlast; simpl in Hlast; unroll Hlast;
      (split; [reflexivity|]).
    - discriminate.
    - intros r [= <-].
      destruct reason as [failure|[name message|text|]]; try reflexivity.
      destruct customErrorMessage as [[|c text]|]; reflexivity. }
  destruct Hsplit as (closing & Hbursts & Hclosing).
  rewrite Hbursts, concat_app in Htrace.
  change (concat [closing]) with (closing ++ []) in Htrace.
  rewrite app_nil_r in Htrace.
  apply dispatched_app in Htrace.
  destruct Htrace as (before & last & -> & _ & Hlast).
  subst s'. rewrite run_app.
  destruct (Hclosing (run s before) last Hlast) as [Hloading Herror].
  split; [exact Hloading|].
  split.
  - intros value ->. reflexivity.
  - intros reason Hreason. split; [|now apply Herror].
    subst attempt. rewrite Hreason. reflexivity.
Qed.

Lemma withErrorHandling_settles_witness :
  let failure := ForeignOf (ErrorObject "Error" "Could not get location details") in
  let attempt :=
    withErrorHandling ([], [], @Rejected Thrown unit failure)
      (Some "Error selecting destination"%string) in
  let trace := map (pair testEnv) (concat (fst attempt)) in
  dispatched trace = concat (fst attempt) /\
  loading (run initialState trace) = false /\
  error (run initialState trace) = Some "Could not get location details"%string.
Proof.
  intros failure attempt trace.
  assert (Htrace : dispatched trace = concat (fst attempt)) by reflexivity.
  split; [exact Htrace|].
  destruct (withErrorHandling_settles [] [] (@Rejected Thrown unit failure)
              (Some "Error selecting destination"%string) initialState trace Htrace)
    as (Hloading & _ & Hrejected).
  split; [exact Hloading|].
  exact (proj2 (Hrejected failure eq_refl)).
Defined.

Lemma removeWaypoint_by_position_witness :
  numbered (waypoints waypointState) /\
  map details
    (waypoints (navigationReducer testEnv waypointState (removeWaypoint 1)))
  = map details [depot; mill].
Proof.
  assert (Hnum : numbered (waypoints waypointState)) by reflexivity.
  split; [exact Hnum|].
  refine (proj1 (removeWaypoint_by_position testEnv waypointState 1 Hnum)
            1%nat eq_refl _).
  simpl. lia.
Defined.

Lemma addWaypoint_sorted_witness :
  let w := Waypoint.mk (Some originLocation) (Some "Quay"%string) 3 in
  numbered (waypoints waypointState) /\
  Waypoint.order w = Z.of_nat (length (waypoints waypointState)) /\
  waypoints (navigationReducer testEnv waypointState (addWaypoint w))
  = waypoints waypointState ++ [w].
Proof.
  intros w.
  assert (Hnum : numbered (waypoints waypointState)) by reflexivity.
  assert (Hw : Waypoint.order w = Z.of_nat (length (waypoints waypointState)))
    by reflexivity.
  split; [exact Hnum|]. split; [exact Hw|].
  destruct (addWaypoint_sorted testEnv waypointState w) as (_ & _ & _ & Hend).
  exact (proj1 (Hend Hnum Hw)).
Defined.

